(** * KaHyPar coarsening: the heavy-edge rater and the multilevel coarsener

    A shallow embedding of [HeavyEdgeRater] (its constructor, rate,
    markAsMatched, resetMatches, thresholdNodeWeight,
    belowThresholdNodeWeight) and of [MLCoarsener] (coarsenImpl,
    simulateContractions), with the hypergraph, the sparse score map, the
    flag array, the policies and the random source they are written
    against.

    The code is stateful and may fail an assertion: an operation takes the
    state of the coarsener and of its rater and returns a result, the new
    state or the failure.  What the two classes only use (the hypergraph, the
    containers, the policies, the random source, the callbacks) is a
    parameter or a model, as said where it is declared.  The coarsener is
    taken with the rater shown, whose ratings have the three fields the
    coarsener reads. *)

From Stdlib Require Import ZArith NArith List Bool Lia Permutation.
From Stdlib Require Import Floats.PrimFloat.
Import ListNotations.

Set Implicit Arguments.
Local Open Scope N_scope.

(** ** Basic types

    The integer types of the code are declared in kahypar/definitions.h,
    which is not among the shown files.  Identifiers are unsigned machine
    integers, of a width that is a parameter here; weights, partition ids and
    cluster ids are signed ones.  The width of the weights is a parameter as
    well, and the sum of two weights is taken in it. *)

Definition HypernodeID := N.
Definition HyperedgeID := N.
Definition HypernodeWeight := Z.
Definition HyperedgeWeight := Z.
Definition PartitionID := Z.
Definition ClusterID := Z.

(** The number of bits of [HypernodeID]. *)
Class IdWidth : Type := {
  id_bits : N
}.

(** [uint_max] is [std::numeric_limits<HypernodeID>::max()]. *)
Definition uint_modulus `{IdWidth} : N := 2 ^ id_bits.
Definition uint_max `{IdWidth} : HypernodeID := uint_modulus - 1.

(** [kInvalidTarget = std::numeric_limits<HypernodeID>::max()] (ml_coarsener.h). *)
Definition kInvalidTarget `{IdWidth} : HypernodeID := uint_max.

(** Unsigned subtraction [a - 1] with its wrap-around. *)
Definition uint_pred `{IdWidth} (a : N) : N :=
  (a + uint_modulus - 1) mod uint_modulus.

(** The number of bits of [HypernodeWeight], a signed integer type, which has
    the eight bits of a [signed char] at least. *)
Class WeightWidth : Type := {
  weight_bits : N;
  weight_bits_min : 8 <= weight_bits
}.

(** [weight_max] and [weight_min] are
    [std::numeric_limits<HypernodeWeight>::max()] and [::min()]. *)
Definition weight_modulus `{WeightWidth} : Z := 2 ^ Z.of_N weight_bits.
Definition weight_max `{WeightWidth} : Z := weight_modulus / 2 - 1.
Definition weight_min `{WeightWidth} : Z := - (weight_modulus / 2).

(** The signed addition [a + b] of two weights, with the wrap-around of two's
    complement arithmetic: the language leaves a sum that overflows
    undefined, and the builds of the code wrap it. *)
Definition weight_add `{WeightWidth} (a b : Z) : Z :=
  ((a + b - weight_min) mod weight_modulus + weight_min)%Z.

(** The sum of [a] and [b] is a weight: their addition does not wrap. *)
Definition sum_fits `{WeightWidth} (a b : Z) : Prop :=
  (weight_min <= a + b <= weight_max)%Z.

(** ** Results of code that may fail an [ASSERT] *)

Inductive res (A : Type) : Type :=
| Ok (a : A)
| AssertionFailed.
Arguments AssertionFailed {A}.

Definition bind {A B : Type} (m : res A) (k : A -> res B) : res B :=
  match m with
  | Ok a => k a
  | AssertionFailed => AssertionFailed
  end.

Notation "x <- m ;; k" := (bind m (fun x => k))
  (at level 61, m at next level, right associativity).

(** Whether a result is a value, and the value, with a default. *)
Definition res_ok {A : Type} (m : res A) : bool :=
  match m with
  | Ok _ => true
  | AssertionFailed => false
  end.

Definition res_get {A : Type} (m : res A) (d : A) : A :=
  match m with
  | Ok a => a
  | AssertionFailed => d
  end.

(** [ASSERT(c)] (kahypar/macros.h, not among the shown files): checked only
    in builds with assertions switched on, which is a parameter
    [assertions] of the operations below. *)
Definition ASSERT (assertions c : bool) : res unit :=
  if assertions && negb c then AssertionFailed else Ok tt.

(** ** The rating type

    [RatingType] is a template parameter of the rater: the operations the
    rater applies to it. *)

Class RatingOps (R : Type) : Type := {
  r_zero : R;                              (* RatingType() *)
  r_min : R;                               (* numeric_limits<RatingType>::min() *)
  r_add : R -> R -> R;                     (* += *)
  r_div : R -> R -> R;                     (* / *)
  r_ltb : R -> R -> bool;                  (* < *)
  r_eqb : R -> R -> bool;                  (* == *)
  r_of_weight : Z -> R;                    (* conversion of a signed weight *)
  r_of_uint : N -> R;                      (* conversion of an unsigned count *)
  r_eqb_min : r_eqb r_min r_min = true
}.

(** [operator!=] *)
Definition r_neb {R} `{RatingOps R} (a b : R) : bool := negb (r_eqb a b).

(** ** The hypergraph

    Modelled from the spec: the hypergraph collaborator (kahypar/definitions.h
    and the hypergraph data structure are not among the shown files).  Vertices
    have a weight, an enabled flag, a partition id and an incidence list of
    hyperedges; hyperedges have a weight and their pins. *)

Record Hypergraph : Type := {
  initialNumNodes : N;
  nodeWeight : HypernodeID -> HypernodeWeight;
  partID : HypernodeID -> PartitionID;
  nodeIsEnabled : HypernodeID -> bool;
  incidentEdges : HypernodeID -> list HyperedgeID;
  pins : HyperedgeID -> list HypernodeID;
  edgeWeight : HyperedgeID -> HyperedgeWeight
}.

Definition edgeSize (h : Hypergraph) (e : HyperedgeID) : N :=
  N.of_nat (length (pins h e)).

Definition all_ids (n : N) : list HypernodeID :=
  map N.of_nat (seq 0 (N.to_nat n)).

(** [nodes()]: the enabled vertices, by increasing id. *)
Definition nodes (h : Hypergraph) : list HypernodeID :=
  filter (nodeIsEnabled h) (all_ids (initialNumNodes h)).

Definition currentNumNodes (h : Hypergraph) : N :=
  N.of_nat (length (nodes h)).

(** The sum of the weights of the enabled vertices. *)
Definition total_weight (h : Hypergraph) : Z :=
  fold_right Z.add 0%Z (map (nodeWeight h) (nodes h)).

(** What the hypergraph data structure, which holds its total weight in a
    [HypernodeWeight], has of the weights: those of the enabled vertices are
    not negative, and their sum is a weight. *)
Definition weights_fit `{WeightWidth} (h : Hypergraph) : Prop :=
  (forall v, nodeIsEnabled h v = true -> 0 <= nodeWeight h v)%Z /\
  (total_weight h <= weight_max)%Z.

Definition mem (x : N) (l : list N) : bool := existsb (N.eqb x) l.

(** Every occurrence of [v] in a pin list replaced by [u]. *)
Definition replace_pin (v u : HypernodeID) (l : list HypernodeID) : list HypernodeID :=
  map (fun x => if x =? v then u else x) l.

Definition remove_pin (v : HypernodeID) (l : list HypernodeID) : list HypernodeID :=
  filter (fun x => negb (x =? v)) l.

(** Modelled from the spec: [contract(u, v)] merges [v] into the
    representative [u]: the weights are summed, in the type of the weights,
    [v] is disabled, and in every
    hyperedge incident to [v] the pin [v] is dropped when [u] is a pin already
    and replaced by [u] otherwise, in which case the edge joins the incidence
    list of [u]. *)
Definition contract `{WeightWidth} (h : Hypergraph) (u v : HypernodeID)
  : Hypergraph :=
  {| initialNumNodes := initialNumNodes h;
     nodeWeight := fun x =>
       if x =? u then weight_add (nodeWeight h u) (nodeWeight h v)
       else nodeWeight h x;
     partID := partID h;
     nodeIsEnabled := fun x => if x =? v then false else nodeIsEnabled h x;
     incidentEdges := fun x =>
       if x =? u
       then incidentEdges h u ++
            filter (fun e => negb (mem u (pins h e))) (incidentEdges h v)
       else incidentEdges h x;
     pins := fun e =>
       if mem e (incidentEdges h v)
       then if mem u (pins h e)
            then remove_pin v (pins h e)
            else replace_pin v u (pins h e)
       else pins h e;
     edgeWeight := edgeWeight h |}.

(** ** Well-formed hypergraphs *)

(** What the hypergraph data structure maintains: vertex ids are
    representable and below the initial number of vertices, pins are enabled
    vertices, pin lists have no repetition, and pins and incidence lists agree. *)
Record wf `{IdWidth} (h : Hypergraph) : Prop := {
  wf_num_nodes : initialNumNodes h <= uint_max;
  wf_enabled : forall v, nodeIsEnabled h v = true -> v < initialNumNodes h;
  wf_pins_enabled : forall e v, In v (pins h e) -> nodeIsEnabled h v = true;
  wf_pins_incident : forall e v, In v (pins h e) -> In e (incidentEdges h v);
  wf_incident_pins : forall u e,
    nodeIsEnabled h u = true -> In e (incidentEdges h u) -> In u (pins h e);
  wf_pins_nodup : forall e, NoDup (pins h e)
}.

(** Pins are vertex ids, and these are below the sentinel id. *)
Definition ids_representable `{IdWidth} (h : Hypergraph) : Prop :=
  initialNumNodes h <= uint_max /\
  forall e v, In v (pins h e) -> v < initialNumNodes h.

(** The hypergraph as [rate(u)] would see it, had the degenerate edges
    incident to [u] been skipped. *)
Definition skip_degenerate (h : Hypergraph) (u : HypernodeID) : Hypergraph :=
  {| initialNumNodes := initialNumNodes h;
     nodeWeight := nodeWeight h;
     partID := partID h;
     nodeIsEnabled := nodeIsEnabled h;
     incidentEdges := fun x =>
       if x =? u
       then filter (fun e => 1 <? edgeSize h e) (incidentEdges h u)
       else incidentEdges h x;
     pins := pins h;
     edgeWeight := edgeWeight h |}.

(** A hypergraph given by the weights of its vertices, their partition ids
    and the weighted pin lists of its hyperedges; every vertex is enabled and
    the incidence lists are read off the pin lists. *)
Definition make_hypergraph (hn_weights : list HypernodeWeight)
  (part : HypernodeID -> PartitionID)
  (edges : list (HyperedgeWeight * list HypernodeID)) : Hypergraph :=
  let n := N.of_nat (length hn_weights) in
  let pins_of e := snd (nth (N.to_nat e) edges (0%Z, [])) in
  {| initialNumNodes := n;
     nodeWeight := fun v => nth (N.to_nat v) hn_weights 0%Z;
     partID := part;
     nodeIsEnabled := fun v => v <? n;
     incidentEdges := fun v =>
       filter (fun e => mem v (pins_of e)) (all_ids (N.of_nat (length edges)));
     pins := pins_of;
     edgeWeight := fun e => fst (nth (N.to_nat e) edges (0%Z, [])) |}.

(** The check of the input of [make_hypergraph]: pins are vertex ids and no
    pin list repeats a pin. *)
Fixpoint nodupb (l : list N) : bool :=
  match l with
  | [] => true
  | x :: l' => negb (mem x l') && nodupb l'
  end.

Definition edges_ok (n : N) (edges : list (HyperedgeWeight * list HypernodeID)) : bool :=
  forallb (fun e => forallb (fun v => v <? n) (snd e) && nodupb (snd e)) edges.

(** ** The sparse score map (ds::SparseMap)

    Modelled from the spec: the score accumulator, a dense array of
    (key, value) entries in insertion order.  [operator[]] on an absent key
    appends an entry holding [RatingType()]. *)

Definition SparseMap (R : Type) : Type := list (HypernodeID * R).

Fixpoint sm_get {R} (m : SparseMap R) (k : HypernodeID) : option R :=
  match m with
  | [] => None
  | (k', x) :: m' => if k' =? k then Some x else sm_get m' k
  end.

(** [m[k] += s] *)
Fixpoint sm_add {R} `{RatingOps R} (m : SparseMap R) (k : HypernodeID) (s : R)
  : SparseMap R :=
  match m with
  | [] => [(k, r_add r_zero s)]
  | (k', x) :: m' =>
      if k' =? k then (k', r_add x s) :: m' else (k', x) :: sm_add m' k s
  end.

Definition sm_clear {R} (m : SparseMap R) : SparseMap R := [].

Definition sm_keys {R} (m : SparseMap R) : list HypernodeID := map fst m.

(** The value held for a key, [RatingType()] when it is absent. *)
Definition sm_value {R} `{RatingOps R} (o : option R) : R :=
  match o with
  | Some x => x
  | None => r_zero
  end.

(** ** The matched markers (ds::FastResetFlagArray)

    Modelled from the spec: a flag per vertex, set one at a time and reset
    all at once. *)

Definition FlagArray : Type := HypernodeID -> bool.

Definition fa_set (a : FlagArray) (i : HypernodeID) (b : bool) : FlagArray :=
  fun x => if x =? i then b else a x.

Definition fa_reset (a : FlagArray) : FlagArray := fun _ => false.

(** ** Policies

    The node-weight penalty and the acceptance policy are template parameters
    of the rater.  The acceptance policy may break ties at random: it is given
    the state of the process-wide random source and returns the new one. *)

Class NodeWeightPenalty (R : Type) : Type := {
  penalty : HypernodeWeight -> HypernodeWeight -> R
}.

Class AcceptancePolicy (R Rng : Type) : Type := {
  acceptRating : R -> R -> HypernodeID -> HypernodeID -> FlagArray -> Rng -> bool * Rng
}.

(** [Randomize::instance()] (not among the shown files): coin flips and the
    shuffle of the pass order, on the state of the random source.  Nothing
    is asked of the shuffle: the properties below hold for any order of
    visit. *)
Class Randomize (Rng : Type) : Type := {
  flipCoin : Rng -> bool * Rng;
  shuffleVector : list HypernodeID -> Rng -> list HypernodeID * Rng
}.

(** ** Ratings *)

Record Rating (R : Type) : Type := {
  target : HypernodeID;
  value : R;
  valid : bool
}.

(** [HeavyEdgeRating()] *)
Definition default_rating {R} `{IdWidth} `{RatingOps R} : Rating R :=
  {| target := uint_max; value := r_min; valid := false |}.

(** ** Observable events of a coarsening run *)

Record Memento : Type := { m_u : HypernodeID; m_v : HypernodeID }.

Inductive Event : Type :=
| EvRate (h : Hypergraph) (u : HypernodeID)
| EvContract (h : Hypergraph) (u v : HypernodeID)
| EvContractionFunc (u v : HypernodeID)
| EvEndOfPass.

(** ** State of a coarsener with its rater *)

Record State (R Rng : Type) : Type := {
  hg : Hypergraph;
  tmp_ratings : SparseMap R;
  already_matched : FlagArray;
  rng : Rng;
  history : list Memento;
  events : list Event
}.

Definition set_hg {R Rng} (st : State R Rng) (h : Hypergraph) : State R Rng :=
  {| hg := h; tmp_ratings := tmp_ratings st; already_matched := already_matched st;
     rng := rng st; history := history st; events := events st |}.

Definition set_tmp_ratings {R Rng} (st : State R Rng) (m : SparseMap R) : State R Rng :=
  {| hg := hg st; tmp_ratings := m; already_matched := already_matched st;
     rng := rng st; history := history st; events := events st |}.

Definition set_already_matched {R Rng} (st : State R Rng) (a : FlagArray) : State R Rng :=
  {| hg := hg st; tmp_ratings := tmp_ratings st; already_matched := a;
     rng := rng st; history := history st; events := events st |}.

Definition set_rng {R Rng} (st : State R Rng) (g : Rng) : State R Rng :=
  {| hg := hg st; tmp_ratings := tmp_ratings st; already_matched := already_matched st;
     rng := g; history := history st; events := events st |}.

Definition push_history {R Rng} (st : State R Rng) (m : Memento) : State R Rng :=
  {| hg := hg st; tmp_ratings := tmp_ratings st; already_matched := already_matched st;
     rng := rng st; history := history st ++ [m]; events := events st |}.

Definition log {R Rng} (st : State R Rng) (ev : Event) : State R Rng :=
  {| hg := hg st; tmp_ratings := tmp_ratings st; already_matched := already_matched st;
     rng := rng st; history := history st; events := events st ++ [ev] |}.

(** The vertex an event contracts away. *)
Definition contracted_by (ev : Event) : option HypernodeID :=
  match ev with
  | EvContract _ _ v => Some v
  | _ => None
  end.

(** [x] is rated as a source, or is one of the two vertices of a contraction. *)
Definition involves (x : HypernodeID) (ev : Event) : Prop :=
  match ev with
  | EvRate _ u => u = x
  | EvContract _ u v => u = x \/ v = x
  | _ => False
  end.

(** No vertex is involved in an event that comes after its contraction. *)
Fixpoint never_again (evs : list Event) : Prop :=
  match evs with
  | [] => True
  | ev :: later =>
      match contracted_by ev with
      | Some v => Forall (fun ev' => ~ involves v ev') later
      | None => True
      end /\ never_again later
  end.

(** The number of passes ended. *)
Fixpoint passes (evs : list Event) : N :=
  match evs with
  | [] => 0
  | EvEndOfPass :: later => 1 + passes later
  | _ :: later => passes later
  end.

(** The replay of a sequence of contraction records: whether every record
    finds its two vertices enabled at its turn, the hypergraph reached and
    the events of the replay. *)
Fixpoint replay_enabled `{WeightWidth} (h : Hypergraph) (ms : list Memento) : bool :=
  match ms with
  | [] => true
  | m :: rest =>
      nodeIsEnabled h (m_u m) && nodeIsEnabled h (m_v m)
      && replay_enabled (contract h (m_u m) (m_v m)) rest
  end.

Fixpoint replay `{WeightWidth} (h : Hypergraph) (ms : list Memento) : Hypergraph :=
  match ms with
  | [] => h
  | m :: rest => replay (contract h (m_u m) (m_v m)) rest
  end.

Fixpoint replay_events `{WeightWidth} (h : Hypergraph) (ms : list Memento) : list Event :=
  match ms with
  | [] => []
  | m :: rest =>
      EvContract h (m_u m) (m_v m) :: EvContractionFunc (m_u m) (m_v m)
      :: replay_events (contract h (m_u m) (m_v m)) rest
  end.

Section Coarsening.

Context `{W : IdWidth} `{WW : WeightWidth} {R Rng : Type}.
Context `{RO : RatingOps R} `{NP : NodeWeightPenalty R}.
Context `{AP : AcceptancePolicy R Rng} `{RZ : Randomize Rng}.

(** [_context.coarsening.max_allowed_node_weight], the community labels
    [_comm] fixed when the rater is built, and whether [ASSERT] is checked. *)
Variable max_allowed_node_weight : HypernodeWeight.
Variable comm : HypernodeID -> ClusterID.
Variable assertions : bool.

Abbreviation St := (State R Rng).

(** ** HeavyEdgeRater *)

Definition thresholdNodeWeight : HypernodeWeight := max_allowed_node_weight.

Definition belowThresholdNodeWeight (weight_u weight_v : HypernodeWeight) : bool :=
  (weight_add weight_v weight_u <=? max_allowed_node_weight)%Z.

(** The test of the inner loop of [rate]. *)
Definition admissible (h : Hypergraph) (u v : HypernodeID) : bool :=
  negb (v =? u)
  && belowThresholdNodeWeight (nodeWeight h u) (nodeWeight h v)
  && (partID h u =? partID h v)%Z.

(** [static_cast<RatingType>(edgeWeight(he)) / (edgeSize(he) - 1)] *)
Definition edge_score (h : Hypergraph) (he : HyperedgeID) : R :=
  r_div (r_of_weight (edgeWeight h he)) (r_of_uint (uint_pred (edgeSize h he))).

(** [for (v : pins(he))] *)
Fixpoint rate_pins (h : Hypergraph) (u : HypernodeID) (score : R)
  (ps : list HypernodeID) (tmp : SparseMap R) : SparseMap R :=
  match ps with
  | [] => tmp
  | v :: ps' =>
      rate_pins h u score ps'
        (if admissible h u v then sm_add tmp v score else tmp)
  end.

(** [for (he : incidentEdges(u))] *)
Fixpoint rate_edges (h : Hypergraph) (u : HypernodeID)
  (es : list HyperedgeID) (tmp : SparseMap R) : res (SparseMap R) :=
  match es with
  | [] => Ok tmp
  | he :: es' =>
      _ <- ASSERT assertions (1 <? edgeSize h he) ;;
      rate_edges h u es' (rate_pins h u (edge_score h he) (pins h he) tmp)
  end.

(** The scan of the accumulator; [entries] are the entries in the order of
    the scan, from [end() - 1] down to [begin()]. *)
Fixpoint rate_select (h : Hypergraph) (u : HypernodeID) (matched : FlagArray)
  (entries : list (HypernodeID * R)) (max_rating : R) (tgt : HypernodeID)
  (g : Rng) : R * HypernodeID * Rng :=
  match entries with
  | [] => (max_rating, tgt, g)
  | (tmp_target, x) :: rest =>
      let tmp_rating :=
        r_div x (penalty (nodeWeight h u) (nodeWeight h tmp_target)) in
      if (comm u =? comm tmp_target)%Z then
        let (accept, g') := acceptRating tmp_rating max_rating tgt tmp_target matched g in
        if accept
        then rate_select h u matched rest tmp_rating tmp_target g'
        else rate_select h u matched rest max_rating tgt g'
      else rate_select h u matched rest max_rating tgt g
  end.

Definition rate (u : HypernodeID) (st : St) : res (Rating R * St) :=
  let h := hg st in
  tmp <- rate_edges h u (incidentEdges h u) (tmp_ratings st) ;;
  let '(max_rating, tgt, g) :=
    rate_select h u (already_matched st) (rev tmp) r_min uint_max (rng st) in
  let st' := set_rng (set_tmp_ratings st (sm_clear tmp)) g in
  ret <- (if r_neb max_rating r_min then
            _ <- ASSERT assertions (negb (tgt =? uint_max)) ;;
            let ret := {| target := tgt; value := max_rating; valid := true |} in
            _ <- ASSERT assertions (comm u =? comm (target ret))%Z ;;
            Ok ret
          else Ok default_rating) ;;
  _ <- ASSERT assertions
         (negb (valid ret && negb (partID h u =? partID h (target ret))%Z)) ;;
  Ok (ret, st').

Definition markAsMatched (hn : HypernodeID) (st : St) : St :=
  set_already_matched st (fa_set (already_matched st) hn true).

Definition resetMatches (st : St) : St :=
  set_already_matched st (fa_reset (already_matched st)).

(** ** MLCoarsener *)

(** Modelled from the spec: [Base::performContraction] (the coarsener base
    class is not among the shown files) contracts the pair in the hypergraph
    and appends the contraction record to the history.  The contraction is
    recorded as an event, with the hypergraph it starts from. *)
Definition performContraction (rep_node contracted_node : HypernodeID) (st : St) : St :=
  push_history
    (set_hg (log st (EvContract (hg st) rep_node contracted_node))
            (contract (hg st) rep_node contracted_node))
    {| m_u := rep_node; m_v := contracted_node |}.

(** The two callbacks of the coarsener are external: a call is recorded as an
    event. *)
Definition contraction_func (u v : HypernodeID) (st : St) : St :=
  log st (EvContractionFunc u v).

Definition end_of_pass_func (st : St) : St := log st EvEndOfPass.

Fixpoint simulateContractions (mementos : list Memento) (st : St) : res St :=
  match mementos with
  | [] => Ok st
  | memento :: rest =>
      _ <- ASSERT assertions (nodeIsEnabled (hg st) (m_u memento)) ;;
      _ <- ASSERT assertions (nodeIsEnabled (hg st) (m_v memento)) ;;
      simulateContractions rest
        (contraction_func (m_u memento) (m_v memento)
           (performContraction (m_u memento) (m_v memento) st))
  end.

(** The body of [for (hn : current_hns)] once [hn] is known to be enabled and
    has been rated. *)
Definition contract_rated (hn : HypernodeID) (rating : Rating R) (st : St) : St :=
  if negb (target rating =? kInvalidTarget) then
    contraction_func hn (target rating)
      (performContraction hn (target rating)
         (markAsMatched (target rating) (markAsMatched hn st)))
  else st.

(** [for (hn : current_hns)], with its [break]. *)
Fixpoint coarsen_nodes (limit : HypernodeID) (current_hns : list HypernodeID)
  (st : St) : res St :=
  match current_hns with
  | [] => Ok st
  | hn :: rest =>
      if nodeIsEnabled (hg st) hn then
        p <- rate hn (log st (EvRate (hg st) hn)) ;;
        let st2 := contract_rated hn (fst p) (snd p) in
        if currentNumNodes (hg st2) <=? limit then Ok st2
        else coarsen_nodes limit rest st2
      else coarsen_nodes limit rest st
  end.

(** One pass of the [while] loop, up to and including [_end_of_pass_func()]. *)
Definition coarsen_pass (limit : HypernodeID) (st : St) : res St :=
  let st0 := resetMatches st in
  let (current_hns, g) := shuffleVector (nodes (hg st0)) (rng st0) in
  st1 <- coarsen_nodes limit current_hns (set_rng st0 g) ;;
  Ok (end_of_pass_func st1).

(** The [while] loop of [coarsenImpl]; [None] when the fuel runs out.  The
    counter [pass_nr] of the code feeds its debug output only. *)
Fixpoint coarsen_loop (fuel : nat) (limit : HypernodeID) (st : St)
  : option (res St) :=
  match fuel with
  | O => None
  | S fuel' =>
      if limit <? currentNumNodes (hg st) then
        let num_hns_before_pass := currentNumNodes (hg st) in
        match coarsen_pass limit st with
        | AssertionFailed => Some AssertionFailed
        | Ok st' =>
            if num_hns_before_pass =? currentNumNodes (hg st')
            then Some (Ok st')
            else coarsen_loop fuel' limit st'
        end
      else Some (Ok st)
  end.

(** One unit of fuel per live vertex, and one more, is enough (see
    [coarsen_loop_enough_fuel] below). *)
Definition coarsenImpl (limit : HypernodeID) (st : St) : option (res St) :=
  coarsen_loop (S (N.to_nat (currentNumNodes (hg st)))) limit st.

(** ** What the properties below are stated with *)

(** What holds when an event takes place: a rated vertex is enabled; the two
    vertices of a contraction are distinct and enabled, of one partition and
    one community, and their weights have passed the test of the rater
    against the threshold. *)
Definition event_ok (ev : Event) : Prop :=
  match ev with
  | EvRate h u => nodeIsEnabled h u = true
  | EvContract h u v =>
      u <> v /\ nodeIsEnabled h u = true /\ nodeIsEnabled h v = true /\
      partID h u = partID h v /\ comm u = comm v /\
      belowThresholdNodeWeight (nodeWeight h u) (nodeWeight h v) = true
  | _ => True
  end.

(** No pin of an edge incident to an enabled vertex is admissible for it. *)
Definition no_candidate (h : Hypergraph) : Prop :=
  forall u e v, nodeIsEnabled h u = true ->
    In e (incidentEdges h u) -> In v (pins h e) ->
    admissible h u v = false.

(** [rate] cannot fail an assertion on this hypergraph. *)
Definition rate_cannot_fail (h : Hypergraph) : Prop :=
  assertions = false \/
  forall u e, In e (incidentEdges h u) -> 1 < edgeSize h e.

(** The invariant of a coarsening run. *)
Record coarsening_inv (st : St) : Prop := {
  inv_wf : wf (hg st);
  inv_tmp : tmp_ratings st = [];
  inv_events : Forall event_ok (events st);
  inv_disabled : forall ev v,
    In ev (events st) -> contracted_by ev = Some v ->
    nodeIsEnabled (hg st) v = false;
  inv_never : never_again (events st)
}.

(** The score of a hyperedge according to the spec:
    [weight(e) / (|e| - 1)]. *)
Definition spec_edge_score (h : Hypergraph) (e : HyperedgeID) : R :=
  r_div (r_of_weight (edgeWeight h e)) (r_of_uint (edgeSize h e - 1)).

(** The score of [v] according to the spec: the sum, over the hyperedges
    incident to [u] that contain both [u] and [v], of their scores. *)
Definition spec_raw_score (h : Hypergraph) (u v : HypernodeID) : R :=
  fold_left r_add
    (map (spec_edge_score h)
       (filter (fun e => mem u (pins h e) && mem v (pins h e)) (incidentEdges h u)))
    r_zero.

(** The entry of [v] after the edges [es] have been visited, from the entry
    [cur] before. *)
Fixpoint acc_score (h : Hypergraph) (u v : HypernodeID) (es : list HyperedgeID)
  (cur : option R) : option R :=
  match es with
  | [] => cur
  | e :: es' =>
      acc_score h u v es'
        (if admissible h u v && mem v (pins h e)
         then Some (r_add (sm_value cur) (edge_score h e))
         else cur)
  end.

(** The rating built from the outcome of the scan. *)
Definition rating_of (max_rating : R) (tgt : HypernodeID) : Rating R :=
  if r_neb max_rating r_min
  then {| target := tgt; value := max_rating; valid := true |}
  else default_rating.

(** The three assertions at the end of [rate] hold for the outcome of the scan. *)
Definition final_asserts (h : Hypergraph) (u : HypernodeID) (max_rating : R)
  (tgt : HypernodeID) : Prop :=
  r_neb max_rating r_min = true ->
  tgt <> uint_max /\ comm u = comm tgt /\ partID h u = partID h tgt.

(** The acceptance policy decides without the random source. *)
Definition deterministic_policy : Prop :=
  forall tmp max_rating old_target new_target matched (g g' : Rng),
    fst (acceptRating tmp max_rating old_target new_target matched g) =
    fst (acceptRating tmp max_rating old_target new_target matched g').

End Coarsening.

(** Whether a run of [coarsenImpl] has returned normally, and its final
    state, with a default. *)
Definition run_ok {A : Type} (o : option (res A)) : bool :=
  match o with
  | Some m => res_ok m
  | None => false
  end.

Definition run_get {A : Type} (o : option (res A)) (d : A) : A :=
  match o with
  | Some m => res_get m d
  | None => d
  end.

(** A coarsener and its rater as built by their constructors. *)
Definition initial_state {R Rng : Type} (h : Hypergraph) (g : Rng) : State R Rng :=
  {| hg := h; tmp_ratings := []; already_matched := fun _ => false;
     rng := g; history := []; events := [] |}.

(** ** The labels of the rater

    The constructor of [HeavyEdgeRater] fills [_comm] with the outcome of
    [detectCommunities] (kahypar/partition/preprocessing/louvain.h, not among
    the shown files: a parameter here) when community detection is switched
    on, and with zeros otherwise. *)
Definition HeavyEdgeRater_comm (enable_louvain_community_detection : bool)
  (detectCommunities : Hypergraph -> HypernodeID -> ClusterID)
  (h : Hypergraph) : HypernodeID -> ClusterID :=
  if enable_louvain_community_detection
  then detectCommunities h
  else fun _ => 0%Z.

(** ** Readings of the events and of the history *)

(** The pairs contracted, in order. *)
Fixpoint contractions (evs : list Event) : list Memento :=
  match evs with
  | [] => []
  | EvContract _ u v :: later => {| m_u := u; m_v := v |} :: contractions later
  | _ :: later => contractions later
  end.

(** The pairs the contraction callback was called with, in order. *)
Fixpoint contraction_calls (evs : list Event) : list Memento :=
  match evs with
  | [] => []
  | EvContractionFunc u v :: later =>
      {| m_u := u; m_v := v |} :: contraction_calls later
  | _ :: later => contraction_calls later
  end.

(** The vertices rated, in order. *)
Fixpoint rated_vertices (evs : list Event) : list HypernodeID :=
  match evs with
  | [] => []
  | EvRate _ u :: later => u :: rated_vertices later
  | _ :: later => rated_vertices later
  end.

(** Every contraction is followed at once by the call of the contraction
    callback on its pair, and the callback is called at no other moment. *)
Fixpoint callbacks_follow (evs : list Event) : Prop :=
  match evs with
  | [] => True
  | EvContract _ u v :: later =>
      match later with
      | EvContractionFunc u' v' :: later' =>
          u' = u /\ v' = v /\ callbacks_follow later'
      | _ => False
      end
  | EvContractionFunc _ _ :: _ => False
  | _ :: later => callbacks_follow later
  end.

(** Every contraction comes right after the rating of its representative,
    in the hypergraph the rating was made in; [prev] is the event before
    [evs]. *)
Fixpoint rated_before (prev : option Event) (evs : list Event) : Prop :=
  match evs with
  | [] => True
  | ev :: later =>
      match ev with
      | EvContract h u _ => prev = Some (EvRate h u)
      | _ => True
      end /\ rated_before (Some ev) later
  end.

(** [x] is one of the two vertices of a record of [ms]. *)
Definition in_records (ms : list Memento) (x : HypernodeID) : Prop :=
  exists m, In m ms /\ (m_u m = x \/ m_v m = x).

(** [l] is [l'] with some of its elements left out. *)
Inductive subsequence {A : Type} : list A -> list A -> Prop :=
| subsequence_nil : forall l', subsequence [] l'
| subsequence_keep : forall x l l',
    subsequence l l' -> subsequence (x :: l) (x :: l')
| subsequence_skip : forall x l l',
    subsequence l l' -> subsequence l (x :: l').

(** ** Instances *)

(** [double]: the rating type of the repository.  The conversions are exact
    on the integers of the code, which have at most 32 bits. *)
Module DoubleRating.
Local Open Scope float_scope.

Fixpoint of_pos (p : positive) : float :=
  match p with
  | xH => 1
  | xO q => 2 * of_pos q
  | xI q => 2 * of_pos q + 1
  end.

Definition of_Z (z : Z) : float :=
  match z with
  | Z0 => 0
  | Zpos p => of_pos p
  | Zneg p => - of_pos p
  end.

Definition of_N (n : N) : float :=
  match n with
  | N0 => 0
  | Npos p => of_pos p
  end.

(** [std::numeric_limits<double>::min()], the least positive normal double. *)
Definition dbl_min : float := 0x1p-1022.
End DoubleRating.

#[export] Instance double_rating : RatingOps float := {
  r_zero := 0%float;
  r_min := DoubleRating.dbl_min;
  r_add := PrimFloat.add;
  r_div := PrimFloat.div;
  r_ltb := PrimFloat.ltb;
  r_eqb := PrimFloat.eqb;
  r_of_weight := DoubleRating.of_Z;
  r_of_uint := DoubleRating.of_N;
  r_eqb_min := eq_refl
}.

(** Modelled from the spec: the multiplicative penalty, the product of the two
    weights. *)
Definition MultiplicativePenalty {R} `{RatingOps R} : NodeWeightPenalty R := {|
  penalty := fun weight_u weight_v => r_of_weight (weight_u * weight_v)
|}.

(** Modelled from the spec: the policy without a penalty. *)
Definition NoWeightPenalty {R} `{RatingOps R} : NodeWeightPenalty R := {|
  penalty := fun _ _ => r_of_weight 1
|}.

(** Modelled from the spec: the tie-breaking policies, which say whether a
    candidate rated as the best so far replaces it: never, always, or on the
    flip of a coin. *)
Class TieBreakingPolicy (Rng : Type) : Type := {
  acceptEqual : Rng -> bool * Rng
}.

Definition FirstRatingWins {Rng} : TieBreakingPolicy Rng :=
  {| acceptEqual := fun g => (false, g) |}.

Definition LastRatingWins {Rng} : TieBreakingPolicy Rng :=
  {| acceptEqual := fun g => (true, g) |}.

Definition RandomRatingWins {Rng} `{Randomize Rng} : TieBreakingPolicy Rng :=
  {| acceptEqual := flipCoin |}.

(** Modelled from the spec: the default acceptance policy of the rater: a
    better rating wins, an equal one is left to the tie-breaking policy. *)
Definition BestRatingWithRandomTieBreaking {R Rng} `{RatingOps R}
  (T : TieBreakingPolicy Rng) : AcceptancePolicy R Rng := {|
  acceptRating := fun tmp max_rating _ _ _ g =>
    if r_ltb max_rating tmp then (true, g)
    else if r_eqb max_rating tmp then acceptEqual g
    else (false, g)
|}.

(** Modelled from the spec: the acceptance policy that breaks ties in favour
    of candidates not yet matched in this pass. *)
Definition BestRatingPreferringUnmatched {R Rng} `{RatingOps R}
  (T : TieBreakingPolicy Rng) : AcceptancePolicy R Rng := {|
  acceptRating := fun tmp max_rating old_target new_target already_matched g =>
    if r_ltb max_rating tmp then (true, g)
    else if r_eqb max_rating tmp then
      if already_matched old_target && negb (already_matched new_target)
      then (true, g)
      else if Bool.eqb (already_matched old_target) (already_matched new_target)
           then acceptEqual g
           else (false, g)
    else (false, g)
|}.

(** Modelled from the spec: a seedable random source, here a linear
    congruential generator; the shuffle draws the next element of the result
    among those left. *)
Module Lcg.
Definition next (g : N) : N := (g * 1103515245 + 12345) mod 2147483648.

Definition flip (g : N) : bool * N := (N.odd (next g / 65536), next g).

Fixpoint remove_nth (i : nat) (l : list HypernodeID) : list HypernodeID :=
  match l, i with
  | [], _ => []
  | _ :: l', O => l'
  | x :: l', S j => x :: remove_nth j l'
  end.

Fixpoint shuffle_fuel (fuel : nat) (l : list HypernodeID) (g : N)
  : list HypernodeID * N :=
  match fuel with
  | O => (l, g)
  | S fuel' =>
      match l with
      | [] => ([], g)
      | x :: _ =>
          let g' := next g in
          let i := N.to_nat ((g' / 65536) mod N.of_nat (length l)) in
          let (rest, g'') := shuffle_fuel fuel' (remove_nth i l) g' in
          (nth i l x :: rest, g'')
      end
  end.

Definition shuffle (l : list HypernodeID) (g : N) : list HypernodeID * N :=
  shuffle_fuel (length l) l g.
End Lcg.

#[export] Instance lcg_randomize : Randomize N := {
  flipCoin := Lcg.flip;
  shuffleVector := Lcg.shuffle
}.


(** ** Example inputs *)

Module Examples.
Local Open Scope Z_scope.

(** Identifiers and weights of 32 bits. *)
#[export] Instance uint32 : IdWidth := {| id_bits := 32 |}.

#[export] Instance int32 : WeightWidth :=
  {| weight_bits := 32; weight_bits_min := proj1 (N.leb_le 8 32) eq_refl |}.

(** No community detection: every vertex in community 0. *)
Definition one_community : HypernodeID -> ClusterID := fun _ => 0.

(** Before the initial partitioning every vertex is in the same part. *)
Definition unpartitioned : HypernodeID -> PartitionID := fun _ => -1.

(** Four vertices of weight 1 on one hyperedge of weight 6. *)
Definition four_on_one_edge : Hypergraph :=
  make_hypergraph [1; 1; 1; 1] unpartitioned [(6, [0; 1; 2; 3]%N)].

(** Two vertices of weight 1 on one hyperedge. *)
Definition two_unit_vertices : Hypergraph :=
  make_hypergraph [1; 1] unpartitioned [(1, [0; 1]%N)].

(** Vertex 0 on a hyperedge of its own and on one shared with vertex 1. *)
Definition with_single_pin_edge : Hypergraph :=
  make_hypergraph [1; 1] unpartitioned [(3, [0%N]); (2, [0; 1]%N)].

(** Vertex 0 tied to vertices 1 and 2 by two hyperedges of the same weight. *)
Definition two_equal_neighbours : Hypergraph :=
  make_hypergraph [1; 1; 1] unpartitioned [(1, [0; 1]%N); (1, [0; 2]%N)].

(** Vertex 0 of the greatest weight of 32 bits and vertex 1 of weight 1, on
    one hyperedge: the sum of the two weights overflows. *)
Definition with_greatest_weight : Hypergraph :=
  make_hypergraph [2147483647; 1] unpartitioned [(1, [0; 1]%N)].

(** Vertex 0 in a community of its own. *)
Definition vertex_0_apart : HypernodeID -> ClusterID :=
  fun v => if (v =? 0)%N then 0 else 1.

(** The rater with its default policies, ties broken by the coin, on
    [double] ratings and the seeded random source; the coarsener and the
    replay likewise. *)
Abbreviation default_rate :=
  (rate (R:=float) (Rng:=N) (NP:=MultiplicativePenalty)
        (AP:=BestRatingWithRandomTieBreaking RandomRatingWins)).

(** The rater with ties left to the first candidate rated best. *)
Abbreviation first_rate :=
  (rate (R:=float) (Rng:=N) (NP:=MultiplicativePenalty)
        (AP:=BestRatingWithRandomTieBreaking FirstRatingWins)).

Abbreviation default_coarsen :=
  (coarsenImpl (R:=float) (Rng:=N) (NP:=NoWeightPenalty)
               (AP:=BestRatingPreferringUnmatched RandomRatingWins)).

Abbreviation default_simulate :=
  (simulateContractions (R:=float) (Rng:=N)).

Abbreviation default_pass :=
  (coarsen_pass (R:=float) (Rng:=N) (NP:=NoWeightPenalty)
                (AP:=BestRatingPreferringUnmatched RandomRatingWins)).

(** The states the examples start from, and the outcome of a call of the
    rater or of a run of the coarsener from them. *)
Abbreviation start h seed := (initial_state (R:=float) (Rng:=N) h seed).

Abbreviation rated threshold assertions u st :=
  (res_get (default_rate threshold one_community assertions u st)
           (default_rating, st)).

Abbreviation coarsened threshold assertions limit st :=
  (run_get (default_coarsen threshold one_community assertions limit st) st).
End Examples.
(** ** Lists of identifiers *)

Lemma mem_In (x : N) (l : list N) : mem x l = true <-> In x l.
Proof.
  unfold mem. rewrite existsb_exists. split.
  - intros (y & Hy & E). apply N.eqb_eq in E. now subst.
  - intros Hx. exists x. split; [assumption | apply N.eqb_refl].
Qed.

Lemma mem_false (x : N) (l : list N) : mem x l = false <-> ~ In x l.
Proof.
  rewrite <- mem_In. destruct (mem x l); split; congruence.
Qed.

Lemma nodupb_NoDup (l : list N) : nodupb l = true -> NoDup l.
Proof.
  induction l as [|x l IH]; simpl; intros Hl; constructor.
  - apply andb_prop in Hl. destruct Hl as [Hx _].
    apply negb_true_iff, mem_false in Hx. exact Hx.
  - apply IH. now apply andb_prop in Hl.
Qed.

Lemma all_ids_In (n v : N) : In v (all_ids n) <-> v < n.
Proof.
  unfold all_ids. rewrite in_map_iff. split.
  - intros (k & <- & Hk). apply in_seq in Hk. lia.
  - intros Hv. exists (N.to_nat v). split; [apply N2Nat.id | apply in_seq; lia].
Qed.

Lemma all_ids_NoDup (n : N) : NoDup (all_ids n).
Proof.
  unfold all_ids. generalize (seq_NoDup (N.to_nat n) 0).
  induction (seq 0 (N.to_nat n)) as [|k l IH]; simpl; intros Hnd.
  - constructor.
  - inversion Hnd as [|? ? Hk Hl]; subst. constructor.
    + rewrite in_map_iff. intros (j & Hj & Hin).
      apply Nat2N.inj in Hj. now subst.
    + now apply IH.
Qed.

Lemma nodes_In (h : Hypergraph) (v : HypernodeID) :
  In v (nodes h) <-> nodeIsEnabled h v = true /\ v < initialNumNodes h.
Proof.
  unfold nodes. rewrite filter_In, all_ids_In. tauto.
Qed.

(** Switching one flag off removes at most one element of a filtered list
    without repetition, and exactly one when the flag was on. *)
Lemma filter_off_length (f : N -> bool) (v : N) (l : list N) :
  NoDup l ->
  (length (filter (fun x => if N.eqb x v then false else f x) l)
   + (if f v && mem v l then 1 else 0)
   = length (filter f l))%nat.
Proof.
  induction l as [|x l IH]; intros Hnd.
  - simpl. now rewrite andb_false_r.
  - inversion Hnd as [|? ? Hx Hl]; subst. specialize (IH Hl).
    cbn [filter mem existsb]. fold (mem v l).
    destruct (N.eqb_spec x v) as [->|Hne].
    + rewrite N.eqb_refl. cbn [orb].
      apply mem_false in Hx. rewrite Hx, andb_false_r in IH.
      rewrite andb_true_r. destruct (f v); simpl in *; lia.
    + assert (E : (v =? x) = false) by (apply N.eqb_neq; congruence).
      rewrite E. cbn [orb]. destruct (f x); simpl; lia.
Qed.

(** ** The seeded shuffle *)

Lemma remove_nth_permutation (i : nat) (l : list HypernodeID) (d : HypernodeID) :
  (i < length l)%nat -> Permutation (nth i l d :: Lcg.remove_nth i l) l.
Proof.
  revert i. induction l as [|x l IH]; intros i Hi; simpl in Hi; [lia|].
  destruct i as [|i]; simpl.
  - reflexivity.
  - rewrite perm_swap. constructor. apply IH. lia.
Qed.

Lemma remove_nth_length (i : nat) (l : list HypernodeID) :
  (i < length l)%nat -> length l = S (length (Lcg.remove_nth i l)).
Proof.
  revert i. induction l as [|x l IH]; intros i Hi; simpl in Hi; [lia|].
  destruct i as [|i]; simpl; [reflexivity|]. f_equal. apply IH. lia.
Qed.

(** The shuffle of the seeded random source returns its input in another
    order. *)
Lemma lcg_shuffle_permutation (l : list HypernodeID) (g : N) :
  Permutation (fst (Lcg.shuffle l g)) l.
Proof.
  unfold Lcg.shuffle. remember (length l) as n eqn:Hn.
  revert l g Hn. induction n as [|n IH]; intros l g Hn.
  - destruct l; [reflexivity | discriminate].
  - destruct l as [|x l']; [discriminate|].
    cbn [Lcg.shuffle_fuel].
    remember (x :: l') as l eqn:Hl.
    remember (N.to_nat ((Lcg.next g / 65536) mod N.of_nat (length l))) as i eqn:Ei.
    assert (Hi : (i < length l)%nat).
    { assert (Hpos : N.of_nat (length l) <> 0) by (subst l; simpl; lia).
      pose proof (N.mod_upper_bound (Lcg.next g / 65536) _ Hpos). lia. }
    pose proof (@remove_nth_length i l Hi) as Hlen.
    specialize (IH (Lcg.remove_nth i l) (Lcg.next g)).
    destruct (Lcg.shuffle_fuel n (Lcg.remove_nth i l) (Lcg.next g)) as [rest g'].
    cbn [fst] in *. rewrite IH by lia.
    now apply remove_nth_permutation.
Qed.

(** ** The hypergraph under contraction *)

Section Contraction.

Context `{W : IdWidth} `{WW : WeightWidth}.

Lemma currentNumNodes_contract_exact (h : Hypergraph) (u v : HypernodeID) :
  currentNumNodes (contract h u v)
  + (if nodeIsEnabled h v && (v <? initialNumNodes h) then 1 else 0)
  = currentNumNodes h.
Proof.
  unfold currentNumNodes, nodes. cbn [contract nodeIsEnabled initialNumNodes].
  pose proof (filter_off_length (nodeIsEnabled h) v
                (all_ids_NoDup (initialNumNodes h))) as E.
  assert (M : mem v (all_ids (initialNumNodes h)) = (v <? initialNumNodes h)).
  { destruct (N.ltb_spec v (initialNumNodes h)) as [Hlt|Hge].
    - apply mem_In, all_ids_In, Hlt.
    - apply mem_false. rewrite all_ids_In. lia. }
  rewrite M in E. unfold HypernodeID in *.
  destruct (nodeIsEnabled h v && (v <? initialNumNodes h)); lia.
Qed.

Lemma currentNumNodes_contract_le (h : Hypergraph) (u v : HypernodeID) :
  currentNumNodes (contract h u v) <= currentNumNodes h.
Proof.
  pose proof (currentNumNodes_contract_exact h u v) as E.
  destruct (nodeIsEnabled h v && (v <? initialNumNodes h)); lia.
Qed.

Lemma currentNumNodes_contract (h : Hypergraph) (u v : HypernodeID) :
  wf h -> nodeIsEnabled h v = true ->
  currentNumNodes (contract h u v) + 1 = currentNumNodes h.
Proof.
  intros Hwf Hv. pose proof (currentNumNodes_contract_exact h u v) as E.
  apply (wf_enabled Hwf) in Hv as Hlt. apply N.ltb_lt in Hlt.
  now rewrite Hv, Hlt in E.
Qed.

Lemma remove_pin_In (v x : HypernodeID) (l : list HypernodeID) :
  In x (remove_pin v l) <-> In x l /\ x <> v.
Proof.
  unfold remove_pin. rewrite filter_In, negb_true_iff, N.eqb_neq. tauto.
Qed.

Lemma replace_pin_In (v u x : HypernodeID) (l : list HypernodeID) :
  In x (replace_pin v u l) <-> (In x l /\ x <> v) \/ (x = u /\ In v l).
Proof.
  unfold replace_pin. rewrite in_map_iff. split.
  - intros (y & Hy & Hin). destruct (N.eqb_spec y v) as [E|Hne].
    + right. subst. tauto.
    + left. subst. tauto.
  - intros [[Hin Hne] | [-> Hin]].
    + exists x. apply N.eqb_neq in Hne. now rewrite Hne.
    + exists v. now rewrite N.eqb_refl.
Qed.

Lemma replace_pin_NoDup (v u : HypernodeID) (l : list HypernodeID) :
  ~ In u l -> NoDup l -> NoDup (replace_pin v u l).
Proof.
  intros Hu Hnd. induction Hnd as [|x l Hx Hl IH]; simpl.
  - constructor.
  - constructor.
    + rewrite replace_pin_In. intros [[Hin Hne] | [E Hin]].
      * destruct (N.eqb_spec x v) as [->|Hxv].
        -- subst. apply Hu. now right.
        -- contradiction.
      * destruct (N.eqb_spec x v) as [->|Hxv].
        -- contradiction.
        -- apply Hu. left. congruence.
    + apply IH. intros Hin. apply Hu. now right.
Qed.

(** The pins of an edge after [contract]: [v] is gone, [u] may have come. *)
Lemma pins_contract_In (h : Hypergraph) (u v : HypernodeID) (e : HyperedgeID)
  (x : HypernodeID) :
  wf h ->
  In x (pins (contract h u v) e) <->
  (In x (pins h e) /\ x <> v) \/ (x = u /\ In v (pins h e) /\ u <> v).
Proof.
  intros Hwf. cbn [contract pins].
  destruct (mem e (incidentEdges h v)) eqn:Me.
  - destruct (mem u (pins h e)) eqn:Mu.
    + rewrite remove_pin_In. apply mem_In in Mu. split; [tauto|].
      intros [H|(-> & _ & Hne)]; tauto.
    + rewrite replace_pin_In. apply mem_false in Mu. split.
      * intros [H|[-> Hin]]; [tauto|]. right. repeat split; try assumption.
        intros ->. contradiction.
      * intros [H|(-> & Hin & _)]; tauto.
  - apply mem_false in Me. split.
    + intros Hin. left. split; [assumption|]. intros ->.
      apply Me, (wf_pins_incident Hwf), Hin.
    + intros [[Hin _]|(_ & Hin & _)]; [assumption|].
      exfalso. apply Me, (wf_pins_incident Hwf), Hin.
Qed.

(** Well-formedness is kept by the contraction of two distinct enabled
    vertices. *)
Lemma wf_contract (h : Hypergraph) (u v : HypernodeID) :
  wf h -> nodeIsEnabled h u = true -> nodeIsEnabled h v = true -> u <> v ->
  wf (contract h u v).
Proof.
  intros Hwf Hu Hv Huv. constructor.
  - exact (wf_num_nodes Hwf).
  - intros x. cbn [contract nodeIsEnabled initialNumNodes].
    destruct (x =? v); [discriminate | apply (wf_enabled Hwf)].
  - intros e x Hx. apply (pins_contract_In _ _ _ _ Hwf) in Hx.
    cbn [contract nodeIsEnabled].
    destruct Hx as [[Hin Hne]|(-> & _ & _)].
    + apply N.eqb_neq in Hne. rewrite Hne. apply (wf_pins_enabled Hwf _ _ Hin).
    + apply N.eqb_neq in Huv. now rewrite Huv.
  - intros e x Hx. apply (pins_contract_In _ _ _ _ Hwf) in Hx.
    cbn [contract incidentEdges].
    destruct Hx as [[Hin Hne]|(-> & Hin & _)].
    + destruct (N.eqb_spec x u) as [->|_].
      * apply in_or_app. left. apply (wf_pins_incident Hwf _ _ Hin).
      * apply (wf_pins_incident Hwf _ _ Hin).
    + rewrite N.eqb_refl. apply in_or_app.
      destruct (mem u (pins h e)) eqn:Mu.
      * left. apply (wf_pins_incident Hwf). now apply mem_In.
      * right. apply filter_In. split.
        -- apply (wf_pins_incident Hwf _ _ Hin).
        -- now rewrite Mu.
  - intros x e. cbn [contract nodeIsEnabled incidentEdges].
    destruct (N.eqb_spec x v) as [->|Hxv]; [discriminate|].
    intros Hx He. apply (pins_contract_In _ _ _ _ Hwf).
    destruct (N.eqb_spec x u) as [->|Hxu].
    + apply in_app_or in He. destruct He as [He|He].
      * left. split; [apply (wf_incident_pins Hwf _ _ Hu He) | assumption].
      * apply filter_In in He. destruct He as [He _]. right.
        repeat split; try assumption. apply (wf_incident_pins Hwf _ _ Hv He).
    + left. split; [apply (wf_incident_pins Hwf _ _ Hx He) | assumption].
  - intros e. cbn [contract pins].
    destruct (mem e (incidentEdges h v)).
    + destruct (mem u (pins h e)) eqn:Mu.
      * apply NoDup_filter, (wf_pins_nodup Hwf).
      * apply replace_pin_NoDup; [now apply mem_false | apply (wf_pins_nodup Hwf)].
    + apply (wf_pins_nodup Hwf).
Qed.

(** A hyperedge has at most as many pins as there are vertex ids. *)
Lemma wf_edgeSize (h : Hypergraph) (e : HyperedgeID) :
  wf h -> edgeSize h e <= uint_max.
Proof.
  intros Hwf. apply N.le_trans with (m := initialNumNodes h);
    [|exact (wf_num_nodes Hwf)].
  assert (Hlen : (length (pins h e) <= length (all_ids (initialNumNodes h)))%nat).
  { apply NoDup_incl_length; [apply (wf_pins_nodup Hwf)|].
    intros v Hv. apply all_ids_In, (wf_enabled Hwf), (wf_pins_enabled Hwf _ _ Hv). }
  unfold all_ids in Hlen. rewrite length_map, length_seq in Hlen.
  unfold edgeSize. lia.
Qed.

(** A hypergraph built by the constructor from checked input is well-formed. *)
Lemma wf_make_hypergraph (hn_weights : list HypernodeWeight)
  (part : HypernodeID -> PartitionID)
  (edges : list (HyperedgeWeight * list HypernodeID)) :
  N.of_nat (length hn_weights) <= uint_max ->
  edges_ok (N.of_nat (length hn_weights)) edges = true ->
  wf (make_hypergraph hn_weights part edges).
Proof.
  intros Hn Hok.
  assert (Hpins : forall e,
    Forall (fun v => v < N.of_nat (length hn_weights))
           (snd (nth (N.to_nat e) edges (0%Z, [])))
    /\ NoDup (snd (nth (N.to_nat e) edges (0%Z, [])))).
  { intros e. unfold edges_ok in Hok. rewrite forallb_forall in Hok.
    destruct (Nat.lt_ge_cases (N.to_nat e) (length edges)) as [Hlt|Hge].
    - specialize (Hok _ (nth_In edges (0%Z, []) Hlt)).
      apply andb_prop in Hok. destruct Hok as [Hr Hd]. split.
      + apply Forall_forall. intros v Hv. rewrite forallb_forall in Hr.
        apply N.ltb_lt, Hr, Hv.
      + now apply nodupb_NoDup.
    - rewrite nth_overflow by assumption. simpl. split; constructor. }
  constructor; cbn [make_hypergraph initialNumNodes nodeIsEnabled pins incidentEdges].
  - exact Hn.
  - intros v. apply N.ltb_lt.
  - intros e v Hv. destruct (Hpins e) as [Hr _].
    rewrite Forall_forall in Hr. apply N.ltb_lt, Hr, Hv.
  - intros e v Hv. apply filter_In. split.
    + apply all_ids_In.
      destruct (Nat.lt_ge_cases (N.to_nat e) (length edges)) as [Hlt|Hge]; [lia|].
      rewrite nth_overflow in Hv by assumption. destruct Hv.
    + now apply mem_In.
  - intros u e _ He. apply filter_In in He. now apply mem_In.
  - intros e. apply (Hpins e).
Qed.

End Contraction.

(** ** The score accumulator *)

Section Accumulator.

Context {R : Type} `{RO : RatingOps R}.

Lemma sm_add_keys (m : SparseMap R) (k : HypernodeID) (s : R) (x : HypernodeID) :
  In x (sm_keys (sm_add m k s)) <-> x = k \/ In x (sm_keys m).
Proof.
  induction m as [|[k' y] m IH]; simpl.
  - intuition congruence.
  - destruct (N.eqb_spec k' k) as [->|Hne]; simpl.
    + intuition congruence.
    + rewrite IH. intuition congruence.
Qed.

Lemma sm_add_keys_NoDup (m : SparseMap R) (k : HypernodeID) (s : R) :
  NoDup (sm_keys m) -> NoDup (sm_keys (sm_add m k s)).
Proof.
  induction m as [|[k' y] m IH]; simpl; intros Hnd.
  - constructor; [intros [] | constructor].
  - inversion Hnd as [|? ? Hk Hm]; subst.
    destruct (N.eqb_spec k' k) as [->|Hne]; simpl.
    + now constructor.
    + constructor; [|now apply IH].
      change (~ In k' (sm_keys (sm_add m k s))).
      rewrite sm_add_keys. intros [E|Hin]; [congruence | contradiction].
Qed.

Lemma sm_get_add (m : SparseMap R) (k : HypernodeID) (s : R) (k' : HypernodeID) :
  sm_get (sm_add m k s) k' =
  if k =? k' then Some (r_add (sm_value (sm_get m k)) s) else sm_get m k'.
Proof.
  induction m as [|[k0 y] m IH]; simpl.
  - reflexivity.
  - destruct (N.eqb_spec k0 k) as [->|Hne]; simpl.
    + rewrite N.eqb_sym. destruct (k' =? k); reflexivity.
    + rewrite IH. destruct (N.eqb_spec k k') as [->|Hkk'].
      * apply N.eqb_neq in Hne. now rewrite Hne.
      * reflexivity.
Qed.

Lemma sm_get_In (m : SparseMap R) (k : HypernodeID) (x : R) :
  NoDup (sm_keys m) -> In (k, x) m -> sm_get m k = Some x.
Proof.
  induction m as [|[k0 y] m IH]; simpl; intros Hnd Hin; [destruct Hin|].
  inversion Hnd as [|? ? Hk Hm]; subst. destruct Hin as [E|Hin].
  - inversion E; subst. now rewrite N.eqb_refl.
  - destruct (N.eqb_spec k0 k) as [->|Hne]; [|now apply IH].
    exfalso. apply Hk. change (In (fst (k, x)) (map fst m)). now apply in_map.
Qed.

Lemma sm_get_None (m : SparseMap R) (k : HypernodeID) :
  sm_get m k = None <-> ~ In k (sm_keys m).
Proof.
  induction m as [|[k0 y] m IH]; simpl.
  - tauto.
  - destruct (N.eqb_spec k0 k) as [->|Hne].
    + split; [discriminate | intros Hn; exfalso; apply Hn; now left].
    + rewrite IH. tauto.
Qed.

End Accumulator.

(** ** The rater: accumulation of the scores *)

Section RaterAccumulation.

Context `{W : IdWidth} `{WW : WeightWidth} {R : Type} `{RO : RatingOps R}.
Variable max_allowed_node_weight : HypernodeWeight.
Variable assertions : bool.

(** The operations at the parameters of the section. *)
Abbreviation admissible' := (admissible max_allowed_node_weight).
Abbreviation rate_pins' := (rate_pins max_allowed_node_weight).
Abbreviation rate_edges' := (rate_edges max_allowed_node_weight assertions).

Lemma rate_pins_keys (h : Hypergraph) (u : HypernodeID) (s : R)
  (ps : list HypernodeID) (tmp : SparseMap R) (k : HypernodeID) :
  In k (sm_keys (rate_pins' h u s ps tmp)) <->
  In k (sm_keys tmp) \/ (In k ps /\ admissible' h u k = true).
Proof.
  revert tmp. induction ps as [|v ps IH]; intros tmp; simpl.
  - tauto.
  - rewrite IH. destruct (admissible' h u v) eqn:A.
    + rewrite sm_add_keys. split.
      * intros [[->|Hin]|[Hin Hk]]; auto.
      * intros [Hin|[[->|Hin] Hk]]; auto.
    + split.
      * intros [Hin|[Hin Hk]]; auto.
      * intros [Hin|[[->|Hin] Hk]]; auto. congruence.
Qed.

Lemma rate_pins_NoDup (h : Hypergraph) (u : HypernodeID) (s : R)
  (ps : list HypernodeID) (tmp : SparseMap R) :
  NoDup (sm_keys tmp) -> NoDup (sm_keys (rate_pins' h u s ps tmp)).
Proof.
  revert tmp. induction ps as [|v ps IH]; intros tmp Hnd; simpl.
  - exact Hnd.
  - apply IH. destruct (admissible' h u v); [now apply sm_add_keys_NoDup | exact Hnd].
Qed.

Lemma rate_pins_get (h : Hypergraph) (u : HypernodeID) (s : R)
  (ps : list HypernodeID) (tmp : SparseMap R) (v : HypernodeID) :
  NoDup ps ->
  sm_get (rate_pins' h u s ps tmp) v =
  if admissible' h u v && mem v ps
  then Some (r_add (sm_value (sm_get tmp v)) s)
  else sm_get tmp v.
Proof.
  intros Hnd. revert tmp. induction Hnd as [|x ps Hx Hps IH]; intros tmp.
  - simpl. now rewrite andb_false_r.
  - cbn [rate_pins mem existsb]. fold (mem v ps). rewrite IH.
    destruct (N.eqb_spec v x) as [->|Hne]; cbn [orb].
    + apply mem_false in Hx. rewrite Hx, andb_false_r, andb_true_r.
      destruct (admissible' h u x); [|reflexivity].
      now rewrite sm_get_add, N.eqb_refl.
    + assert (E : sm_get (if admissible' h u x then sm_add tmp x s else tmp) v
                  = sm_get tmp v).
      { destruct (admissible' h u x); [|reflexivity]. rewrite sm_get_add.
        destruct (N.eqb_spec x v); [congruence | reflexivity]. }
      now rewrite E.
Qed.

(** The edge loop fails exactly when assertions are checked and some visited
    edge has at most one pin. *)
Lemma rate_edges_fails (h : Hypergraph) (u : HypernodeID)
  (es : list HyperedgeID) (tmp : SparseMap R) :
  rate_edges' h u es tmp = AssertionFailed <->
  assertions = true /\ exists e, In e es /\ edgeSize h e <= 1.
Proof.
  revert tmp. induction es as [|e es IH]; intros tmp; simpl.
  - split; [discriminate | intros (_ & e & [] & _)].
  - unfold ASSERT. destruct assertions; simpl.
    + destruct (N.ltb_spec 1 (edgeSize h e)) as [Hlt|Hge]; simpl.
      * rewrite IH. split.
        -- intros (_ & e' & Hin & Hle). eauto.
        -- intros (_ & e' & [->|Hin] & Hle); [lia | eauto].
      * split; [|reflexivity]. intros _. eauto.
    + rewrite IH. split; intros (Hf & _); discriminate.
Qed.

Lemma rate_edges_keys (h : Hypergraph) (u : HypernodeID)
  (es : list HyperedgeID) (tmp tmp' : SparseMap R) (k : HypernodeID) :
  rate_edges' h u es tmp = Ok tmp' ->
  In k (sm_keys tmp') <->
  In k (sm_keys tmp) \/
  (exists e, In e es /\ In k (pins h e) /\ admissible' h u k = true).
Proof.
  revert tmp. induction es as [|e es IH]; intros tmp; simpl.
  - intros E. inversion E; subst. split; [tauto|].
    intros [Hin|(e & [] & _)]. exact Hin.
  - destruct (ASSERT assertions (1 <? edgeSize h e)); simpl; [|discriminate].
    intros E. rewrite (IH _ E), rate_pins_keys. split.
    + intros [[Hin|Hk]|(e' & Hin & Hk)].
      * now left.
      * right. exists e. tauto.
      * right. exists e'. tauto.
    + intros [Hin|(e' & [E'|Hin] & Hk)].
      * now left; left.
      * subst e'. left. now right.
      * right. exists e'. tauto.
Qed.

Lemma rate_edges_NoDup (h : Hypergraph) (u : HypernodeID)
  (es : list HyperedgeID) (tmp tmp' : SparseMap R) :
  rate_edges' h u es tmp = Ok tmp' ->
  NoDup (sm_keys tmp) -> NoDup (sm_keys tmp').
Proof.
  revert tmp. induction es as [|e es IH]; intros tmp; simpl.
  - intros E. now inversion E.
  - destruct (ASSERT assertions (1 <? edgeSize h e)); simpl; [|discriminate].
    intros E Hnd. apply (IH _ E). now apply rate_pins_NoDup.
Qed.

Lemma rate_edges_get (h : Hypergraph) (u : HypernodeID)
  (es : list HyperedgeID) (tmp tmp' : SparseMap R) (v : HypernodeID) :
  (forall e, In e es -> NoDup (pins h e)) ->
  rate_edges' h u es tmp = Ok tmp' ->
  sm_get tmp' v = acc_score max_allowed_node_weight h u v es (sm_get tmp v).
Proof.
  revert tmp. induction es as [|e es IH]; intros tmp Hnd; simpl.
  - intros E. now inversion E.
  - destruct (ASSERT assertions (1 <? edgeSize h e)); simpl; [|discriminate].
    intros E. rewrite (IH _ (fun e' H => Hnd e' (or_intror H)) E).
    rewrite rate_pins_get by (apply Hnd; now left). reflexivity.
Qed.

Lemma acc_score_inadmissible (h : Hypergraph) (u v : HypernodeID)
  (es : list HyperedgeID) (cur : option R) :
  admissible' h u v = false -> acc_score max_allowed_node_weight h u v es cur = cur.
Proof.
  intros A. revert cur. induction es as [|e es IH]; intros cur; simpl.
  - reflexivity.
  - rewrite A. simpl. apply IH.
Qed.

Lemma filter_none (A : Type) (f : A -> bool) (l : list A) :
  existsb f l = false -> filter f l = [].
Proof.
  induction l as [|x l IH]; simpl; [reflexivity|].
  destruct (f x); simpl; [discriminate | exact IH].
Qed.

Lemma acc_score_sum (h : Hypergraph) (u v : HypernodeID)
  (es : list HyperedgeID) (cur : option R) :
  admissible' h u v = true ->
  acc_score max_allowed_node_weight h u v es cur =
  if existsb (fun e => mem v (pins h e)) es
  then Some (fold_left r_add
               (map (edge_score h) (filter (fun e => mem v (pins h e)) es))
               (sm_value cur))
  else cur.
Proof.
  intros A. revert cur. induction es as [|e es IH]; intros cur; simpl.
  - reflexivity.
  - rewrite A, IH. simpl. destruct (mem v (pins h e)); simpl.
    + destruct (existsb (fun e0 => mem v (pins h e0)) es) eqn:Ex.
      * reflexivity.
      * now rewrite (filter_none _ _ Ex).
    + reflexivity.
Qed.

End RaterAccumulation.

(** ** The rater: selection of the target *)

Section RaterSelection.

Context `{W : IdWidth} `{WW : WeightWidth} {R Rng : Type}.
Context `{RO : RatingOps R} `{NP : NodeWeightPenalty R}.
Context `{AP : AcceptancePolicy R Rng}.
Variable max_allowed_node_weight : HypernodeWeight.
Variable comm : HypernodeID -> ClusterID.
Variable assertions : bool.

(** The operations at the parameters of the section. *)
Abbreviation admissible' := (admissible max_allowed_node_weight).
Abbreviation rate_edges' := (rate_edges max_allowed_node_weight assertions).
Abbreviation rate_select' := (rate_select comm).
Abbreviation rate' := (rate max_allowed_node_weight comm assertions).

Lemma rate_select_inv (h : Hypergraph) (u : HypernodeID) (matched : FlagArray)
  (entries : list (HypernodeID * R)) (mr : R) (t : HypernodeID) (g : Rng)
  (mr' : R) (t' : HypernodeID) (g' : Rng) :
  rate_select' h u matched entries mr t g = (mr', t', g') ->
  (mr' = mr /\ t' = t) \/
  (exists x, In (t', x) entries /\ comm u = comm t' /\
             mr' = r_div x (penalty (nodeWeight h u) (nodeWeight h t'))).
Proof.
  revert mr t g. induction entries as [|[k x] rest IH]; intros mr t g; simpl.
  - intros E. inversion E. now left.
  - destruct (Z.eqb_spec (comm u) (comm k)) as [Hc|Hc].
    + destruct (acceptRating _ mr t k matched g) as [[|] g1]; intros E;
        apply IH in E; destruct E as [[-> ->]|(y & Hin & Hy)].
      * right. exists x. split; [now left | split; [assumption | reflexivity]].
      * right. exists y. split; [now right | assumption].
      * now left.
      * right. exists y. split; [now right | assumption].
    + intros E. apply IH in E. destruct E as [E|(y & Hin & Hy)].
      * now left.
      * right. exists y. split; [now right | assumption].
Qed.

Lemma rate_select_deterministic (h : Hypergraph) (u : HypernodeID)
  (matched : FlagArray) (entries : list (HypernodeID * R)) (mr : R)
  (t : HypernodeID) (g g' : Rng) :
  deterministic_policy (R:=R) (Rng:=Rng) ->
  fst (rate_select' h u matched entries mr t g) = fst (rate_select' h u matched entries mr t g').
Proof.
  intros Hd. revert mr t g g'.
  induction entries as [|[k x] rest IH]; intros mr t g g'; simpl.
  - reflexivity.
  - destruct (comm u =? comm k)%Z; [|apply IH].
    specialize (Hd (r_div x (penalty (nodeWeight h u) (nodeWeight h k)))
                   mr t k matched g g').
    destruct (acceptRating _ mr t k matched g) as [b g1].
    destruct (acceptRating _ mr t k matched g') as [b' g1'].
    simpl in Hd. subst b'. destruct b; apply IH.
Qed.

Lemma rate_inv (u : HypernodeID) (st : State R Rng) (r : Rating R)
  (st' : State R Rng) :
  rate' u st = Ok (r, st') ->
  exists tmp mr t g,
    rate_edges' (hg st) u (incidentEdges (hg st) u) (tmp_ratings st) = Ok tmp /\
    rate_select' (hg st) u (already_matched st) (rev tmp) r_min uint_max (rng st)
    = (mr, t, g) /\
    st' = set_rng (set_tmp_ratings st []) g /\
    r = rating_of mr t /\
    (assertions = true -> final_asserts comm (hg st) u mr t).
Proof.
  unfold rate.
  destruct (rate_edges _ _ _ _ _ _) as [tmp|] eqn:E; simpl; [|discriminate].
  destruct (rate_select _ _ _ _ _ _ _ _) as [[mr t] g] eqn:S.
  intros H. exists tmp, mr, t, g. unfold rating_of, final_asserts.
  unfold ASSERT in H. destruct assertions; simpl in H.
  - destruct (r_neb mr r_min); simpl in H.
    + destruct (N.eqb_spec t uint_max) as [Ht|Ht]; simpl in H; [discriminate|].
      destruct (Z.eqb_spec (comm u) (comm t)) as [Hc|Hc]; simpl in H;
        [|discriminate].
      destruct (Z.eqb_spec (partID (hg st) u) (partID (hg st) t)) as [Hp|Hp];
        simpl in H; [|discriminate].
      inversion H; subst. repeat split; auto.
    + inversion H; subst. repeat split; auto; discriminate.
  - destruct (r_neb mr r_min); simpl in H; inversion H; subst;
      repeat split; auto; discriminate.
Qed.

Lemma rate_ok (u : HypernodeID) (st : State R Rng) (tmp : SparseMap R)
  (mr : R) (t : HypernodeID) (g : Rng) :
  rate_edges' (hg st) u (incidentEdges (hg st) u) (tmp_ratings st) = Ok tmp ->
  rate_select' (hg st) u (already_matched st) (rev tmp) r_min uint_max (rng st)
  = (mr, t, g) ->
  (assertions = true -> final_asserts comm (hg st) u mr t) ->
  rate' u st = Ok (rating_of mr t, set_rng (set_tmp_ratings st []) g).
Proof.
  intros E S Ha. unfold rate. rewrite E. simpl. rewrite S.
  unfold rating_of, ASSERT. destruct assertions; simpl.
  - specialize (Ha eq_refl). unfold final_asserts in Ha.
    destruct (r_neb mr r_min); simpl; [|reflexivity].
    destruct (Ha eq_refl) as (Ht & Hc & Hp).
    apply N.eqb_neq in Ht. apply Z.eqb_eq in Hc, Hp.
    rewrite Ht. simpl. rewrite Hc. simpl. rewrite Hp. reflexivity.
  - destruct (r_neb mr r_min); reflexivity.
Qed.

(** What a valid rating returned from an empty accumulator is made of. *)
Lemma rate_valid (u : HypernodeID) (st : State R Rng) (r : Rating R)
  (st' : State R Rng) :
  tmp_ratings st = [] ->
  rate' u st = Ok (r, st') ->
  valid r = true ->
  exists tmp x e,
    rate_edges' (hg st) u (incidentEdges (hg st) u) [] = Ok tmp /\
    NoDup (sm_keys tmp) /\
    In (target r, x) tmp /\
    value r = r_div x (penalty (nodeWeight (hg st) u)
                               (nodeWeight (hg st) (target r))) /\
    r_neb (value r) r_min = true /\
    comm u = comm (target r) /\
    In e (incidentEdges (hg st) u) /\ In (target r) (pins (hg st) e) /\
    admissible' (hg st) u (target r) = true.
Proof.
  intros Hempty Hrate Hvalid.
  apply rate_inv in Hrate. destruct Hrate as (tmp & mr & t & g & E & S & _ & -> & _).
  rewrite Hempty in E. unfold rating_of in *.
  destruct (r_neb mr r_min) eqn:Hmr; [|discriminate]. simpl in *.
  apply rate_select_inv in S. destruct S as [[-> _]|(x & Hin & Hc & Hv)].
  - unfold r_neb in Hmr. now rewrite r_eqb_min in Hmr.
  - apply in_rev in Hin.
    assert (Hk : In t (sm_keys tmp)).
    { change t with (fst (t, x)). now apply in_map. }
    apply (rate_edges_keys _ _ _ _ _ _ t E) in Hk.
    destruct Hk as [[]|(e & He & Hp & Ha)].
    exists tmp, x, e. repeat split; auto.
    apply (rate_edges_NoDup _ _ _ _ _ _ E). constructor.
Qed.

End RaterSelection.

(** ** The rater: its contract *)

Lemma wf_ids_representable `{W : IdWidth} (h : Hypergraph) :
  wf h -> ids_representable h.
Proof.
  intros Hwf. split; [exact (wf_num_nodes Hwf)|].
  intros e v Hv. apply (wf_enabled Hwf), (wf_pins_enabled Hwf _ _ Hv).
Qed.

(** The addition of weights. *)
Lemma weight_modulus_half `{WW : WeightWidth} :
  (weight_modulus = 2 * (weight_modulus / 2) /\ 128 <= weight_modulus / 2)%Z.
Proof.
  unfold weight_modulus. pose proof weight_bits_min as Hmin.
  assert (E : Z.of_N weight_bits = Z.succ (Z.of_N weight_bits - 1)) by lia.
  rewrite E, Z.pow_succ_r by lia.
  replace (2 * 2 ^ (Z.of_N weight_bits - 1) / 2)%Z
    with (2 ^ (Z.of_N weight_bits - 1))%Z
    by (symmetry; rewrite Z.mul_comm; apply Z.div_mul; lia).
  split; [reflexivity|].
  change 128%Z with (2 ^ 7)%Z. apply Z.pow_le_mono_r; lia.
Qed.

Lemma weight_add_fits `{WW : WeightWidth} (a b : Z) :
  sum_fits a b -> weight_add a b = (a + b)%Z.
Proof.
  unfold sum_fits, weight_add, weight_max, weight_min.
  destruct weight_modulus_half as [E _]. intros Hfit.
  rewrite Z.mod_small; lia.
Qed.

Lemma weight_add_comm `{WW : WeightWidth} (a b : Z) :
  weight_add a b = weight_add b a.
Proof.
  unfold weight_add. now rewrite (Z.add_comm a b).
Qed.

(** Two weights that are not negative and sum to at most the greatest weight
    are added without wrap-around. *)
Lemma sum_fits_nonneg `{WW : WeightWidth} (a b : Z) :
  (0 <= a)%Z -> (0 <= b)%Z -> (a + b <= weight_max)%Z -> sum_fits a b.
Proof.
  unfold sum_fits, weight_min. destruct weight_modulus_half as [_ H]. lia.
Qed.

Lemma weight_add_units `{WW : WeightWidth} : weight_add 1 1 = 2%Z.
Proof.
  apply weight_add_fits. apply sum_fits_nonneg; try lia.
  unfold weight_max. destruct weight_modulus_half as [_ H]. lia.
Qed.

Lemma admissible_spec `{WW : WeightWidth}
  (max_allowed_node_weight : HypernodeWeight)
  (h : Hypergraph) (u v : HypernodeID) :
  admissible max_allowed_node_weight h u v = true <->
  v <> u /\
  (weight_add (nodeWeight h v) (nodeWeight h u) <= max_allowed_node_weight)%Z /\
  partID h u = partID h v.
Proof.
  unfold admissible, belowThresholdNodeWeight.
  rewrite !andb_true_iff, negb_true_iff, N.eqb_neq, Z.leb_le, Z.eqb_eq. tauto.
Qed.

Section RaterContract.

Context `{W : IdWidth} `{WW : WeightWidth} {R Rng : Type}.
Context `{RO : RatingOps R} `{NP : NodeWeightPenalty R}.
Context `{AP : AcceptancePolicy R Rng}.
Variable max_allowed_node_weight : HypernodeWeight.
Variable comm : HypernodeID -> ClusterID.
Variable assertions : bool.

(** The operations at the parameters of the section. *)
Abbreviation rate' := (rate max_allowed_node_weight comm assertions).
Abbreviation rate_edges' := (rate_edges max_allowed_node_weight assertions).
Abbreviation admissible' := (admissible max_allowed_node_weight).

(** Without assertions [rate] always returns a rating. *)
Lemma rate_total_unchecked (u : HypernodeID) (st : State R Rng) :
  assertions = false -> exists r st', rate' u st = Ok (r, st').
Proof.
  intros Ha.
  destruct (rate_edges' (hg st) u (incidentEdges (hg st) u) (tmp_ratings st))
    as [tmp|] eqn:E.
  - destruct (rate_select comm (hg st) u (already_matched st) (rev tmp)
                r_min uint_max (rng st)) as [[mr t] g] eqn:S.
    eexists. eexists. eapply rate_ok; [exact E | exact S | congruence].
  - apply rate_edges_fails in E. destruct E as [E _]. congruence.
Qed.

(** The assertions at the end of [rate] hold after a scan that started from
    an empty accumulator. *)
Lemma scan_final_asserts (h : Hypergraph) (u : HypernodeID)
  (matched : FlagArray) (tmp : SparseMap R) (mr : R) (t : HypernodeID)
  (g g' : Rng) :
  ids_representable h ->
  rate_edges' h u (incidentEdges h u) [] = Ok tmp ->
  rate_select comm h u matched (rev tmp) r_min uint_max g = (mr, t, g') ->
  final_asserts comm h u mr t.
Proof.
  intros [Hn Hpins] E S Hneb. apply rate_select_inv in S.
  destruct S as [[-> _]|(x & Hin & Hc & _)].
  - unfold r_neb in Hneb. now rewrite r_eqb_min in Hneb.
  - apply in_rev in Hin.
    assert (Hk : In t (sm_keys tmp)).
    { change t with (fst (t, x)). now apply in_map. }
    apply (rate_edges_keys _ _ _ _ _ _ t E) in Hk.
    destruct Hk as [[]|(e & He & Hp & Ha)].
    apply admissible_spec in Ha. destruct Ha as (_ & _ & Hpart).
    apply Hpins in Hp. repeat split; auto. lia.
Qed.

(** [rate(u)] returns a rating when assertions are not checked, and when no
    edge incident to [u] is degenerate. *)
Lemma rate_returns (u : HypernodeID) (st : State R Rng) :
  ids_representable (hg st) ->
  tmp_ratings st = [] ->
  assertions = false \/
  (forall e, In e (incidentEdges (hg st) u) -> 1 < edgeSize (hg st) e) ->
  exists r st', rate' u st = Ok (r, st').
Proof.
  intros Hids Hempty [Ha|Hsize]; [now apply rate_total_unchecked|].
  destruct (rate_edges' (hg st) u (incidentEdges (hg st) u) (tmp_ratings st))
    as [tmp|] eqn:E.
  - destruct (rate_select comm (hg st) u (already_matched st) (rev tmp)
                r_min uint_max (rng st)) as [[mr t] g] eqn:S.
    eexists. eexists. eapply rate_ok; [exact E | exact S |].
    intros _. rewrite Hempty in E. eapply scan_final_asserts; eauto.
  - apply rate_edges_fails in E. destruct E as (_ & e & He & Hle).
    apply Hsize in He. lia.
Qed.

(** Without an admissible pin, the rating is the invalid one. *)
Lemma rate_no_candidate (u : HypernodeID) (st : State R Rng) (r : Rating R)
  (st' : State R Rng) :
  tmp_ratings st = [] ->
  (forall e v, In e (incidentEdges (hg st) u) -> In v (pins (hg st) e) ->
               admissible' (hg st) u v = false) ->
  rate' u st = Ok (r, st') ->
  r = default_rating.
Proof.
  intros Hempty Hnone Hrate. destruct (valid r) eqn:Hv.
  - destruct (rate_valid _ _ _ _ _ Hempty Hrate Hv)
      as (tmp & x & e & _ & _ & _ & _ & _ & _ & He & Hp & Ha).
    rewrite (Hnone e _ He Hp) in Ha. discriminate.
  - apply rate_inv in Hrate.
    destruct Hrate as (tmp & mr & t & g & _ & _ & _ & -> & _).
    unfold rating_of in *. now destruct (r_neb mr r_min).
Qed.


(** The state after [rate(u)]: that before, with the accumulator cleared and
    the random source where the acceptance policy has left it. *)
Lemma rate_keeps (u : HypernodeID) (st : State R Rng) (r : Rating R)
  (st' : State R Rng) :
  rate' u st = Ok (r, st') ->
  hg st' = hg st /\
  already_matched st' = already_matched st /\
  tmp_ratings st' = [] /\
  history st' = history st /\
  events st' = events st.
Proof.
  intros Hrate. apply rate_inv in Hrate.
  destruct Hrate as (tmp & mr & t & g & _ & _ & -> & _ & _).
  simpl. repeat split; reflexivity.
Qed.

(** The two kinds of rating [rate] returns. *)
Lemma rate_sentinel_cases (u : HypernodeID) (st : State R Rng) (r : Rating R)
  (st' : State R Rng) :
  ids_representable (hg st) ->
  tmp_ratings st = [] ->
  rate' u st = Ok (r, st') ->
  (valid r = true /\ target r <> uint_max /\ r_neb (value r) r_min = true) \/
  (valid r = false /\ target r = uint_max /\ value r = r_min).
Proof.
  intros [Hn Hpins] Hempty Hrate. destruct (valid r) eqn:Hv.
  - left. destruct (rate_valid _ _ _ _ _ Hempty Hrate Hv)
      as (tmp & x & e & _ & _ & _ & _ & Hneb & _ & _ & Hp & _).
    apply Hpins in Hp. repeat split; [lia | exact Hneb].
  - right. apply rate_inv in Hrate.
    destruct Hrate as (tmp & mr & t & g & _ & _ & _ & -> & _).
    unfold rating_of in *. destruct (r_neb mr r_min); [discriminate|].
    repeat split.
Qed.

(** The driver's test of a rating against [kInvalidTarget] is the test of
    its validity. *)
Lemma rate_target_test (u : HypernodeID) (st : State R Rng) (r : Rating R)
  (st' : State R Rng) :
  ids_representable (hg st) ->
  tmp_ratings st = [] ->
  rate' u st = Ok (r, st') ->
  negb (target r =? kInvalidTarget) = valid r.
Proof.
  intros Hids Hempty Hrate. unfold kInvalidTarget.
  destruct (rate_sentinel_cases _ _ Hids Hempty Hrate)
    as [(Hv & Ht & _)|(Hv & Ht & _)]; rewrite Hv.
  - apply N.eqb_neq in Ht. now rewrite Ht.
  - now rewrite Ht, N.eqb_refl.
Qed.

(** C9. [rate(u)] leaves the hypergraph and the matched markers as they
    were, and returns with an empty score accumulator, in which no key has an
    entry; the history and the events of the coarsener are untouched as
    well. *)
Theorem rate_frame (u : HypernodeID) (st : State R Rng) (r : Rating R)
  (st' : State R Rng) :
  rate max_allowed_node_weight comm assertions u st = Ok (r, st') ->
  hg st' = hg st /\
  already_matched st' = already_matched st /\
  tmp_ratings st' = [] /\
  (forall v, sm_get (tmp_ratings st') v = None) /\
  history st' = history st /\
  events st' = events st.
Proof.
  intros Hrate.
  destruct (rate_keeps _ _ Hrate) as (Hh & Hm & Ht & Hhist & Hev).
  repeat split; auto. intros v. now rewrite Ht.
Qed.

(** C10. A rating returned by [rate] is valid exactly when its target is not
    the sentinel id, and exactly when its value is not the sentinel value
    (and differs from it for [operator!=]); the test of the driver against
    [kInvalidTarget] is the test of [valid], and an invalid rating carries
    both sentinels. *)
Theorem rating_sentinels (u : HypernodeID) (st : State R Rng) (r : Rating R)
  (st' : State R Rng) :
  ids_representable (hg st) ->
  tmp_ratings st = [] ->
  rate max_allowed_node_weight comm assertions u st = Ok (r, st') ->
  (valid r = true <-> target r <> uint_max) /\
  (valid r = true <-> value r <> r_min) /\
  (valid r = true <-> r_neb (value r) r_min = true) /\
  negb (target r =? kInvalidTarget) = valid r /\
  (valid r = false -> target r = uint_max /\ value r = r_min).
Proof.
  intros Hids Hempty Hrate.
  assert (Hmin : r_neb (r_min (R:=R)) r_min = false).
  { unfold r_neb. now rewrite r_eqb_min. }
  pose proof (rate_target_test _ _ Hids Hempty Hrate) as Htest.
  destruct (rate_sentinel_cases _ _ Hids Hempty Hrate)
    as [(Hv & Ht & Hx)|(Hv & Ht & Hx)]; rewrite Hv in *.
  - split; [tauto|]. split.
    { split; [|reflexivity]. intros _ E. rewrite E, Hmin in Hx. discriminate. }
    split; [tauto|]. split; [exact Htest | discriminate].
  - rewrite Ht, Hx, Hmin.
    split; [split; [discriminate | intros H; now contradiction H]|].
    split; [split; [discriminate | intros H; now contradiction H]|].
    split; [split; discriminate|]. split; [|tauto].
    rewrite Ht in Htest. exact Htest.
Qed.

(** Away from zero the unsigned [a - 1] is the predecessor. *)
Lemma uint_pred_spec (a : N) : 1 <= a <= uint_max -> uint_pred a = a - 1.
Proof.
  unfold uint_pred, uint_max. intros [Hlo Hhi].
  assert (HM : 0 < uint_modulus).
  { unfold uint_modulus. apply N.neq_0_lt_0, N.pow_nonzero. discriminate. }
  replace (a + uint_modulus - 1) with (a - 1 + 1 * uint_modulus) by lia.
  rewrite N.Div0.mod_add. apply N.mod_small. lia.
Qed.

(** On a hyperedge with a pin, and no more pins than the unsigned type
    holds, the score of the code is that of the spec. *)
Lemma edge_score_spec (h : Hypergraph) (e : HyperedgeID) :
  1 <= edgeSize h e <= uint_max -> edge_score h e = spec_edge_score h e.
Proof.
  intros Hsize. unfold edge_score, spec_edge_score.
  now rewrite uint_pred_spec.
Qed.

(** The accumulator after the first loop of [rate(u)], on a well-formed
    hypergraph. *)
Lemma rate_edges_spec (h : Hypergraph) (u : HypernodeID) (tmp : SparseMap R)
  (v : HypernodeID) :
  wf h -> nodeIsEnabled h u = true ->
  rate_edges' h u (incidentEdges h u) [] = Ok tmp ->
  sm_get tmp v =
  if admissible' h u v && existsb (fun e => mem v (pins h e)) (incidentEdges h u)
  then Some (spec_raw_score h u v)
  else None.
Proof.
  intros Hwf Hu E.
  rewrite (rate_edges_get _ _ _ _ _ _ v (fun e _ => wf_pins_nodup Hwf e) E).
  simpl. destruct (admissible' h u v) eqn:A; simpl.
  - rewrite acc_score_sum by assumption. unfold spec_raw_score. simpl.
    replace (filter (fun e => mem u (pins h e) && mem v (pins h e))
               (incidentEdges h u))
      with (filter (fun e => mem v (pins h e)) (incidentEdges h u)).
    + replace (map (spec_edge_score h)
                 (filter (fun e => mem v (pins h e)) (incidentEdges h u)))
        with (map (edge_score h)
                (filter (fun e => mem v (pins h e)) (incidentEdges h u)));
        [reflexivity|].
      apply map_ext_in. intros e He. apply filter_In in He. destruct He as [He _].
      apply edge_score_spec. split; [|now apply wf_edgeSize].
      pose proof (wf_incident_pins Hwf _ _ Hu He) as Hin.
      unfold edgeSize. destruct (pins h e); [destruct Hin | simpl; lia].
    + apply filter_ext_in. intros e He.
      pose proof (wf_incident_pins Hwf _ _ Hu He) as Hin.
      apply mem_In in Hin. now rewrite Hin.
  - now apply acc_score_inadmissible.
Qed.

(** C3. In [rate(u)], for an enabled vertex [u] of a well-formed hypergraph,
    the score accumulated for a candidate [v] is the sum, over the hyperedges
    incident to [u] that contain [u] and [v], of
    [edgeWeight(e) / (edgeSize(e) - 1)], for admissible [v] only; the value
    of a valid rating is the sum of its target divided by the penalty of the
    two weights.  A vertex [v] whose weight is added to that of [u] without
    overflow is admissible when it is not [u], the two weights sum to at most
    the threshold, and the two are of the same partition. *)
Theorem rate_scores (u : HypernodeID) (st : State R Rng) :
  tmp_ratings st = [] ->
  wf (hg st) -> nodeIsEnabled (hg st) u = true ->
  (forall tmp v,
     rate_edges max_allowed_node_weight assertions (hg st) u
       (incidentEdges (hg st) u) (tmp_ratings st) = Ok tmp ->
     sm_get tmp v =
     if admissible max_allowed_node_weight (hg st) u v
        && existsb (fun e => mem v (pins (hg st) e)) (incidentEdges (hg st) u)
     then Some (spec_raw_score (hg st) u v)
     else None) /\
  (forall r st',
     rate max_allowed_node_weight comm assertions u st = Ok (r, st') ->
     valid r = true ->
     value r =
     r_div (spec_raw_score (hg st) u (target r))
           (penalty (nodeWeight (hg st) u) (nodeWeight (hg st) (target r)))) /\
  (forall v,
     sum_fits (nodeWeight (hg st) u) (nodeWeight (hg st) v) ->
     (admissible max_allowed_node_weight (hg st) u v = true <->
      v <> u /\
      (nodeWeight (hg st) u + nodeWeight (hg st) v
       <= max_allowed_node_weight)%Z /\
      partID (hg st) u = partID (hg st) v)).
Proof.
  intros Hempty Hwf Hu. split; [|split].
  - intros tmp v E. rewrite Hempty in E. now apply rate_edges_spec.
  - intros r st' Hrate Hvalid.
    destruct (rate_valid _ _ _ _ _ Hempty Hrate Hvalid)
      as (tmp & x & e & E & Hnd & Hin & Hval & _ & _ & He & Hp & Ha).
    assert (G := @rate_edges_spec (hg st) u tmp (target r) Hwf Hu E).
    rewrite (sm_get_In _ _ _ Hnd Hin) in G. rewrite Ha in G. simpl in G.
    destruct (existsb _ _); [|discriminate].
    inversion G; subst x. exact Hval.
  - intros v Hfit.
    rewrite admissible_spec, weight_add_comm, (weight_add_fits Hfit).
    reflexivity.
Qed.

(** An edge whose only pin is [u] adds nothing to the accumulator. *)
Lemma rate_pins_only_self (h : Hypergraph) (u : HypernodeID) (s : R)
  (ps : list HypernodeID) (tmp : SparseMap R) :
  (forall v, In v ps -> v = u) ->
  rate_pins max_allowed_node_weight h u s ps tmp = tmp.
Proof.
  revert tmp. induction ps as [|v ps IH]; intros tmp Hps; simpl.
  - reflexivity.
  - rewrite (Hps v (or_introl eq_refl)).
    unfold admissible at 1. rewrite N.eqb_refl. simpl.
    apply IH. intros w Hw. apply Hps. now right.
Qed.

Lemma degenerate_pins (h : Hypergraph) (u : HypernodeID) (e : HyperedgeID) :
  In u (pins h e) -> edgeSize h e <= 1 -> forall v, In v (pins h e) -> v = u.
Proof.
  unfold edgeSize. intros Hu Hsize v Hv.
  destruct (pins h e) as [|x [|y l]]; simpl in *.
  - destruct Hu.
  - destruct Hu as [<-|[]]. destruct Hv as [<-|[]]. reflexivity.
  - lia.
Qed.

Lemma rate_edges_skip (h : Hypergraph) (u : HypernodeID)
  (es : list HyperedgeID) (tmp : SparseMap R) :
  assertions = false ->
  (forall e, In e es -> In u (pins h e)) ->
  rate_edges' h u es tmp = rate_edges' h u (filter (fun e => 1 <? edgeSize h e) es) tmp.
Proof.
  intros Ha. destruct assertions; [discriminate|]. clear Ha.
  revert tmp. induction es as [|e es IH]; intros tmp Hes; simpl.
  - reflexivity.
  - destruct (N.ltb_spec 1 (edgeSize h e)) as [Hlt|Hle]; simpl.
    + apply IH. intros e' He'. apply Hes. now right.
    + rewrite rate_pins_only_self.
      * apply IH. intros e' He'. apply Hes. now right.
      * apply degenerate_pins; [apply Hes; now left | exact Hle].
Qed.

Lemma rate_pins_skip_degenerate (h : Hypergraph) (u : HypernodeID) (s : R)
  (ps : list HypernodeID) (tmp : SparseMap R) :
  rate_pins max_allowed_node_weight (skip_degenerate h u) u s ps tmp
  = rate_pins max_allowed_node_weight h u s ps tmp.
Proof.
  revert tmp. induction ps as [|v ps IH]; intros tmp; simpl.
  - reflexivity.
  - rewrite IH. reflexivity.
Qed.

(** [rate] reads the incidence list of [u] only. *)
Lemma rate_edges_skip_degenerate (h : Hypergraph) (u : HypernodeID)
  (es : list HyperedgeID) (tmp : SparseMap R) :
  rate_edges' (skip_degenerate h u) u es tmp = rate_edges' h u es tmp.
Proof.
  revert tmp. induction es as [|e es IH]; intros tmp; simpl.
  - reflexivity.
  - rewrite IH, rate_pins_skip_degenerate. reflexivity.
Qed.

Lemma rate_select_skip_degenerate (h : Hypergraph) (u : HypernodeID)
  (matched : FlagArray) (entries : list (HypernodeID * R)) (mr : R)
  (t : HypernodeID) (g : Rng) :
  rate_select comm (skip_degenerate h u) u matched entries mr t g
  = rate_select comm h u matched entries mr t g.
Proof.
  revert mr t g. induction entries as [|[k x] rest IH]; intros mr t g; simpl.
  - reflexivity.
  - destruct (comm u =? comm k)%Z; [|apply IH].
    destruct (acceptRating _ mr t k matched g) as [[|] g1]; apply IH.
Qed.

(** C6, as the code has it.  [rate(u)] does not skip the incident hyperedges
    of size at most 1: it asserts that there is none.  With assertions checked
    it fails when [u] has such an edge.  Without them it returns a rating, and
    such an edge, whose only pin is [u], adds no score to any candidate: the
    accumulator and the rating are those of the hypergraph in which these
    edges are left out of the incidence list of [u]. *)
Theorem rate_degenerate_edges (u : HypernodeID) (st : State R Rng) :
  (forall e, In e (incidentEdges (hg st) u) -> In u (pins (hg st) e)) ->
  (assertions = true ->
   (exists e, In e (incidentEdges (hg st) u) /\ edgeSize (hg st) e <= 1) ->
   rate max_allowed_node_weight comm assertions u st = AssertionFailed) /\
  (assertions = false ->
   (exists r st',
      rate max_allowed_node_weight comm assertions u st = Ok (r, st')) /\
   rate_edges max_allowed_node_weight assertions (hg st) u
     (incidentEdges (hg st) u) (tmp_ratings st)
   = rate_edges max_allowed_node_weight assertions (hg st) u
       (filter (fun e => 1 <? edgeSize (hg st) e) (incidentEdges (hg st) u))
       (tmp_ratings st) /\
   (forall r st',
      rate max_allowed_node_weight comm assertions u st = Ok (r, st') ->
      rate max_allowed_node_weight comm assertions u
        (set_hg st (skip_degenerate (hg st) u))
      = Ok (r, set_hg st' (skip_degenerate (hg st) u)))).
Proof.
  intros Hinc. split.
  - intros Ha Hdeg. unfold rate.
    rewrite (proj2 (rate_edges_fails max_allowed_node_weight assertions
                      (hg st) u (incidentEdges (hg st) u) (tmp_ratings st))
                   (conj Ha Hdeg)).
    reflexivity.
  - intros Ha. split; [now apply rate_total_unchecked|].
    split; [now apply rate_edges_skip|].
    intros r st' Hrate. apply rate_inv in Hrate.
    destruct Hrate as (tmp & mr & t & g & E & S & -> & -> & _).
    rewrite rate_edges_skip in E by assumption.
    change (set_hg (set_rng (set_tmp_ratings st []) g) (skip_degenerate (hg st) u))
      with (set_rng (set_tmp_ratings (set_hg st (skip_degenerate (hg st) u)) []) g).
    eapply rate_ok.
    + cbn [set_hg hg tmp_ratings skip_degenerate incidentEdges].
      rewrite N.eqb_refl. rewrite <- E. apply rate_edges_skip_degenerate.
    + cbn [set_hg hg already_matched rng]. rewrite <- S.
      apply rate_select_skip_degenerate.
    + congruence.
Qed.

(** C7, as the code has it.  From an empty accumulator, [rate(u)] called a
    second time on the same hypergraph and matched markers returns the rating
    of the first call when the random source is in the state of the first
    call, and whenever the acceptance policy decides without the random
    source. *)
Theorem rate_twice (u : HypernodeID) (st : State R Rng) (r1 : Rating R)
  (st1 : State R Rng) :
  tmp_ratings st = [] ->
  rate max_allowed_node_weight comm assertions u st = Ok (r1, st1) ->
  rate max_allowed_node_weight comm assertions u (set_rng st1 (rng st))
  = Ok (r1, st1) /\
  (deterministic_policy (R:=R) (Rng:=Rng) ->
   exists st2,
     rate max_allowed_node_weight comm assertions u st1 = Ok (r1, st2)).
Proof.
  intros Hempty Hrate. pose proof Hrate as Hinv. apply rate_inv in Hinv.
  destruct Hinv as (tmp & mr & t & g & E & S & -> & -> & Ha). split.
  - assert (Hst : set_rng (set_rng (set_tmp_ratings st []) g) (rng st) = st).
    { destruct st; simpl in *. now subst. }
    rewrite Hst. exact Hrate.
  - intros Hd.
    pose proof (rate_select_deterministic comm (hg st) u (already_matched st)
                  (rev tmp) r_min uint_max (rng st) g Hd) as D.
    rewrite S in D. simpl in D.
    destruct (rate_select comm (hg st) u (already_matched st) (rev tmp)
                r_min uint_max g) as [[mr2 t2] g2] eqn:S2.
    simpl in D. inversion D; subst mr2 t2.
    eexists. eapply rate_ok.
    + cbn [set_rng set_tmp_ratings hg tmp_ratings]. rewrite <- Hempty. exact E.
    + cbn [set_rng set_tmp_ratings hg already_matched rng]. exact S2.
    + exact Ha.
Qed.

End RaterContract.

(** ** Events *)

Lemma never_again_snoc (evs : list Event) (ev : Event) :
  never_again (evs ++ [ev]) <->
  never_again evs /\
  (forall ev0 v, In ev0 evs -> contracted_by ev0 = Some v -> ~ involves v ev).
Proof.
  induction evs as [|e0 evs IH]; simpl.
  - split.
    + intros _. split; [exact I|]. intros ev0 v [].
    + intros _. split; [|exact I]. destruct (contracted_by ev); [constructor | exact I].
  - rewrite IH. split.
    + intros [H0 [Hn Hall]]. split.
      * split; [|exact Hn]. destruct (contracted_by e0); [|exact I].
        apply Forall_app in H0. tauto.
      * intros ev0 v [<-|Hin] Hc.
        -- rewrite Hc in H0. apply Forall_app in H0. destruct H0 as [_ H0].
           now inversion H0.
        -- now apply (Hall ev0).
    + intros [[H0 Hn] Hall]. split; [|split; [exact Hn|]].
      * destruct (contracted_by e0) as [v|] eqn:Hc; [|exact I].
        apply Forall_app. split; [exact H0|].
        constructor; [|constructor]. apply (Hall e0); auto.
      * intros ev0 v Hin. apply Hall. now right.
Qed.

Lemma never_again_split (evs pre post : list Event) (h : Hypergraph)
  (u v : HypernodeID) :
  never_again evs -> evs = pre ++ EvContract h u v :: post ->
  forall ev, In ev post -> ~ involves v ev.
Proof.
  intros Hn ->. induction pre as [|e0 pre IH]; simpl in Hn.
  - destruct Hn as [Hall _]. now apply Forall_forall.
  - apply IH. exact (proj2 Hn).
Qed.

Lemma passes_app (evs evs' : list Event) :
  passes (evs ++ evs') = passes evs + passes evs'.
Proof.
  induction evs as [|[] evs IH]; cbn [passes app]; try rewrite IH; lia.
Qed.

(** ** The total weight *)

Lemma total_merge (w : N -> Z) (f : N -> bool) (u v : N) (m : Z) (l : list N) :
  u <> v -> NoDup l ->
  (fold_right Z.add 0
     (map (fun x => if (x =? u)%N then m else w x)
        (filter (fun x => if (x =? v)%N then false else f x) l))
   = fold_right Z.add 0 (map w (filter f l))
     + (if f u && mem u l then m - w u else 0)
     - (if f v && mem v l then w v else 0))%Z.
Proof.
  intros Huv. induction l as [|x l IH]; intros Hnd.
  - simpl. now rewrite !andb_false_r.
  - inversion Hnd as [|? ? Hx Hl]; subst. specialize (IH Hl).
    cbn [filter mem existsb]. fold (mem u l) (mem v l).
    apply mem_false in Hx.
    destruct (N.eqb_spec x v) as [->|Hxv].
    + rewrite N.eqb_refl, (proj2 (N.eqb_neq u v) Huv). cbn [orb].
      rewrite Hx, andb_false_r in IH. rewrite andb_true_r, IH.
      destruct (f v); cbn [map fold_right]; lia.
    + rewrite (proj2 (N.eqb_neq v x)) by congruence. cbn [orb].
      destruct (N.eqb_spec x u) as [->|Hxu].
      * rewrite N.eqb_refl. cbn [orb]. rewrite Hx, andb_false_r in IH.
        rewrite andb_true_r.
        destruct (f u); cbn [map fold_right]; rewrite ?N.eqb_refl, IH; lia.
      * rewrite (proj2 (N.eqb_neq u x)) by congruence. cbn [orb].
        destruct (f x); cbn [map fold_right];
          rewrite ?(proj2 (N.eqb_neq x u)) by congruence; rewrite IH; lia.
Qed.

Lemma pair_le_total (w : N -> Z) (l : list N) (x y : N) :
  (forall z, In z l -> 0 <= w z)%Z -> NoDup l ->
  In x l -> In y l -> x <> y ->
  (w x + w y <= fold_right Z.add 0 (map w l))%Z.
Proof.
  intros Hpos.
  assert (Hone : forall l',
             (forall z, In z l' -> 0 <= w z)%Z ->
             forall z, In z l' ->
               (w z <= fold_right Z.add 0 (map w l'))%Z).
  { induction l' as [|a l' IH]; intros Hp z Hz; [destruct Hz|]. simpl.
    assert (0 <= fold_right Z.add 0 (map w l'))%Z.
    { clear IH z Hz. induction l' as [|b l' IH]; simpl; [lia|].
      pose proof (Hp b (or_intror (or_introl eq_refl))).
      assert (0 <= fold_right Z.add 0 (map w l'))%Z.
      { apply IH. intros c Hc. apply Hp. simpl in *. tauto. }
      lia. }
    destruct Hz as [->|Hz].
    - lia.
    - pose proof (Hp a (or_introl eq_refl)).
      assert (w z <= fold_right Z.add 0 (map w l'))%Z.
      { apply IH; [|exact Hz]. intros c Hc. apply Hp. now right. }
      lia. }
  induction l as [|a l IH]; intros Hnd Hx Hy Hne; [destruct Hx|].
  inversion Hnd as [|? ? Ha Hl]; subst. simpl.
  assert (Hp' : (forall z, In z l -> 0 <= w z)%Z)
    by (intros z Hz; apply Hpos; now right).
  pose proof (Hpos a (or_introl eq_refl)) as Hwa.
  destruct Hx as [->|Hx], Hy as [->|Hy].
  - congruence.
  - pose proof (Hone l Hp' y Hy). lia.
  - pose proof (Hone l Hp' x Hx). lia.
  - specialize (IH Hp' Hl Hx Hy Hne). lia.
Qed.

Section TotalWeight.

Context `{W : IdWidth} `{WW : WeightWidth}.

(** In a hypergraph whose total weight is a weight, the weights of two
    enabled vertices are added without wrap-around. *)
Lemma weights_fit_pair (h : Hypergraph) (u v : HypernodeID) :
  wf h -> weights_fit h ->
  nodeIsEnabled h u = true -> nodeIsEnabled h v = true -> u <> v ->
  sum_fits (nodeWeight h u) (nodeWeight h v).
Proof.
  intros Hwf [Hpos Htot] Hu Hv Hne.
  assert (Hin : forall x, nodeIsEnabled h x = true -> In x (nodes h)).
  { intros x Hx. apply nodes_In. split; [exact Hx | now apply (wf_enabled Hwf)]. }
  apply sum_fits_nonneg; auto.
  eapply Z.le_trans; [|exact Htot]. unfold total_weight.
  apply pair_le_total; auto.
  - intros z Hz. apply Hpos. now apply nodes_In in Hz.
  - unfold nodes. apply NoDup_filter, all_ids_NoDup.
Qed.

(** A contraction of two enabled vertices keeps the total weight. *)
Lemma weights_fit_contract (h : Hypergraph) (u v : HypernodeID) :
  wf h -> weights_fit h ->
  nodeIsEnabled h u = true -> nodeIsEnabled h v = true -> u <> v ->
  weights_fit (contract h u v).
Proof.
  intros Hwf Hfit Hu Hv Hne.
  pose proof (weights_fit_pair Hwf Hfit Hu Hv Hne) as Hsum.
  destruct Hfit as [Hpos Htot]. split.
  - intros x. cbn [contract nodeIsEnabled nodeWeight].
    destruct (x =? v); [discriminate|]. intros Hx.
    destruct (N.eqb_spec x u) as [->|_]; [|now apply Hpos].
    rewrite (weight_add_fits Hsum).
    pose proof (Hpos u Hu). pose proof (Hpos v Hv). lia.
  - unfold total_weight, nodes in *.
    cbn [contract nodeIsEnabled nodeWeight initialNumNodes].
    rewrite (total_merge (nodeWeight h) (nodeIsEnabled h)
               (weight_add (nodeWeight h u) (nodeWeight h v)) Hne
               (all_ids_NoDup (initialNumNodes h))).
    rewrite Hu, Hv, (weight_add_fits Hsum).
    rewrite (proj2 (mem_In u _)), (proj2 (mem_In v _))
      by (apply all_ids_In; now apply (wf_enabled Hwf)).
    simpl.
    match goal with
    | |- (?a + ?b - ?c <= _)%Z => replace (a + b - c)%Z with a by lia
    end.
    exact Htot.
Qed.

End TotalWeight.

(** ** The invariant of a coarsening run *)

Section CoarsenerInvariant.

Context `{W : IdWidth} `{WW : WeightWidth} {R Rng : Type}.
Context `{RO : RatingOps R} `{NP : NodeWeightPenalty R}.
Context `{AP : AcceptancePolicy R Rng} `{RZ : Randomize Rng}.
Variable max_allowed_node_weight : HypernodeWeight.
Variable comm : HypernodeID -> ClusterID.
Variable assertions : bool.

(** The operations at the parameters of the section. *)
Abbreviation rate' := (rate max_allowed_node_weight comm assertions).
Abbreviation coarsen_nodes' :=
  (coarsen_nodes max_allowed_node_weight comm assertions).
Abbreviation coarsen_pass' :=
  (coarsen_pass max_allowed_node_weight comm assertions).
Abbreviation coarsen_loop' :=
  (coarsen_loop max_allowed_node_weight comm assertions).
Abbreviation inv :=
  (coarsening_inv (R:=R) (Rng:=Rng) max_allowed_node_weight comm).
Abbreviation ev_ok := (event_ok max_allowed_node_weight comm).

Lemma inv_initial (h : Hypergraph) (g : Rng) : wf h -> inv (initial_state h g).
Proof.
  intros Hwf. constructor; simpl; auto.
  - intros ev v [].
Qed.

(** The invariant reads the hypergraph, the accumulator and the events only. *)
Lemma inv_ext (st st' : State R Rng) :
  hg st' = hg st -> tmp_ratings st' = tmp_ratings st ->
  events st' = events st -> inv st -> inv st'.
Proof.
  intros Hh Ht He [Hwf Htmp Hev Hdis Hnev].
  constructor; rewrite ?Hh, ?Ht, ?He; assumption.
Qed.

Lemma inv_log (st : State R Rng) (ev : Event) :
  inv st -> ev_ok ev -> contracted_by ev = None ->
  (forall x, involves x ev -> nodeIsEnabled (hg st) x = true) ->
  inv (log st ev).
Proof.
  intros [Hwf Htmp Hev Hdis Hnev] Hok Hc Hinv. constructor; simpl.
  - exact Hwf.
  - exact Htmp.
  - apply Forall_app. split; [exact Hev | now constructor].
  - intros ev0 v Hin Hc0. apply in_app_or in Hin. destruct Hin as [Hin|[<-|[]]].
    + now apply (Hdis ev0).
    + congruence.
  - apply never_again_snoc. split; [exact Hnev|].
    intros ev0 v Hin Hc0 Hx. apply Hinv in Hx.
    rewrite (Hdis ev0 v Hin Hc0) in Hx. discriminate.
Qed.

Lemma inv_rate (u : HypernodeID) (st : State R Rng) (r : Rating R)
  (st' : State R Rng) :
  inv st -> rate' u st = Ok (r, st') -> inv st'.
Proof.
  intros Hinv Hrate.
  destruct (rate_keeps _ _ _ _ _ Hrate) as (Hh & _ & Ht & _ & He).
  apply inv_ext with (st := st); auto. rewrite Ht. symmetry. apply (inv_tmp Hinv).
Qed.

Lemma inv_performContraction (u v : HypernodeID) (st : State R Rng) :
  inv st -> ev_ok (EvContract (hg st) u v) ->
  inv (performContraction u v st).
Proof.
  intros [Hwf Htmp Hev Hdis Hnev] Hok.
  pose proof Hok as (Huv & Hu & Hv & _). constructor; simpl.
  - now apply wf_contract.
  - exact Htmp.
  - apply Forall_app. split; [exact Hev | now constructor].
  - intros ev0 x Hin Hc0. destruct (N.eqb_spec x v) as [E|Hne]; [reflexivity|].
    apply in_app_or in Hin. destruct Hin as [Hin|[<-|[]]].
    + now apply (Hdis ev0).
    + simpl in Hc0. congruence.
  - apply never_again_snoc. split; [exact Hnev|].
    intros ev0 x Hin Hc0 [<-|<-].
    + rewrite (Hdis ev0 u Hin Hc0) in Hu. discriminate.
    + rewrite (Hdis ev0 v Hin Hc0) in Hv. discriminate.
Qed.

(** A rating whose target is not the sentinel names a contraction that may
    take place. *)
Lemma rated_target_ok (hn : HypernodeID) (st : State R Rng)
  (rating : Rating R) (st1 : State R Rng) :
  inv st -> nodeIsEnabled (hg st) hn = true ->
  rate' hn st = Ok (rating, st1) ->
  (target rating =? kInvalidTarget) = false ->
  ev_ok (EvContract (hg st) hn (target rating)).
Proof.
  intros Hinv Hen Hrate Ht.
  pose proof (rate_target_test _ _ _ _ _
                (wf_ids_representable (inv_wf Hinv)) (inv_tmp Hinv) Hrate)
    as Hk.
  rewrite Ht in Hk. simpl in Hk. symmetry in Hk.
  destruct (rate_valid _ _ _ _ _ (inv_tmp Hinv) Hrate Hk)
    as (tmp & x & e & _ & _ & _ & _ & _ & Hc & He & Hp & Ha).
  apply admissible_spec in Ha. destruct Ha as (Hne & Hw & Hpart).
  simpl. unfold belowThresholdNodeWeight.
  repeat split; auto; try lia; try (apply Z.leb_le; exact Hw).
  apply (wf_pins_enabled (inv_wf Hinv) _ _ Hp).
Qed.

(** What the driver does with the rating of an enabled vertex keeps the
    invariant. *)
Lemma inv_contract_rated (hn : HypernodeID) (st : State R Rng)
  (rating : Rating R) (st1 : State R Rng) :
  inv st -> nodeIsEnabled (hg st) hn = true ->
  rate' hn st = Ok (rating, st1) ->
  inv (contract_rated hn rating st1).
Proof.
  intros Hinv Hen Hrate.
  assert (Hinv1 : inv st1) by (eapply inv_rate; eauto).
  destruct (rate_keeps _ _ _ _ _ Hrate) as (Hh & _).
  unfold contract_rated.
  destruct (target rating =? kInvalidTarget) eqn:Ht; [exact Hinv1|]. simpl.
  unfold contraction_func.
  apply inv_log; [| exact I | reflexivity | intros y []].
  apply inv_performContraction.
  - apply inv_ext with (st := st1); auto.
  - cbn [markAsMatched set_already_matched hg]. rewrite Hh.
    eapply rated_target_ok; eauto.
Qed.

Lemma inv_coarsen_nodes (limit : HypernodeID) (hns : list HypernodeID)
  (st st' : State R Rng) :
  inv st -> coarsen_nodes' limit hns st = Ok st' -> inv st'.
Proof.
  revert st. induction hns as [|hn rest IH]; intros st Hinv; simpl.
  - intros E. now inversion E; subst.
  - destruct (nodeIsEnabled (hg st) hn) eqn:Hen; [|now apply IH].
    destruct (rate _ _ _ hn _) as [[rating st1]|] eqn:Hrate; simpl; [|discriminate].
    assert (Hinv2 : inv (contract_rated hn rating st1)).
    { eapply inv_contract_rated; [| | exact Hrate]; [|exact Hen].
      apply inv_log; [exact Hinv | exact Hen | reflexivity |].
      intros x <-. exact Hen. }
    destruct (_ <=? limit); [|now apply IH].
    intros E. now inversion E; subst.
Qed.

Lemma inv_coarsen_pass (limit : HypernodeID) (st st' : State R Rng) :
  inv st -> coarsen_pass' limit st = Ok st' -> inv st'.
Proof.
  intros Hinv. unfold coarsen_pass.
  destruct (shuffleVector _ _) as [hns g].
  destruct (coarsen_nodes _ _ _ _ _ _) as [st1|] eqn:E; simpl; [|discriminate].
  intros H. inversion H; subst. unfold end_of_pass_func.
  apply inv_log; [| exact I | reflexivity | intros x []].
  eapply inv_coarsen_nodes; [|exact E]. apply inv_ext with (st := st); auto.
Qed.

Lemma inv_coarsen_loop (fuel : nat) (limit : HypernodeID)
  (st st' : State R Rng) :
  inv st -> coarsen_loop' fuel limit st = Some (Ok st') -> inv st'.
Proof.
  revert st. induction fuel as [|fuel IH]; intros st Hinv; simpl; [discriminate|].
  destruct (limit <? _).
  - destruct (coarsen_pass _ _ _ _ _) as [st1|] eqn:E; [|discriminate].
    assert (Hinv1 : inv st1) by (eapply inv_coarsen_pass; eauto).
    destruct (_ =? _).
    + intros H. now inversion H; subst.
    + now apply IH.
  - intros H. now inversion H; subst.
Qed.

(** On a hypergraph whose total weight is a weight, the weights of the pairs
    contracted in a stretch of a run sum to at most the threshold. *)
Abbreviation sums_below new :=
  (forall h u v, In (EvContract h u v) new ->
     (nodeWeight h u + nodeWeight h v
      <= thresholdNodeWeight max_allowed_node_weight)%Z).

Lemma fit_contract_rated (hn : HypernodeID) (st : State R Rng)
  (rating : Rating R) (st1 : State R Rng) :
  inv st -> weights_fit (hg st) -> nodeIsEnabled (hg st) hn = true ->
  rate' hn st = Ok (rating, st1) ->
  weights_fit (hg (contract_rated hn rating st1)) /\
  exists new,
    events (contract_rated hn rating st1) = events st ++ new /\
    sums_below new.
Proof.
  intros Hinv Hfit Hen Hrate.
  destruct (rate_keeps _ _ _ _ _ Hrate) as (Hh & _ & _ & _ & Hev).
  unfold contract_rated.
  destruct (target rating =? kInvalidTarget) eqn:Ht; simpl.
  - split; [now rewrite Hh|]. exists []. rewrite app_nil_r.
    split; [exact Hev | intros h u v []].
  - assert (Hok : ev_ok (EvContract (hg st) hn (target rating)))
      by (eapply rated_target_ok; eauto).
    destruct Hok as (Huv & Hu & Hv & _ & _ & Hbelow).
    pose proof (weights_fit_pair (inv_wf Hinv) Hfit Hu Hv Huv) as Hsum.
    rewrite Hh, Hev. split.
    + apply weights_fit_contract; auto. apply (inv_wf Hinv).
    + exists [EvContract (hg st) hn (target rating);
              EvContractionFunc hn (target rating)].
      rewrite <- app_assoc. split; [reflexivity|].
      intros h u v [E|[E|[]]]; inversion E; subst.
      unfold belowThresholdNodeWeight in Hbelow. apply Z.leb_le in Hbelow.
      rewrite weight_add_comm, (weight_add_fits Hsum) in Hbelow.
      exact Hbelow.
Qed.

Lemma fit_coarsen_nodes (limit : HypernodeID) (hns : list HypernodeID) :
  forall st st' : State R Rng,
    inv st -> weights_fit (hg st) ->
    coarsen_nodes' limit hns st = Ok st' ->
    weights_fit (hg st') /\
    exists new, events st' = events st ++ new /\ sums_below new.
Proof.
  induction hns as [|hn rest IH]; intros st st' Hinv Hfit; simpl.
  - intros E. inversion E; subst. split; [exact Hfit|].
    exists []. rewrite app_nil_r. split; [reflexivity | intros h u v []].
  - destruct (nodeIsEnabled (hg st) hn) eqn:Hen; [|now apply IH].
    destruct (rate _ _ _ hn _) as [[rating st1]|] eqn:Hrate; simpl;
      [|discriminate].
    assert (Hinv0 : inv (log st (EvRate (hg st) hn))).
    { apply inv_log; [exact Hinv | exact Hen | reflexivity |].
      intros x <-. exact Hen. }
    assert (F1 : weights_fit (hg (contract_rated hn rating st1)) /\
                 exists new,
                   events (contract_rated hn rating st1)
                   = events (log st (EvRate (hg st) hn)) ++ new /\
                   sums_below new)
      by (eapply fit_contract_rated; eauto).
    destruct F1 as (Hfit1 & new1 & E1 & B1).
    simpl in E1. rewrite <- app_assoc in E1.
    assert (B1' : sums_below (EvRate (hg st) hn :: new1)).
    { intros h u v [E|Hin]; [discriminate | eauto]. }
    destruct (_ <=? limit).
    + intros E. inversion E; subst. split; [exact Hfit1|]. eauto.
    + intros E. apply IH in E; [| |exact Hfit1].
      * destruct E as (Hfit2 & new2 & E2 & B2). split; [exact Hfit2|].
        exists ((EvRate (hg st) hn :: new1) ++ new2).
        rewrite E2, E1, <- app_assoc. split; [reflexivity|].
        intros h u v Hin. apply in_app_or in Hin. destruct Hin; eauto.
      * eapply inv_contract_rated; [exact Hinv0 | exact Hen | exact Hrate].
Qed.

Lemma fit_coarsen_pass (limit : HypernodeID) (st st' : State R Rng) :
  inv st -> weights_fit (hg st) ->
  coarsen_pass' limit st = Ok st' ->
  weights_fit (hg st') /\
  exists new, events st' = events st ++ new /\ sums_below new.
Proof.
  intros Hinv Hfit. unfold coarsen_pass.
  destruct (shuffleVector _ _) as [hns g].
  destruct (coarsen_nodes _ _ _ _ _ _) as [st1|] eqn:E; simpl; [|discriminate].
  intros H. inversion H; subst. apply fit_coarsen_nodes in E.
  - destruct E as (Hfit1 & new & E1 & B1). simpl in E1.
    split; [exact Hfit1|]. exists (new ++ [EvEndOfPass]). simpl.
    rewrite E1, <- app_assoc. split; [reflexivity|].
    intros h u v Hin. apply in_app_or in Hin.
    destruct Hin as [Hin|[Hin|[]]]; [eauto | discriminate].
  - apply inv_ext with (st := st); auto.
  - exact Hfit.
Qed.

Lemma fit_coarsen_loop (fuel : nat) (limit : HypernodeID) :
  forall st st' : State R Rng,
    inv st -> weights_fit (hg st) ->
    coarsen_loop' fuel limit st = Some (Ok st') ->
    exists new, events st' = events st ++ new /\ sums_below new.
Proof.
  induction fuel as [|fuel IH]; intros st st' Hinv Hfit; simpl;
    [discriminate|].
  destruct (limit <? _).
  - destruct (coarsen_pass _ _ _ _ _) as [st1|] eqn:E; [|discriminate].
    assert (Hinv1 : inv st1) by (eapply inv_coarsen_pass; eauto).
    assert (F1 : weights_fit (hg st1) /\
                 exists new, events st1 = events st ++ new /\ sums_below new)
      by (eapply fit_coarsen_pass; eauto).
    destruct F1 as (Hfit1 & new1 & E1 & B1).
    destruct (_ =? _).
    + intros H. inversion H; subst. eauto.
    + intros H. apply IH in H; [|exact Hinv1|exact Hfit1].
      destruct H as (new2 & E2 & B2). exists (new1 ++ new2).
      rewrite E2, E1, <- app_assoc. split; [reflexivity|].
      intros h u v Hin. apply in_app_or in Hin. destruct Hin; eauto.
  - intros H. inversion H; subst. exists []. rewrite app_nil_r.
    split; [reflexivity | intros h u v []].
Qed.


End CoarsenerInvariant.

(** ** The passes of a coarsening run *)

Section CoarsenerRun.

Context `{W : IdWidth} `{WW : WeightWidth} {R Rng : Type}.
Context `{RO : RatingOps R} `{NP : NodeWeightPenalty R}.
Context `{AP : AcceptancePolicy R Rng} `{RZ : Randomize Rng}.
Variable max_allowed_node_weight : HypernodeWeight.
Variable comm : HypernodeID -> ClusterID.
Variable assertions : bool.

(** The operations at the parameters of the section. *)
Abbreviation rate' := (rate max_allowed_node_weight comm assertions).
Abbreviation coarsen_nodes' :=
  (coarsen_nodes max_allowed_node_weight comm assertions).
Abbreviation coarsen_pass' :=
  (coarsen_pass max_allowed_node_weight comm assertions).
Abbreviation coarsen_loop' :=
  (coarsen_loop max_allowed_node_weight comm assertions).
Abbreviation coarsenImpl' :=
  (coarsenImpl max_allowed_node_weight comm assertions).
Abbreviation inv :=
  (coarsening_inv (R:=R) (Rng:=Rng) max_allowed_node_weight comm).
Abbreviation count st := (currentNumNodes (hg st)).

(** The live vertex count never grows. *)
Lemma contract_rated_count_le (hn : HypernodeID) (rating : Rating R)
  (st : State R Rng) :
  count (contract_rated hn rating st) <= count st.
Proof.
  unfold contract_rated. destruct (negb _); [|lia].
  simpl. apply currentNumNodes_contract_le.
Qed.

Lemma coarsen_nodes_count_le (limit : HypernodeID) (hns : list HypernodeID)
  (st st' : State R Rng) :
  coarsen_nodes' limit hns st = Ok st' -> count st' <= count st.
Proof.
  revert st. induction hns as [|hn rest IH]; intros st; simpl.
  - intros E. inversion E; subst. lia.
  - destruct (nodeIsEnabled (hg st) hn); [|apply IH].
    destruct (rate _ _ _ hn _) as [[rating st1]|] eqn:Hrate; simpl; [|discriminate].
    destruct (rate_keeps _ _ _ _ _ Hrate) as (Hh & _).
    assert (Hle : count (contract_rated hn rating st1) <= count st).
    { eapply N.le_trans; [apply contract_rated_count_le|].
      rewrite Hh. apply N.le_refl. }
    destruct (_ <=? limit).
    + intros E. inversion E; subst. exact Hle.
    + intros E. apply IH in E. eapply N.le_trans; eassumption.
Qed.

Lemma coarsen_pass_count_le (limit : HypernodeID) (st st' : State R Rng) :
  coarsen_pass' limit st = Ok st' -> count st' <= count st.
Proof.
  unfold coarsen_pass. destruct (shuffleVector _ _) as [hns g].
  destruct (coarsen_nodes _ _ _ _ _ _) as [st1|] eqn:E; simpl; [|discriminate].
  intros H. inversion H; subst. apply coarsen_nodes_count_le in E. exact E.
Qed.

(** The loop of [coarsenImpl] ends: with more fuel than live vertices it
    returns, and what it returns does not depend on the fuel. *)
Lemma coarsen_loop_enough_fuel (limit : HypernodeID) (n : nat) :
  forall st : State R Rng,
    (N.to_nat (count st) <= n)%nat ->
    exists r, forall fuel,
      (N.to_nat (count st) < fuel)%nat -> coarsen_loop' fuel limit st = Some r.
Proof.
  induction n as [|n IH]; intros st Hn.
  - exists (Ok st). intros [|fuel] Hf; [lia|]. simpl.
    destruct (N.ltb_spec limit (count st)) as [Hlt|_]; [lia | reflexivity].
  - destruct (N.ltb_spec limit (count st)) as [Hlt|Hge].
    + destruct (coarsen_pass' limit st) as [st1|] eqn:E.
      * pose proof (coarsen_pass_count_le _ _ E) as Hle.
        destruct (N.eqb_spec (count st) (count st1)) as [Heq|Hne].
        -- exists (Ok st1). intros [|fuel] Hf; [lia|]. simpl.
           apply N.ltb_lt in Hlt. rewrite Hlt, E.
           apply N.eqb_eq in Heq. now rewrite Heq.
        -- destruct (IH st1) as [r Hr]; [lia|].
           exists r. intros [|fuel] Hf; [lia|]. simpl.
           apply N.ltb_lt in Hlt. rewrite Hlt, E.
           rewrite (proj2 (N.eqb_neq _ _) Hne). apply Hr. lia.
      * exists AssertionFailed. intros [|fuel] Hf; [lia|]. simpl.
        apply N.ltb_lt in Hlt. now rewrite Hlt, E.
    + exists (Ok st). intros [|fuel] Hf; [lia|]. simpl.
      apply N.ltb_ge in Hge. now rewrite Hge.
Qed.

(** Why the loop has stopped. *)
Lemma coarsen_loop_stops (fuel : nat) (limit : HypernodeID)
  (st st' : State R Rng) :
  coarsen_loop' fuel limit st = Some (Ok st') ->
  count st' <= limit \/
  exists s0, coarsen_pass' limit s0 = Ok st' /\ count st' = count s0.
Proof.
  revert st. induction fuel as [|fuel IH]; intros st; simpl; [discriminate|].
  destruct (N.ltb_spec limit (count st)) as [Hlt|Hge].
  - destruct (coarsen_pass' limit st) as [st1|] eqn:E; [|discriminate].
    destruct (N.eqb_spec (count st) (count st1)) as [Heq|Hne].
    + intros H. inversion H; subst. right. exists st. auto.
    + apply IH.
  - intros H. inversion H; subst. now left.
Qed.

(** Events and history of the passes. *)
Lemma contract_rated_passes (hn : HypernodeID) (rating : Rating R)
  (st : State R Rng) :
  passes (events (contract_rated hn rating st)) = passes (events st).
Proof.
  unfold contract_rated. destruct (negb _); [|reflexivity].
  simpl. rewrite !passes_app. simpl. lia.
Qed.

Lemma coarsen_nodes_passes (limit : HypernodeID) (hns : list HypernodeID)
  (st st' : State R Rng) :
  coarsen_nodes' limit hns st = Ok st' ->
  passes (events st') = passes (events st).
Proof.
  revert st. induction hns as [|hn rest IH]; intros st; simpl.
  - intros E. now inversion E.
  - destruct (nodeIsEnabled (hg st) hn); [|apply IH].
    destruct (rate _ _ _ hn _) as [[rating st1]|] eqn:Hrate; simpl; [|discriminate].
    destruct (rate_keeps _ _ _ _ _ Hrate) as (_ & _ & _ & _ & He).
    pose proof (contract_rated_passes hn rating st1) as Hp.
    rewrite He in Hp. simpl in Hp. rewrite passes_app in Hp. simpl in Hp.
    destruct (_ <=? limit).
    + intros E. inversion E; subst. lia.
    + intros E. apply IH in E. lia.
Qed.

Lemma coarsen_pass_passes (limit : HypernodeID) (st st' : State R Rng) :
  coarsen_pass' limit st = Ok st' -> passes (events st') = passes (events st) + 1.
Proof.
  unfold coarsen_pass. destruct (shuffleVector _ _) as [hns g].
  destruct (coarsen_nodes _ _ _ _ _ _) as [st1|] eqn:E; simpl; [|discriminate].
  intros H. inversion H; subst. apply coarsen_nodes_passes in E.
  simpl in *. rewrite passes_app, E. reflexivity.
Qed.

Lemma coarsen_loop_passes (fuel : nat) (limit : HypernodeID)
  (st st' : State R Rng) :
  coarsen_loop' fuel limit st = Some (Ok st') ->
  passes (events st') <= passes (events st) + count st.
Proof.
  revert st. induction fuel as [|fuel IH]; intros st; simpl; [discriminate|].
  destruct (N.ltb_spec limit (count st)) as [Hlt|Hge].
  - destruct (coarsen_pass' limit st) as [st1|] eqn:E; [|discriminate].
    pose proof (coarsen_pass_count_le _ _ E) as Hle.
    pose proof (coarsen_pass_passes _ _ E) as Hp.
    destruct (N.eqb_spec (count st) (count st1)) as [Heq|Hne].
    + intros H. inversion H; subst. lia.
    + intros H. apply IH in H. lia.
  - intros H. inversion H; subst. lia.
Qed.

(** Under the invariant every contraction removes exactly one live vertex. *)
Lemma contract_rated_exact (hn : HypernodeID) (st : State R Rng)
  (rating : Rating R) (st1 : State R Rng) :
  inv st -> nodeIsEnabled (hg st) hn = true ->
  rate' hn st = Ok (rating, st1) ->
  exists new,
    history (contract_rated hn rating st1) = history st ++ new /\
    count (contract_rated hn rating st1) + N.of_nat (length new) = count st.
Proof.
  intros Hinv Hen Hrate.
  destruct (rate_keeps _ _ _ _ _ Hrate) as (Hh & _ & _ & Hhist & _).
  unfold contract_rated.
  destruct (target rating =? kInvalidTarget) eqn:Ht; simpl.
  - exists []. rewrite app_nil_r, Hhist, Hh. split; [reflexivity | simpl; lia].
  - exists [{| m_u := hn; m_v := target rating |}].
    rewrite Hhist, Hh. split; [reflexivity|].
    pose proof (rated_target_ok _ _ Hinv Hen Hrate Ht) as (_ & _ & Hv & _).
    pose proof (currentNumNodes_contract hn (target rating) (inv_wf Hinv) Hv).
    simpl. lia.
Qed.

Lemma coarsen_nodes_exact (limit : HypernodeID) (hns : list HypernodeID)
  (st st' : State R Rng) :
  inv st -> coarsen_nodes' limit hns st = Ok st' ->
  exists new,
    history st' = history st ++ new /\
    count st' + N.of_nat (length new) = count st.
Proof.
  revert st. induction hns as [|hn rest IH]; intros st Hinv; simpl.
  - intros E. inversion E; subst. exists []. rewrite app_nil_r. simpl.
    split; [reflexivity | lia].
  - destruct (nodeIsEnabled (hg st) hn) eqn:Hen; [|now apply IH].
    destruct (rate _ _ _ hn _) as [[rating st1]|] eqn:Hrate; simpl; [|discriminate].
    assert (Hinv0 : inv (log st (EvRate (hg st) hn))).
    { apply inv_log; [exact Hinv | exact Hen | reflexivity |].
      intros x <-. exact Hen. }
    destruct (contract_rated_exact hn Hinv0 Hen Hrate) as (new1 & Hh1 & Hc1).
    simpl in Hh1, Hc1.
    destruct (_ <=? limit).
    + intros E. inversion E; subst. exists new1. auto.
    + intros E. apply IH in E.
      * destruct E as (new2 & Hh2 & Hc2). exists (new1 ++ new2).
        rewrite Hh2, Hh1, app_assoc, length_app. split; [reflexivity | lia].
      * eapply inv_contract_rated; [exact Hinv0 | exact Hen | exact Hrate].
Qed.

Lemma coarsen_pass_exact (limit : HypernodeID) (st st' : State R Rng) :
  inv st -> coarsen_pass' limit st = Ok st' ->
  exists new,
    history st' = history st ++ new /\
    count st' + N.of_nat (length new) = count st.
Proof.
  intros Hinv. unfold coarsen_pass. destruct (shuffleVector _ _) as [hns g].
  destruct (coarsen_nodes _ _ _ _ _ _) as [st1|] eqn:E; simpl; [|discriminate].
  intros H. inversion H; subst. apply coarsen_nodes_exact in E.
  - exact E.
  - apply inv_ext with (st := st); auto.
Qed.

(** A pass that leaves the live vertex count as it was ends the loop
    normally. *)
Lemma coarsen_loop_stall (fuel : nat) (limit : HypernodeID)
  (st st' : State R Rng) :
  limit < count st -> coarsen_pass' limit st = Ok st' -> count st' = count st ->
  coarsen_loop' (S fuel) limit st = Some (Ok st').
Proof.
  intros Hlt Hpass Hc. simpl. apply N.ltb_lt in Hlt.
  rewrite Hlt, Hpass, Hc, N.eqb_refl. reflexivity.
Qed.

(** C4. [coarsenImpl(limit)] terminates: the loop returns with any fuel above
    the live vertex count, whatever it was given.  When it returns normally
    the live vertex count is at most [limit], or the last pass left it
    unchanged, and it has ended at most as many passes as there were live
    vertices.  A pass that leaves the count unchanged ends the loop normally.
    A pass, in a run on a well-formed hypergraph, removes one live vertex per
    contraction, so a pass with a contraction decreases the count. *)
Theorem coarsen_terminates (limit : HypernodeID) (st : State R Rng) :
  (exists r,
     coarsenImpl max_allowed_node_weight comm assertions limit st = Some r /\
     forall fuel,
       (N.to_nat (currentNumNodes (hg st)) < fuel)%nat ->
       coarsen_loop max_allowed_node_weight comm assertions fuel limit st
       = Some r) /\
  (forall st',
     coarsenImpl max_allowed_node_weight comm assertions limit st
     = Some (Ok st') ->
     (currentNumNodes (hg st') <= limit \/
      exists s0,
        coarsen_pass max_allowed_node_weight comm assertions limit s0 = Ok st' /\
        currentNumNodes (hg st') = currentNumNodes (hg s0)) /\
     passes (events st') <= passes (events st) + currentNumNodes (hg st)) /\
  (forall s s' fuel,
     limit < currentNumNodes (hg s) ->
     coarsen_pass max_allowed_node_weight comm assertions limit s = Ok s' ->
     currentNumNodes (hg s') = currentNumNodes (hg s) ->
     coarsen_loop max_allowed_node_weight comm assertions (S fuel) limit s
     = Some (Ok s')) /\
  (forall s s',
     coarsening_inv max_allowed_node_weight comm s ->
     coarsen_pass max_allowed_node_weight comm assertions limit s = Ok s' ->
     exists new,
       history s' = history s ++ new /\
       currentNumNodes (hg s') + N.of_nat (length new) = currentNumNodes (hg s) /\
       (new <> [] -> currentNumNodes (hg s') < currentNumNodes (hg s))).
Proof.
  split; [|split; [|split]].
  - destruct (@coarsen_loop_enough_fuel limit (N.to_nat (count st)) st
                (Nat.le_refl _)) as [r Hr].
    exists r. split; [|exact Hr]. apply Hr. lia.
  - intros st' Hrun. split.
    + eapply coarsen_loop_stops; exact Hrun.
    + eapply coarsen_loop_passes; exact Hrun.
  - intros s s' fuel. apply coarsen_loop_stall.
  - intros s s' Hinv Hpass.
    destruct (coarsen_pass_exact _ Hinv Hpass) as (new & Hh & Hc).
    exists new. repeat split; auto. intros Hnew.
    destruct new; [congruence | simpl in Hc; lia].
Qed.

End CoarsenerRun.

(** ** Replaying contractions *)

Section Replay.

Context `{W : IdWidth} `{WW : WeightWidth} {R Rng : Type}.
Variable assertions : bool.

Lemma replay_events_no_rating (h : Hypergraph) (ms : list Memento) :
  Forall (fun ev => exists u v,
            (exists h', ev = EvContract h' u v) \/ ev = EvContractionFunc u v)
         (replay_events h ms).
Proof.
  revert h. induction ms as [|m rest IH]; intros h; simpl.
  - constructor.
  - constructor; [|constructor; [|apply IH]].
    + exists (m_u m), (m_v m). left. now exists h.
    + exists (m_u m), (m_v m). now right.
Qed.

Lemma simulateContractions_fails (ms : list Memento) (st : State R Rng) :
  simulateContractions assertions ms st = AssertionFailed <->
  assertions = true /\ replay_enabled (hg st) ms = false.
Proof.
  revert st. induction ms as [|m rest IH]; intros st; simpl.
  - split; [discriminate | intros [_ H]; discriminate].
  - unfold ASSERT. destruct assertions; simpl.
    + destruct (nodeIsEnabled (hg st) (m_u m)); simpl; [|tauto].
      destruct (nodeIsEnabled (hg st) (m_v m)); simpl; [|tauto].
      rewrite IH. reflexivity.
    + rewrite IH. split; intros [H _]; discriminate.
Qed.

Lemma simulateContractions_ok (ms : list Memento) (st st' : State R Rng) :
  simulateContractions assertions ms st = Ok st' ->
  hg st' = replay (hg st) ms /\
  history st' = history st ++ ms /\
  events st' = events st ++ replay_events (hg st) ms /\
  tmp_ratings st' = tmp_ratings st /\
  already_matched st' = already_matched st /\
  rng st' = rng st.
Proof.
  revert st. induction ms as [|m rest IH]; intros st; simpl.
  - intros E. inversion E; subst. rewrite !app_nil_r. repeat split.
  - destruct (ASSERT assertions (nodeIsEnabled (hg st) (m_u m))); simpl;
      [|discriminate].
    destruct (ASSERT assertions (nodeIsEnabled (hg st) (m_v m))); simpl;
      [|discriminate].
    intros E. apply IH in E. simpl in E.
    destruct E as (Hh & Hhist & Hev & Ht & Hm & Hg).
    rewrite Hh, Hhist, Hev, <- !app_assoc. simpl. destruct m. repeat split; auto.
Qed.


End Replay.

(** ** A pass in which no pair can be contracted *)

Section Stall.

Context `{W : IdWidth} `{WW : WeightWidth} {R Rng : Type}.
Context `{RO : RatingOps R} `{NP : NodeWeightPenalty R}.
Context `{AP : AcceptancePolicy R Rng} `{RZ : Randomize Rng}.
Variable max_allowed_node_weight : HypernodeWeight.
Variable comm : HypernodeID -> ClusterID.
Variable assertions : bool.

Lemma coarsen_nodes_stall (limit : HypernodeID) (hns : list HypernodeID) :
  forall st : State R Rng,
    wf (hg st) -> tmp_ratings st = [] ->
    no_candidate max_allowed_node_weight (hg st) -> rate_cannot_fail assertions (hg st) ->
    limit < currentNumNodes (hg st) ->
    exists st',
      coarsen_nodes max_allowed_node_weight comm assertions limit hns st = Ok st' /\
      hg st' = hg st /\ tmp_ratings st' = [] /\ history st' = history st /\
      passes (events st') = passes (events st).
Proof.
  induction hns as [|hn rest IH]; intros st Hwf Hempty Hnone Hok Hlimit; simpl.
  - exists st. auto.
  - destruct (nodeIsEnabled (hg st) hn) eqn:Hen; [|now apply IH].
    set (st0 := log st (EvRate (hg st) hn)).
    assert (Hret : exists r st1,
      rate max_allowed_node_weight comm assertions hn st0 = Ok (r, st1)).
    { apply rate_returns.
      - apply wf_ids_representable, Hwf.
      - exact Hempty.
      - destruct Hok as [Ha|Hsize]; [now left | right]. intros e. apply Hsize. }
    destruct Hret as (r & st1 & Hrate). rewrite Hrate. simpl.
    assert (Hr : r = default_rating).
    { eapply rate_no_candidate; [| | exact Hrate]; [exact Hempty|].
      intros e v. now apply Hnone. }
    subst r.
    destruct (rate_keeps _ _ _ _ _ Hrate) as (Hh & _ & Ht & Hhist & Hev).
    unfold contract_rated. cbn [target default_rating]. unfold kInvalidTarget.
    rewrite N.eqb_refl. simpl in *. rewrite Hh.
    apply N.leb_gt in Hlimit as Hb. rewrite Hb.
    destruct (IH st1) as (st' & Hrun & Hh' & Ht' & Hhist' & Hp');
      try rewrite Hh; auto.
    exists st'. rewrite Hrun, Hh', Hhist', Hp', Hh, Hhist, Hev, passes_app.
    simpl. repeat split; auto. lia.
Qed.

(** A pass without a candidate leaves the hypergraph as it was, and the loop
    of [coarsenImpl] stops after it. *)
Lemma coarsen_stall (limit : HypernodeID) (st : State R Rng) :
  wf (hg st) -> tmp_ratings st = [] ->
  no_candidate max_allowed_node_weight (hg st) -> rate_cannot_fail assertions (hg st) ->
  limit < currentNumNodes (hg st) ->
  exists st',
    coarsenImpl max_allowed_node_weight comm assertions limit st = Some (Ok st') /\
    coarsen_pass max_allowed_node_weight comm assertions limit st = Ok st' /\
    hg st' = hg st /\ history st' = history st /\
    passes (events st') = passes (events st) + 1.
Proof.
  intros Hwf Hempty Hnone Hok Hlimit.
  assert (Hpass : exists st',
    coarsen_pass max_allowed_node_weight comm assertions limit st = Ok st' /\
    hg st' = hg st /\ history st' = history st /\
    passes (events st') = passes (events st) + 1).
  { unfold coarsen_pass. destruct (shuffleVector _ _) as [hns g].
    destruct (@coarsen_nodes_stall limit hns
                (set_rng (resetMatches st) g))
      as (st1 & Hrun & Hh & _ & Hhist & Hp); auto.
    rewrite Hrun. simpl. exists (end_of_pass_func st1).
    simpl in *. rewrite passes_app, Hp. auto. }
  destruct Hpass as (st' & Hpass & Hh & Hhist & Hp).
  exists st'. repeat split; auto.
  unfold coarsenImpl. simpl.
  apply N.ltb_lt in Hlimit. rewrite Hlimit, Hpass, Hh, N.eqb_refl. reflexivity.
Qed.

End Stall.

Section TwoVertices.

Context `{W : IdWidth} `{WW : WeightWidth} {R Rng : Type}.
Context `{RO : RatingOps R} `{NP : NodeWeightPenalty R}.
Context `{AP : AcceptancePolicy R Rng} `{RZ : Randomize Rng}.
Variable comm : HypernodeID -> ClusterID.
Variable assertions : bool.

Lemma two_unit_vertices_no_candidate (h : Hypergraph) (a b : HypernodeID) :
  wf h -> nodes h = [a; b] ->
  nodeWeight h a = 1%Z -> nodeWeight h b = 1%Z ->
  no_candidate 1%Z h.
Proof.
  intros Hwf Hnodes Ha Hb u e v Hu He Hv.
  assert (Hin : forall x, nodeIsEnabled h x = true -> x = a \/ x = b).
  { intros x Hx. assert (H : In x (nodes h)).
    { apply nodes_In. split; [exact Hx | apply (wf_enabled Hwf), Hx]. }
    rewrite Hnodes in H. simpl in H. intuition congruence. }
  apply (wf_pins_enabled Hwf) in Hv.
  unfold admissible, belowThresholdNodeWeight.
  destruct (N.eqb_spec v u) as [_|_]; [reflexivity|]. simpl.
  destruct (Hin u Hu) as [-> | ->], (Hin v Hv) as [-> | ->];
    rewrite ?Ha, ?Hb, weight_add_units; reflexivity.
Qed.

(** C8. With the threshold at 1 and a hypergraph of two enabled vertices of
    weight 1, [rate] returns the invalid rating for both, and
    [coarsenImpl(limit)], for a limit below 2, stops after one pass that
    contracts nothing: the hypergraph and its two live vertices are as
    before. *)
Theorem two_unit_vertices_stall (h : Hypergraph) (a b : HypernodeID)
  (g : Rng) (limit : HypernodeID) :
  wf h -> nodes h = [a; b] ->
  nodeWeight h a = 1%Z -> nodeWeight h b = 1%Z ->
  rate_cannot_fail assertions h ->
  limit < 2 ->
  (forall u (st : State R Rng),
     In u [a; b] -> hg st = h -> tmp_ratings st = [] ->
     exists st', rate 1%Z comm assertions u st = Ok (default_rating, st')) /\
  exists st',
    coarsenImpl 1%Z comm assertions limit (initial_state h g) = Some (Ok st') /\
    coarsen_pass 1%Z comm assertions limit (initial_state h g) = Ok st' /\
    hg st' = h /\ currentNumNodes (hg st') = 2 /\
    history st' = [] /\ passes (events st') = 1.
Proof.
  intros Hwf Hnodes Ha Hb Hok Hlimit.
  pose proof (two_unit_vertices_no_candidate Hwf Hnodes Ha Hb) as Hnone.
  assert (Hcount : currentNumNodes h = 2).
  { unfold currentNumNodes. now rewrite Hnodes. }
  split.
  - intros u st Hu Hh Hempty. subst h.
    assert (Hret : exists r st', rate 1%Z comm assertions u st = Ok (r, st')).
    { apply rate_returns.
      - apply wf_ids_representable, Hwf.
      - exact Hempty.
      - destruct Hok as [Hf|Hsize]; [now left | right]. intros e. apply Hsize. }
    destruct Hret as (r & st' & Hrate). exists st'. rewrite Hrate. f_equal. f_equal.
    eapply rate_no_candidate; [| | exact Hrate]; [exact Hempty|].
    intros e v. apply Hnone.
    assert (H : In u (nodes (hg st))) by now rewrite Hnodes.
    now apply nodes_In in H.
  - assert (Hstall : exists st',
      coarsenImpl 1%Z comm assertions limit (initial_state h g) = Some (Ok st') /\
      coarsen_pass 1%Z comm assertions limit (initial_state h g) = Ok st' /\
      hg st' = hg (initial_state (R:=R) h g) /\
      history st' = history (initial_state (R:=R) h g) /\
      passes (events st') = passes (events (initial_state (R:=R) h g)) + 1).
    { apply coarsen_stall; simpl; auto. now rewrite Hcount. }
    destruct Hstall as (st' & Hrun & Hpass & Hh & Hhist & Hp).
    exists st'. simpl in *. rewrite Hh. repeat split; auto.
Qed.

End TwoVertices.

(** * Further properties of the rater *)

Section RaterProperties.

Context `{W : IdWidth} `{WW : WeightWidth} {R Rng : Type}.
Context `{RO : RatingOps R} `{NP : NodeWeightPenalty R}.
Context `{AP : AcceptancePolicy R Rng}.
Variable max_allowed_node_weight : HypernodeWeight.
Variable comm : HypernodeID -> ClusterID.
Variable assertions : bool.

(** The operations at the parameters of the section. *)
Abbreviation rate' := (rate max_allowed_node_weight comm assertions).
Abbreviation rate_edges' := (rate_edges max_allowed_node_weight assertions).
Abbreviation admissible' := (admissible max_allowed_node_weight).

(** The scan leaves its arguments as they are when every entry is of another
    community than [u]: the acceptance policy is not asked. *)
Lemma rate_select_other_community (h : Hypergraph) (u : HypernodeID)
  (matched : FlagArray) (entries : list (HypernodeID * R)) (mr : R)
  (t : HypernodeID) (g : Rng) :
  (forall k x, In (k, x) entries -> comm u <> comm k) ->
  rate_select comm h u matched entries mr t g = (mr, t, g).
Proof.
  induction entries as [|[k x] rest IH]; intros Hc; simpl.
  - reflexivity.
  - destruct (Z.eqb_spec (comm u) (comm k)) as [E|_].
    + exfalso. apply (Hc k x); [now left | exact E].
    + apply IH. intros k' x' Hin. apply (Hc k' x'). now right.
Qed.

(** X1. From an empty accumulator, on a hypergraph whose pins are vertex
    ids, the only assertion of [rate(u)] that can fail is the one on the size
    of the incident hyperedges: the three assertions on the returned rating
    always hold. *)
Theorem rate_fails_iff (u : HypernodeID) (st : State R Rng) :
  ids_representable (hg st) ->
  tmp_ratings st = [] ->
  rate max_allowed_node_weight comm assertions u st = AssertionFailed <->
  assertions = true /\
  exists e, In e (incidentEdges (hg st) u) /\ edgeSize (hg st) e <= 1.
Proof.
  intros Hids Hempty.
  destruct (rate_edges' (hg st) u (incidentEdges (hg st) u) (tmp_ratings st))
    as [tmp|] eqn:E.
  - destruct (rate_select comm (hg st) u (already_matched st) (rev tmp)
                r_min uint_max (rng st)) as [[mr t] g] eqn:S.
    assert (Hok : rate' u st
                  = Ok (rating_of mr t, set_rng (set_tmp_ratings st []) g)).
    { eapply rate_ok; [exact E | exact S |].
      intros _. rewrite Hempty in E. eapply scan_final_asserts; eauto. }
    split.
    + rewrite Hok. discriminate.
    + intros Hf.
      assert (F : rate_edges' (hg st) u (incidentEdges (hg st) u)
                    (tmp_ratings st) = AssertionFailed)
        by (apply rate_edges_fails; exact Hf).
      rewrite F in E. discriminate.
  - split.
    + intros _. now apply rate_edges_fails in E.
    + intros _. unfold rate. rewrite E. reflexivity.
Qed.

(** X2. The target of a valid rating shares a hyperedge with [u]; in a
    well-formed hypergraph it is an enabled vertex, below the initial number
    of vertices. *)
Theorem rate_target_is_neighbour (u : HypernodeID) (st : State R Rng)
  (r : Rating R) (st' : State R Rng) :
  tmp_ratings st = [] ->
  rate max_allowed_node_weight comm assertions u st = Ok (r, st') ->
  valid r = true ->
  (exists e, In e (incidentEdges (hg st) u) /\
             In (target r) (pins (hg st) e)) /\
  (wf (hg st) ->
   nodeIsEnabled (hg st) (target r) = true /\
   target r < initialNumNodes (hg st) /\
   In (target r) (nodes (hg st))).
Proof.
  intros Hempty Hrate Hvalid.
  destruct (rate_valid _ _ _ _ _ Hempty Hrate Hvalid)
    as (tmp & x & e & _ & _ & _ & _ & _ & _ & He & Hp & _).
  split; [now exists e|].
  intros Hwf.
  pose proof (wf_pins_enabled Hwf _ _ Hp) as Hen.
  pose proof (wf_enabled Hwf _ Hen) as Hlt.
  repeat split; auto. apply nodes_In. now split.
Qed.

(** X3. When no pin of a hyperedge incident to [u] is at once admissible and
    of the community of [u] (so, when [u] has no incident hyperedge), and the
    assertion on the sizes cannot fail, [rate(u)] returns the invalid rating
    and leaves the state, the random source included, as it was. *)
Theorem rate_without_candidate (u : HypernodeID) (st : State R Rng) :
  tmp_ratings st = [] ->
  (forall e v, In e (incidentEdges (hg st) u) -> In v (pins (hg st) e) ->
     admissible max_allowed_node_weight (hg st) u v = true ->
     comm u <> comm v) ->
  (assertions = false \/
   forall e, In e (incidentEdges (hg st) u) -> 1 < edgeSize (hg st) e) ->
  rate max_allowed_node_weight comm assertions u st = Ok (default_rating, st).
Proof.
  intros Hempty Hnone Hsize.
  destruct (rate_edges' (hg st) u (incidentEdges (hg st) u) (tmp_ratings st))
    as [tmp|] eqn:E.
  - assert (S : rate_select comm (hg st) u (already_matched st) (rev tmp)
                  r_min uint_max (rng st) = (r_min, uint_max, rng st)).
    { apply rate_select_other_community. intros k x Hin.
      apply in_rev in Hin.
      assert (Hk : In k (sm_keys tmp)).
      { change k with (fst (k, x)). now apply in_map. }
      rewrite Hempty in E.
      apply (rate_edges_keys _ _ _ _ _ _ k E) in Hk.
      destruct Hk as [[]|(e & He & Hp & Ha)]. eauto. }
    assert (Hok : rate' u st
                  = Ok (rating_of r_min uint_max,
                        set_rng (set_tmp_ratings st []) (rng st))).
    { eapply rate_ok; [exact E | exact S |].
      intros _ Hneb. unfold r_neb in Hneb.
      now rewrite r_eqb_min in Hneb. }
    rewrite Hok. unfold rating_of, r_neb. rewrite r_eqb_min. simpl.
    destruct st; simpl in *; subst; reflexivity.
  - apply rate_edges_fails in E. destruct E as (Ha & e & He & Hle).
    destruct Hsize as [Hf|Hs]; [congruence|].
    apply Hs in He. lia.
Qed.

(** X4. In a well-formed hypergraph the candidates of the edge loop are
    mutual: [v] gets an entry in the accumulator of [rate(u)] exactly when
    [u] gets one in the accumulator of [rate(v)]. *)
Theorem rate_candidates_mutual (h : Hypergraph) (u v : HypernodeID)
  (tmp_u tmp_v : SparseMap R) :
  wf h -> nodeIsEnabled h u = true -> nodeIsEnabled h v = true ->
  rate_edges max_allowed_node_weight assertions h u (incidentEdges h u) []
  = Ok tmp_u ->
  rate_edges max_allowed_node_weight assertions h v (incidentEdges h v) []
  = Ok tmp_v ->
  In v (sm_keys tmp_u) <-> In u (sm_keys tmp_v).
Proof.
  intros Hwf Hu Hv Eu Ev.
  rewrite (rate_edges_keys _ _ _ _ _ _ v Eu), (rate_edges_keys _ _ _ _ _ _ u Ev).
  assert (Hsym : forall a b, nodeIsEnabled h a = true ->
            (exists e, In e (incidentEdges h a) /\ In b (pins h e) /\
                       admissible' h a b = true) ->
            exists e, In e (incidentEdges h b) /\ In a (pins h e) /\
                      admissible' h b a = true).
  { intros a b Ha (e & He & Hp & Hadm). exists e. repeat split.
    - now apply (wf_pins_incident Hwf).
    - now apply (wf_incident_pins Hwf).
    - apply admissible_spec in Hadm. apply admissible_spec.
      destruct Hadm as (Hne & Hw & Hpart). rewrite weight_add_comm.
      repeat split; auto. }
  split; (intros [[]|H]; right); eauto.
Qed.

End RaterProperties.

(** ** The parameters of the rater *)

Section RaterParameters.

Context `{W : IdWidth} `{WW : WeightWidth} {R Rng : Type}.
Context `{RO : RatingOps R} `{NP : NodeWeightPenalty R}.
Context `{AP : AcceptancePolicy R Rng}.
Variable assertions : bool.

Lemma admissible_threshold (t t' : HypernodeWeight) (h : Hypergraph)
  (u v : HypernodeID) :
  (t <= t')%Z -> admissible t h u v = true -> admissible t' h u v = true.
Proof.
  intros Hle Ha. apply admissible_spec in Ha. apply admissible_spec.
  destruct Ha as (Hne & Hw & Hp). repeat split; auto. lia.
Qed.

(** X5. Raising the node-weight threshold loses no candidate of the edge
    loop and changes the score of none: an entry of the accumulator under the
    lower threshold is an entry under the higher one. *)
Theorem rate_edges_threshold (t t' : HypernodeWeight) (h : Hypergraph)
  (u : HypernodeID) (tmp tmp' : SparseMap R) (v : HypernodeID) (x : R) :
  (t <= t')%Z ->
  (forall e, In e (incidentEdges h u) -> NoDup (pins h e)) ->
  rate_edges t assertions h u (incidentEdges h u) [] = Ok tmp ->
  rate_edges t' assertions h u (incidentEdges h u) [] = Ok tmp' ->
  sm_get tmp v = Some x -> sm_get tmp' v = Some x.
Proof.
  intros Hle Hnd E E' Hget.
  assert (G : sm_get tmp v
              = acc_score t h u v (incidentEdges h u) (sm_get [] v))
    by (eapply rate_edges_get; [exact Hnd | exact E]).
  assert (G' : sm_get tmp' v
               = acc_score t' h u v (incidentEdges h u) (sm_get [] v))
    by (eapply rate_edges_get; [exact Hnd | exact E']).
  simpl in G, G'.
  destruct (admissible t h u v) eqn:A.
  - pose proof (admissible_threshold _ _ _ Hle A) as A'.
    rewrite acc_score_sum in G by exact A.
    rewrite acc_score_sum in G' by exact A'.
    rewrite G'. rewrite <- G. exact Hget.
  - rewrite acc_score_inadmissible in G by exact A. congruence.
Qed.

(** The scan and [rate] read the labels through the test
    [_comm[u] == _comm[v]] only. *)
Lemma rate_select_labels (comm comm' : HypernodeID -> ClusterID)
  (h : Hypergraph) (u : HypernodeID) (matched : FlagArray)
  (entries : list (HypernodeID * R)) (mr : R) (t : HypernodeID) (g : Rng) :
  (forall v, (comm u =? comm v)%Z = (comm' u =? comm' v)%Z) ->
  rate_select comm h u matched entries mr t g
  = rate_select comm' h u matched entries mr t g.
Proof.
  intros Hc. revert mr t g.
  induction entries as [|[k x] rest IH]; intros mr t g; simpl.
  - reflexivity.
  - rewrite <- (Hc k). destruct (comm u =? comm k)%Z; [|apply IH].
    destruct (acceptRating _ mr t k matched g) as [[|] g1]; apply IH.
Qed.

Lemma rate_labels (max_allowed_node_weight : HypernodeWeight)
  (comm comm' : HypernodeID -> ClusterID) (u : HypernodeID)
  (st : State R Rng) :
  (forall v, (comm u =? comm v)%Z = (comm' u =? comm' v)%Z) ->
  rate max_allowed_node_weight comm assertions u st
  = rate max_allowed_node_weight comm' assertions u st.
Proof.
  intros Hc. unfold rate.
  destruct (rate_edges _ _ _ _ _ _) as [tmp|]; simpl; [|reflexivity].
  rewrite (rate_select_labels _ _ _ _ _ _ _ _ _ Hc).
  destruct (rate_select _ _ _ _ _ _ _ _) as [[mr t] g].
  destruct (r_neb mr r_min); [|reflexivity].
  destruct (ASSERT assertions (negb (t =? uint_max))); simpl; [|reflexivity].
  now rewrite (Hc t).
Qed.

(** X6. With community detection switched off, the constructor labels every
    vertex 0, and [rate] then behaves as with any labelling that puts all the
    vertices in one community: its community test rejects no candidate. *)
Theorem rate_without_community_detection
  (max_allowed_node_weight : HypernodeWeight)
  (detectCommunities : Hypergraph -> HypernodeID -> ClusterID)
  (comm' : HypernodeID -> ClusterID) (u : HypernodeID) (st : State R Rng) :
  (forall v, comm' v = comm' u) ->
  rate max_allowed_node_weight
    (HeavyEdgeRater_comm false detectCommunities (hg st)) assertions u st
  = rate max_allowed_node_weight comm' assertions u st.
Proof.
  intros Hone. apply rate_labels. intros v. simpl.
  rewrite (Hone v). now rewrite Z.eqb_refl.
Qed.

(** What a build with assertions returns, the build without them returns
    too. *)
Lemma rate_edges_unchecked (max_allowed_node_weight : HypernodeWeight)
  (h : Hypergraph) (u : HypernodeID) (es : list HyperedgeID)
  (tmp tmp' : SparseMap R) :
  rate_edges max_allowed_node_weight assertions h u es tmp = Ok tmp' ->
  rate_edges max_allowed_node_weight false h u es tmp = Ok tmp'.
Proof.
  revert tmp. induction es as [|e es IH]; intros tmp; simpl.
  - trivial.
  - destruct (ASSERT assertions (1 <? edgeSize h e)); simpl; [|discriminate].
    apply IH.
Qed.

Lemma rate_unchecked (max_allowed_node_weight : HypernodeWeight)
  (comm : HypernodeID -> ClusterID) (u : HypernodeID) (st : State R Rng)
  (p : Rating R * State R Rng) :
  rate max_allowed_node_weight comm assertions u st = Ok p ->
  rate max_allowed_node_weight comm false u st = Ok p.
Proof.
  destruct p as [r st']. intros Hrate. apply rate_inv in Hrate.
  destruct Hrate as (tmp & mr & t & g & E & S & -> & -> & _).
  eapply rate_ok; [| exact S | discriminate].
  eapply rate_edges_unchecked. exact E.
Qed.

End RaterParameters.

(** * Further properties of the coarsener *)

(** ** Readings of a concatenation *)

Lemma contractions_app (a b : list Event) :
  contractions (a ++ b) = contractions a ++ contractions b.
Proof.
  induction a as [|[] a IH]; simpl; congruence.
Qed.

Lemma contraction_calls_app (a b : list Event) :
  contraction_calls (a ++ b) = contraction_calls a ++ contraction_calls b.
Proof.
  induction a as [|[] a IH]; simpl; congruence.
Qed.

Lemma rated_vertices_app (a b : list Event) :
  rated_vertices (a ++ b) = rated_vertices a ++ rated_vertices b.
Proof.
  induction a as [|[] a IH]; simpl; congruence.
Qed.

Lemma replay_app `{WW : WeightWidth} (h : Hypergraph) (a b : list Memento) :
  replay h (a ++ b) = replay (replay h a) b.
Proof.
  revert h. induction a as [|m a IH]; intros h; simpl; [reflexivity | apply IH].
Qed.

Lemma replay_enabled_app `{WW : WeightWidth} (h : Hypergraph) (a b : list Memento) :
  replay_enabled h (a ++ b)
  = replay_enabled h a && replay_enabled (replay h a) b.
Proof.
  revert h. induction a as [|m a IH]; intros h; simpl; [reflexivity|].
  now rewrite IH, andb_assoc.
Qed.

Lemma callbacks_follow_app (a b : list Event) :
  callbacks_follow b ->
  (callbacks_follow a -> callbacks_follow (a ++ b)) /\
  (forall ev, callbacks_follow (ev :: a) -> callbacks_follow ((ev :: a) ++ b)).
Proof.
  intros Hb. induction a as [|x a [IH1 IH2]].
  - split; [trivial|]. intros [] H; simpl in *; tauto.
  - split; [apply IH2|].
    intros [] H; try (apply IH2; exact H).
    + destruct x; simpl in H; try contradiction.
      destruct H as (Hu & Hv & H). simpl. auto.
    + destruct H.
Qed.

Lemma in_records_app (a b : list Memento) (x : HypernodeID) :
  in_records (a ++ b) x <-> in_records a x \/ in_records b x.
Proof.
  unfold in_records. split.
  - intros (m & Hin & Hm). apply in_app_or in Hin.
    destruct Hin; [left | right]; eauto.
  - intros [(m & Hin & Hm)|(m & Hin & Hm)]; exists m;
      (split; [apply in_or_app; auto | exact Hm]).
Qed.

Lemma subsequence_In (A : Type) (l l' : list A) (x : A) :
  subsequence l l' -> In x l -> In x l'.
Proof.
  induction 1 as [l'|y l l' Hs IH|y l l' Hs IH]; simpl; intros Hin.
  - destruct Hin.
  - destruct Hin; auto.
  - auto.
Qed.

Lemma subsequence_NoDup (A : Type) (l l' : list A) :
  subsequence l l' -> NoDup l' -> NoDup l.
Proof.
  induction 1 as [l'|y l l' Hs IH|y l l' Hs IH]; intros Hnd.
  - constructor.
  - inversion Hnd; subst. constructor; [|auto].
    intros Hin. eauto using subsequence_In.
  - inversion Hnd; subst. auto.
Qed.

Lemma rated_before_any (prev : option Event) (evs : list Event) :
  rated_before None evs -> rated_before prev evs.
Proof.
  destruct evs as [|[] later]; simpl; try tauto.
  intros [H _]. discriminate.
Qed.

Lemma rated_before_app (prev : option Event) (a b : list Event) :
  rated_before prev a -> rated_before None b -> rated_before prev (a ++ b).
Proof.
  revert prev. induction a as [|ev a IH]; intros prev; simpl.
  - intros _. apply rated_before_any.
  - intros [H Ha] Hb. split; [exact H | now apply IH].
Qed.

Section CoarsenerProperties.

Context `{W : IdWidth} `{WW : WeightWidth} {R Rng : Type}.
Context `{RO : RatingOps R} `{NP : NodeWeightPenalty R}.
Context `{AP : AcceptancePolicy R Rng} `{RZ : Randomize Rng}.
Variable max_allowed_node_weight : HypernodeWeight.
Variable comm : HypernodeID -> ClusterID.
Variable assertions : bool.

(** The operations at the parameters of the section. *)
Abbreviation rate' := (rate max_allowed_node_weight comm assertions).
Abbreviation coarsen_nodes' :=
  (coarsen_nodes max_allowed_node_weight comm assertions).
Abbreviation coarsen_pass' :=
  (coarsen_pass max_allowed_node_weight comm assertions).
Abbreviation coarsen_loop' :=
  (coarsen_loop max_allowed_node_weight comm assertions).
Abbreviation coarsenImpl' :=
  (coarsenImpl max_allowed_node_weight comm assertions).
Abbreviation inv :=
  (coarsening_inv (R:=R) (Rng:=Rng) max_allowed_node_weight comm).
Abbreviation count st := (currentNumNodes (hg st)).

(** What a stretch of a run from [st] to [st'] has added: the events [new]
    and the records [newh], which name the contractions of the stretch and
    the calls of the contraction callback, and take the hypergraph of [st] to
    that of [st']. *)
Abbreviation stretch st st' new newh :=
  (events st' = events st ++ new /\
   history st' = history st ++ newh /\
   hg st' = replay (hg st) newh /\
   callbacks_follow new /\
   (contractions new = newh)%list /\
   (contraction_calls new = newh)%list).

Lemma stretch_trans (st st1 st2 : State R Rng) (a b : list Event)
  (ha hb : list Memento) :
  stretch st st1 a ha -> stretch st1 st2 b hb ->
  stretch st st2 (a ++ b) (ha ++ hb).
Proof.
  intros (E1 & H1 & G1 & F1 & C1 & K1) (E2 & H2 & G2 & F2 & C2 & K2).
  rewrite E2, E1, H2, H1, G2, G1, !app_assoc, replay_app,
    contractions_app, contraction_calls_app, C1, C2, K1, K2.
  repeat split. now apply callbacks_follow_app.
Qed.

Lemma contract_rated_stretch (hn : HypernodeID) (rating : Rating R)
  (st : State R Rng) :
  exists new newh,
    stretch st (contract_rated hn rating st) new newh /\
    rated_vertices new = [] /\ passes new = 0 /\
    count st <= count (contract_rated hn rating st) + 1 /\
    forall x, already_matched (contract_rated hn rating st) x = true <->
              already_matched st x = true \/ in_records newh x.
Proof.
  unfold contract_rated. destruct (target rating =? kInvalidTarget).
  - exists [], []. simpl. rewrite !app_nil_r. repeat split; auto; try lia.
    intros [H|(m & [] & _)]. exact H.
  - exists [EvContract (hg st) hn (target rating);
            EvContractionFunc hn (target rating)],
           [{| m_u := hn; m_v := target rating |}].
    simpl. rewrite <- app_assoc. repeat split; auto.
    + pose proof (currentNumNodes_contract_exact (hg st) hn (target rating)).
      destruct (_ && _); lia.
    + unfold fa_set, in_records.
      destruct (N.eqb_spec x (target rating)) as [->|Hx].
      * intros _. right. eexists. split; [now left | now right].
      * destruct (N.eqb_spec x hn) as [->|Hx'].
        -- intros _. right. eexists. split; [now left | now left].
        -- auto.
    + unfold fa_set, in_records.
      intros [H|(m & [<-|[]] & Hm)].
      * destruct (x =? target rating); [reflexivity|].
        destruct (x =? hn); [reflexivity | exact H].
      * simpl in Hm. destruct Hm as [<-|<-].
        -- rewrite N.eqb_refl. now destruct (_ =? _).
        -- now rewrite N.eqb_refl.
Qed.

(** The loop over the vertices of a pass. *)
Lemma coarsen_nodes_stretch (limit : HypernodeID) (hns : list HypernodeID) :
  forall st st' : State R Rng,
    coarsen_nodes' limit hns st = Ok st' ->
    exists new newh,
      stretch st st' new newh /\
      subsequence (rated_vertices new) hns /\ passes new = 0 /\
      (limit < count st -> limit <= count st') /\
      forall x, already_matched st' x = true <->
                already_matched st x = true \/ in_records newh x.
Proof.
  induction hns as [|hn rest IH]; intros st st'; simpl.
  - intros E. inversion E; subst. exists [], []. simpl. rewrite !app_nil_r.
    repeat split; auto; try lia; try constructor.
    intros [H|(m & [] & _)]. exact H.
  - destruct (nodeIsEnabled (hg st) hn) eqn:Hen.
    + destruct (rate _ _ _ hn _) as [[rating st1]|] eqn:Hrate; simpl;
        [|discriminate].
      destruct (rate_keeps _ _ _ _ _ Hrate) as (Hh & Hm & _ & Hhist & Hev).
      simpl in Hh, Hm, Hhist, Hev.
      destruct (contract_rated_stretch hn rating st1)
        as (new1 & newh1 & S1 & R1 & P1 & C1 & M1).
      assert (S0 : stretch st st1 [EvRate (hg st) hn] []).
      { rewrite Hev, Hhist, Hh, app_nil_r. simpl. repeat split. }
      pose proof (@stretch_trans _ _ _ _ _ _ _ S0 S1) as S01. simpl in S01.
      rewrite Hh in C1.
      destruct (N.leb_spec (count (contract_rated hn rating st1)) limit)
        as [Hle|Hgt].
      * intros E. inversion E; subst.
        exists (EvRate (hg st) hn :: new1), newh1. simpl. rewrite R1.
        repeat split; try apply S01; auto.
        -- constructor. constructor.
        -- intros. lia.
        -- intros H. apply M1 in H. now rewrite Hm in H.
        -- intros H. apply M1. now rewrite Hm.
      * intros E. apply IH in E.
        destruct E as (new2 & newh2 & S2 & R2 & P2 & C2 & M2).
        pose proof (@stretch_trans _ _ _ _ _ _ _ S01 S2) as S. simpl in S.
        exists (EvRate (hg st) hn :: new1 ++ new2), (newh1 ++ newh2).
        simpl. rewrite rated_vertices_app, R1, passes_app, P1, P2. simpl.
        repeat split; try apply S; auto.
        -- now constructor.
        -- intros Hx. rewrite in_records_app. apply M2 in Hx.
           rewrite M1, Hm in Hx. tauto.
        -- intros Hx. rewrite in_records_app in Hx. apply M2.
           rewrite M1, Hm. tauto.
    + intros E. apply IH in E.
      destruct E as (new2 & newh2 & S2 & R2 & P2 & C2 & M2).
      exists new2, newh2. repeat split; try apply S2; auto;
        try (now apply M2).
      now constructor.
Qed.

(** One pass. *)
Lemma coarsen_pass_stretch (limit : HypernodeID) (st st' : State R Rng) :
  coarsen_pass' limit st = Ok st' ->
  exists new newh,
    stretch st st' (new ++ [EvEndOfPass]) newh /\
    subsequence (rated_vertices new)
      (fst (shuffleVector (nodes (hg st)) (rng st))) /\
    passes new = 0 /\
    (limit < count st -> limit <= count st') /\
    forall x, already_matched st' x = true <-> in_records newh x.
Proof.
  unfold coarsen_pass. cbn [resetMatches set_already_matched hg rng].
  destruct (shuffleVector _ _) as [hns g].
  destruct (coarsen_nodes _ _ _ _ _ _) as [st1|] eqn:E; simpl; [|discriminate].
  intros H. inversion H; subst. apply coarsen_nodes_stretch in E.
  destruct E as (new & newh & (E1 & H1 & G1 & F1 & C1 & K1) & Sub & P & C & M).
  simpl in E1, H1, G1, C, M.
  exists new, newh. simpl.
  rewrite E1, H1, G1, contractions_app, contraction_calls_app, C1, K1.
  simpl. rewrite !app_nil_r, <- app_assoc. repeat split; auto.
  - now apply callbacks_follow_app.
  - now rewrite <- G1.
  - intros Hx. apply M in Hx. destruct Hx as [Hx|Hx]; [discriminate | exact Hx].
  - intros Hx. apply M. now right.
Qed.

(** The loop of the passes. *)
Lemma coarsen_loop_stretch (fuel : nat) (limit : HypernodeID) :
  forall st st' : State R Rng,
    coarsen_loop' fuel limit st = Some (Ok st') ->
    exists new newh,
      stretch st st' new newh /\
      (limit < count st -> limit <= count st' /\ 1 <= passes new).
Proof.
  induction fuel as [|fuel IH]; intros st st'; simpl; [discriminate|].
  destruct (N.ltb_spec limit (count st)) as [Hlt|Hge].
  - destruct (coarsen_pass _ _ _ _ _) as [st1|] eqn:E; [|discriminate].
    apply coarsen_pass_stretch in E.
    destruct E as (new1 & newh1 & S1 & _ & P1 & C1 & _).
    destruct (N.eqb_spec (count st) (count st1)) as [Heq|Hne].
    + intros H. inversion H; subst. exists (new1 ++ [EvEndOfPass]), newh1.
      split; [exact S1|]. intros _. rewrite passes_app, P1.
      split; [auto | simpl; discriminate].
    + intros H0. pose proof H0 as H. apply IH in H.
      destruct H as (new2 & newh2 & S2 & C2).
      exists ((new1 ++ [EvEndOfPass]) ++ new2), (newh1 ++ newh2).
      split; [exact (@stretch_trans _ _ _ _ _ _ _ S1 S2)|].
      intros _. rewrite !passes_app, P1. cbn [passes]. split; [|lia].
      specialize (C1 Hlt).
      destruct (N.eq_dec (count st1) limit) as [Heq1|Hne1].
      * destruct fuel as [|fuel']; simpl in H0; [discriminate|].
        assert (L : (limit <? count st1) = false) by (apply N.ltb_ge; lia).
        rewrite L in H0. inversion H0; subst. lia.
      * apply C2. lia.
  - intros H. inversion H; subst. exists [], []. simpl. rewrite !app_nil_r.
    repeat split; auto; lia.
Qed.

(** Under the invariant every record of a stretch finds its two vertices
    enabled at its turn. *)
Lemma contract_rated_enabled (hn : HypernodeID) (st : State R Rng)
  (rating : Rating R) (st1 : State R Rng) :
  inv st -> nodeIsEnabled (hg st) hn = true ->
  rate' hn st = Ok (rating, st1) ->
  exists newh,
    history (contract_rated hn rating st1) = history st ++ newh /\
    hg (contract_rated hn rating st1) = replay (hg st) newh /\
    replay_enabled (hg st) newh = true.
Proof.
  intros Hinv Hen Hrate.
  destruct (rate_keeps _ _ _ _ _ Hrate) as (Hh & _ & _ & Hhist & _).
  unfold contract_rated.
  destruct (target rating =? kInvalidTarget) eqn:Ht; simpl.
  - exists []. simpl. rewrite app_nil_r. auto.
  - exists [{| m_u := hn; m_v := target rating |}]. simpl.
    pose proof (rated_target_ok _ _ Hinv Hen Hrate Ht) as (_ & Hu & Hv & _).
    rewrite Hhist, Hh, Hu, Hv. auto.
Qed.

Lemma coarsen_nodes_enabled (limit : HypernodeID) (hns : list HypernodeID) :
  forall st st' : State R Rng,
    inv st -> coarsen_nodes' limit hns st = Ok st' ->
    exists newh,
      history st' = history st ++ newh /\
      hg st' = replay (hg st) newh /\
      replay_enabled (hg st) newh = true.
Proof.
  induction hns as [|hn rest IH]; intros st st' Hinv; simpl.
  - intros E. inversion E; subst. exists []. simpl. rewrite app_nil_r. auto.
  - destruct (nodeIsEnabled (hg st) hn) eqn:Hen; [|now apply IH].
    destruct (rate _ _ _ hn _) as [[rating st1]|] eqn:Hrate; simpl;
      [|discriminate].
    assert (Hinv0 : inv (log st (EvRate (hg st) hn))).
    { apply inv_log; [exact Hinv | exact Hen | reflexivity |].
      intros x <-. exact Hen. }
    destruct (contract_rated_enabled hn Hinv0 Hen Hrate)
      as (new1 & Hh1 & Hg1 & He1).
    simpl in Hh1, Hg1, He1.
    destruct (_ <=? limit).
    + intros E. inversion E; subst. exists new1. auto.
    + intros E. apply IH in E.
      * destruct E as (new2 & Hh2 & Hg2 & He2). exists (new1 ++ new2).
        rewrite Hh2, Hh1, Hg2, Hg1, app_assoc, replay_app, replay_enabled_app.
        rewrite He1. rewrite Hg1 in He2. rewrite He2. auto.
      * eapply inv_contract_rated; [exact Hinv0 | exact Hen | exact Hrate].
Qed.

Lemma coarsen_pass_enabled (limit : HypernodeID) (st st' : State R Rng) :
  inv st -> coarsen_pass' limit st = Ok st' ->
  exists newh,
    history st' = history st ++ newh /\
    hg st' = replay (hg st) newh /\
    replay_enabled (hg st) newh = true.
Proof.
  intros Hinv. unfold coarsen_pass. destruct (shuffleVector _ _) as [hns g].
  destruct (coarsen_nodes _ _ _ _ _ _) as [st1|] eqn:E; simpl; [|discriminate].
  intros H. inversion H; subst. apply coarsen_nodes_enabled in E.
  - exact E.
  - apply inv_ext with (st := st); auto.
Qed.

Lemma coarsen_loop_enabled (fuel : nat) (limit : HypernodeID) :
  forall st st' : State R Rng,
    inv st -> coarsen_loop' fuel limit st = Some (Ok st') ->
    exists newh,
      history st' = history st ++ newh /\
      hg st' = replay (hg st) newh /\
      replay_enabled (hg st) newh = true.
Proof.
  induction fuel as [|fuel IH]; intros st st' Hinv; simpl; [discriminate|].
  destruct (limit <? count st).
  - destruct (coarsen_pass _ _ _ _ _) as [st1|] eqn:E; [|discriminate].
    assert (Hinv1 : inv st1) by (eapply inv_coarsen_pass; eauto).
    apply coarsen_pass_enabled in E; [|exact Hinv].
    destruct E as (new1 & Hh1 & Hg1 & He1).
    destruct (_ =? _).
    + intros H. inversion H; subst. exists new1. auto.
    + intros H. apply IH in H; [|exact Hinv1].
      destruct H as (new2 & Hh2 & Hg2 & He2). exists (new1 ++ new2).
      rewrite Hh2, Hh1, Hg2, Hg1, app_assoc, replay_app, replay_enabled_app.
      rewrite He1. rewrite Hg1 in He2. rewrite He2. auto.
  - intros H. inversion H; subst. exists []. simpl. rewrite app_nil_r. auto.
Qed.

Lemma contraction_calls_replay (h : Hypergraph) (ms : list Memento) :
  contraction_calls (replay_events h ms) = ms.
Proof.
  revert h. induction ms as [|[u v] ms IH]; intros h; simpl;
    [reflexivity | now rewrite IH].
Qed.

(** What a build with assertions returns, the build without them returns
    too. *)
Lemma simulateContractions_unchecked (ms : list Memento) :
  forall st st' : State R Rng,
    simulateContractions assertions ms st = Ok st' ->
    simulateContractions false ms st = Ok st'.
Proof.
  induction ms as [|m ms IH]; intros st st'; simpl; [trivial|].
  destruct (ASSERT assertions (nodeIsEnabled (hg st) (m_u m))); simpl;
    [|discriminate].
  destruct (ASSERT assertions (nodeIsEnabled (hg st) (m_v m))); simpl;
    [|discriminate].
  apply IH.
Qed.

Lemma coarsen_nodes_unchecked (limit : HypernodeID) (hns : list HypernodeID) :
  forall st st' : State R Rng,
    coarsen_nodes' limit hns st = Ok st' ->
    coarsen_nodes max_allowed_node_weight comm false limit hns st = Ok st'.
Proof.
  induction hns as [|hn rest IH]; intros st st'; simpl; [trivial|].
  destruct (nodeIsEnabled (hg st) hn); [|apply IH].
  destruct (rate _ _ assertions hn _) as [p|] eqn:Hrate; simpl; [|discriminate].
  apply rate_unchecked in Hrate. rewrite Hrate. simpl.
  destruct (_ <=? limit); [trivial | apply IH].
Qed.

Lemma coarsen_pass_unchecked (limit : HypernodeID) (st st' : State R Rng) :
  coarsen_pass' limit st = Ok st' ->
  coarsen_pass max_allowed_node_weight comm false limit st = Ok st'.
Proof.
  unfold coarsen_pass. destruct (shuffleVector _ _) as [hns g].
  destruct (coarsen_nodes _ _ assertions _ _ _) as [st1|] eqn:E; simpl;
    [|discriminate].
  apply coarsen_nodes_unchecked in E. now rewrite E.
Qed.

Lemma coarsen_loop_unchecked (fuel : nat) (limit : HypernodeID) :
  forall st st' : State R Rng,
    coarsen_loop' fuel limit st = Some (Ok st') ->
    coarsen_loop max_allowed_node_weight comm false fuel limit st
    = Some (Ok st').
Proof.
  induction fuel as [|fuel IH]; intros st st'; simpl; [trivial|].
  destruct (limit <? count st); [|trivial].
  destruct (coarsen_pass _ _ assertions _ _) as [st1|] eqn:E; [|discriminate].
  apply coarsen_pass_unchecked in E. rewrite E.
  destruct (_ =? _); [trivial | apply IH].
Qed.

Lemma coarsen_loop_count_le (fuel : nat) (limit : HypernodeID) :
  forall st st' : State R Rng,
    coarsen_loop' fuel limit st = Some (Ok st') -> count st' <= count st.
Proof.
  induction fuel as [|fuel IH]; intros st st'; simpl; [discriminate|].
  destruct (limit <? count st); [|intros H; inversion H; subst; lia].
  destruct (coarsen_pass _ _ _ _ _) as [st1|] eqn:Ep; [|discriminate].
  pose proof (coarsen_pass_count_le _ _ _ _ _ Ep) as Hle1.
  destruct (_ =? _); [intros H; inversion H; subst; lia|].
  intros H. apply IH in H. lia.
Qed.

(** The events of a run, read for the vertex rated before a contraction. *)
Lemma coarsen_nodes_rated (limit : HypernodeID) (hns : list HypernodeID) :
  forall st st' : State R Rng,
    coarsen_nodes' limit hns st = Ok st' ->
    exists new, events st' = events st ++ new /\ rated_before None new.
Proof.
  induction hns as [|hn rest IH]; intros st st'; simpl.
  - intros E. inversion E; subst. exists []. now rewrite app_nil_r.
  - destruct (nodeIsEnabled (hg st) hn); [|apply IH].
    destruct (rate _ _ _ hn _) as [[rating st1]|] eqn:Hrate; simpl;
      [|discriminate].
    destruct (rate_keeps _ _ _ _ _ Hrate) as (Hh & _ & _ & _ & Hev).
    simpl in Hh, Hev.
    assert (E1 : exists new1,
               events (contract_rated hn rating st1) = events st ++ new1 /\
               rated_before None new1).
    { unfold contract_rated. destruct (target rating =? kInvalidTarget).
      - exists [EvRate (hg st) hn]. simpl. auto.
      - exists [EvRate (hg st) hn; EvContract (hg st) hn (target rating);
                EvContractionFunc hn (target rating)].
        simpl. rewrite Hev, Hh, <- !app_assoc. simpl. auto. }
    destruct E1 as (new1 & E1 & B1).
    destruct (_ <=? limit).
    + intros E. inversion E; subst. now exists new1.
    + intros E. apply IH in E. destruct E as (new2 & E2 & B2).
      exists (new1 ++ new2). rewrite E2, E1, app_assoc.
      split; [reflexivity | now apply rated_before_app].
Qed.

Lemma coarsen_loop_rated (fuel : nat) (limit : HypernodeID) :
  forall st st' : State R Rng,
    coarsen_loop' fuel limit st = Some (Ok st') ->
    exists new, events st' = events st ++ new /\ rated_before None new.
Proof.
  induction fuel as [|fuel IH]; intros st st'; simpl; [discriminate|].
  destruct (limit <? count st).
  - destruct (coarsen_pass _ _ _ _ _) as [st1|] eqn:Ep; [|discriminate].
    assert (E1 : exists new1,
               events st1 = events st ++ new1 /\ rated_before None new1).
    { unfold coarsen_pass in Ep. destruct (shuffleVector _ _) as [hns g].
      destruct (coarsen_nodes _ _ _ _ _ _) as [s1|] eqn:E; simpl in Ep;
        [|discriminate].
      inversion Ep; subst. apply coarsen_nodes_rated in E.
      destruct E as (new & E & B). simpl in E.
      exists (new ++ [EvEndOfPass]). simpl. rewrite E, app_assoc.
      split; [reflexivity|]. apply rated_before_app; simpl; auto. }
    destruct E1 as (new1 & E1 & B1).
    destruct (_ =? _).
    + intros H. inversion H; subst. now exists new1.
    + intros H. apply IH in H. destruct H as (new2 & E2 & B2).
      exists (new1 ++ new2). rewrite E2, E1, app_assoc.
      split; [reflexivity | now apply rated_before_app].
  - intros H. inversion H; subst. exists []. now rewrite app_nil_r.
Qed.

(** X7. In a run of [coarsenImpl] the contraction callback is called once
    after each contraction, at once and on the pair just contracted, and at
    no other moment; the records added to the history are these pairs, in
    this order. *)
Theorem coarsen_callbacks (limit : HypernodeID) (st st' : State R Rng) :
  coarsenImpl max_allowed_node_weight comm assertions limit st
  = Some (Ok st') ->
  exists new newh,
    events st' = events st ++ new /\
    history st' = history st ++ newh /\
    callbacks_follow new /\
    contractions new = newh /\
    contraction_calls new = newh.
Proof.
  intros H. apply coarsen_loop_stretch in H.
  destruct H as (new & newh & (E & Hh & _ & F & C & K) & _).
  exists new, newh. auto.
Qed.

(** X8. The history of a run replays: the records that a run of
    [coarsenImpl] from a well-formed hypergraph has added take the hypergraph
    it started from to the one it ended with, each finding its two vertices
    enabled at its turn; so [simulateContractions], given these records on a
    coarsener that holds the initial hypergraph, fails no assertion, ends
    with the final hypergraph and calls the contraction callback on the same
    pairs in the same order. *)
Theorem coarsen_then_replay (limit : HypernodeID) (st st' : State R Rng) :
  coarsening_inv max_allowed_node_weight comm st ->
  coarsenImpl max_allowed_node_weight comm assertions limit st
  = Some (Ok st') ->
  exists newh,
    history st' = history st ++ newh /\
    hg st' = replay (hg st) newh /\
    replay_enabled (hg st) newh = true /\
    forall (checked : bool) (s : State R Rng),
      hg s = hg st ->
      exists s',
        simulateContractions checked newh s = Ok s' /\
        hg s' = hg st' /\
        history s' = history s ++ newh /\
        contraction_calls (events s')
        = contraction_calls (events s) ++ newh.
Proof.
  intros Hinv H. apply coarsen_loop_enabled in H; [|exact Hinv].
  destruct H as (newh & Hh & Hg & He). exists newh.
  repeat split; auto. intros checked s Hs.
  destruct (simulateContractions checked newh s) as [s'|] eqn:E.
  - exists s'. apply simulateContractions_ok in E.
    destruct E as (G & Hi & Ev & _).
    rewrite G, Hi, Ev, Hs, Hg, contraction_calls_app,
      contraction_calls_replay. auto.
  - apply simulateContractions_fails in E. destruct E as (_ & E).
    rewrite Hs, He in E. discriminate.
Qed.

(** X9. Replaying a sequence of records in two parts is replaying it in one
    go: [simulateContractions] on a concatenation is [simulateContractions]
    on the first part and then, unless that has failed, on the second; on no
    record it does nothing. *)
Theorem simulateContractions_app (ms1 ms2 : list Memento) (st : State R Rng) :
  simulateContractions assertions (ms1 ++ ms2) st
  = (st1 <- simulateContractions assertions ms1 st ;;
     simulateContractions assertions ms2 st1) /\
  simulateContractions assertions [] st = Ok st.
Proof.
  split; [|reflexivity].
  revert st. induction ms1 as [|m ms1 IH]; intros st; simpl; [reflexivity|].
  destruct (ASSERT assertions (nodeIsEnabled (hg st) (m_u m))); simpl;
    [|reflexivity].
  destruct (ASSERT assertions (nodeIsEnabled (hg st) (m_v m))); simpl;
    [|reflexivity].
  apply IH.
Qed.

(** X10. A pass rates vertices in the order the shuffle has put them, each
    place of the shuffled list at most once: the vertices rated are the
    shuffled list with some vertices left out (those no longer enabled at
    their turn, and those after the [break]).  When the shuffled list repeats
    no vertex, none is rated twice in the pass.  The pass ends with the call
    of the end-of-pass callback, its only one. *)
Theorem coarsen_pass_rates_in_order (limit : HypernodeID)
  (st st' : State R Rng) :
  coarsen_pass max_allowed_node_weight comm assertions limit st = Ok st' ->
  exists new,
    events st' = events st ++ new ++ [EvEndOfPass] /\
    passes new = 0 /\
    subsequence (rated_vertices new)
      (fst (shuffleVector (nodes (hg st)) (rng st))) /\
    (NoDup (fst (shuffleVector (nodes (hg st)) (rng st))) ->
     NoDup (rated_vertices new)).
Proof.
  intros H. apply coarsen_pass_stretch in H.
  destruct H as (new & newh & (E & _) & Sub & P & _).
  exists new. repeat split; auto.
  intros Hnd. eapply subsequence_NoDup; eauto.
Qed.

(** X11. After a pass the matched markers are set exactly for the vertices
    of the contractions of that pass, representatives and contracted
    vertices alike: the markers of earlier passes are gone. *)
Theorem coarsen_pass_matched (limit : HypernodeID) (st st' : State R Rng) :
  coarsen_pass max_allowed_node_weight comm assertions limit st = Ok st' ->
  exists newh,
    history st' = history st ++ newh /\
    forall x, already_matched st' x = true <-> in_records newh x.
Proof.
  intros H. apply coarsen_pass_stretch in H.
  destruct H as (new & newh & (_ & Hh & _) & _ & _ & _ & M).
  exists newh. auto.
Qed.

(** X12. [coarsenImpl(limit)] on a hypergraph with at most [limit] live
    vertices does nothing: no pass, no reset of the matched markers, no call
    of a callback.  On one with more it ends at least one pass, never takes
    the live vertex count below [limit] and never raises it. *)
Theorem coarsen_limit (limit : HypernodeID) (st : State R Rng) :
  (currentNumNodes (hg st) <= limit ->
   coarsenImpl max_allowed_node_weight comm assertions limit st
   = Some (Ok st)) /\
  (limit < currentNumNodes (hg st) ->
   forall st',
     coarsenImpl max_allowed_node_weight comm assertions limit st
     = Some (Ok st') ->
     limit <= currentNumNodes (hg st') /\
     currentNumNodes (hg st') <= currentNumNodes (hg st) /\
     passes (events st) < passes (events st')).
Proof.
  split.
  - intros Hle. unfold coarsenImpl. simpl.
    apply N.ltb_ge in Hle. now rewrite Hle.
  - intros Hlt st' H. pose proof H as H0. apply coarsen_loop_stretch in H.
    destruct H as (new & newh & (E & _) & C).
    destruct (C Hlt) as (Hc & Hp). rewrite E, passes_app.
    repeat split; [exact Hc | | lia].
    eapply coarsen_loop_count_le. exact H0.
Qed.

(** X14. In a run of [coarsenImpl] the representative of every contraction
    is the vertex rated just before, and the contraction takes place in the
    very hypergraph the rating was made in: the pair is never swapped, and
    nothing comes between a rating and the contraction it leads to. *)
Theorem coarsen_contracts_rated_vertex (limit : HypernodeID)
  (st st' : State R Rng) :
  coarsenImpl max_allowed_node_weight comm assertions limit st
  = Some (Ok st') ->
  exists new, events st' = events st ++ new /\ rated_before None new.
Proof.
  apply coarsen_loop_rated.
Qed.

(** X13. Assertions only check: whatever [rate], [simulateContractions] and
    [coarsenImpl] return in a build with assertions, they return in a build
    without them. *)
Theorem unchecked_build_agrees (limit u : HypernodeID) (ms : list Memento)
  (st : State R Rng) :
  (forall p,
     rate max_allowed_node_weight comm assertions u st = Ok p ->
     rate max_allowed_node_weight comm false u st = Ok p) /\
  (forall st',
     simulateContractions assertions ms st = Ok st' ->
     simulateContractions false ms st = Ok st') /\
  (forall st',
     coarsenImpl max_allowed_node_weight comm assertions limit st
     = Some (Ok st') ->
     coarsenImpl max_allowed_node_weight comm false limit st
     = Some (Ok st')).
Proof.
  repeat split.
  - intros p. apply rate_unchecked.
  - intros st'. apply simulateContractions_unchecked.
  - intros st'. apply coarsen_loop_unchecked.
Qed.

End CoarsenerProperties.

(** ** The properties on the example inputs *)

Import Examples.

Lemma res_get_eq (A : Type) (m : res A) (d : A) :
  res_ok m = true -> m = Ok (res_get m d).
Proof. destruct m; [reflexivity | discriminate]. Qed.

Lemma rated_eq (A B : Type) (m : res (A * B)) (d : A * B) :
  res_ok m = true -> m = Ok (fst (res_get m d), snd (res_get m d)).
Proof.
  intros H. rewrite <- surjective_pairing. now apply res_get_eq.
Qed.

Lemma run_get_eq (A : Type) (o : option (res A)) (d : A) :
  run_ok o = true -> o = Some (Ok (run_get o d)).
Proof.
  destruct o as [[a|]|]; simpl; intros H; [reflexivity | discriminate | discriminate].
Qed.

Lemma small_hypergraph_wf (hn_weights : list HypernodeWeight)
  (edges : list (HyperedgeWeight * list HypernodeID)) :
  (length hn_weights <= 1000)%nat ->
  edges_ok (N.of_nat (length hn_weights)) edges = true ->
  wf (make_hypergraph hn_weights unpartitioned edges).
Proof.
  intros Hlen Hok. apply wf_make_hypergraph; [|exact Hok].
  assert (E : uint_max = 4294967295) by reflexivity. rewrite E. lia.
Qed.

Lemma four_on_one_edge_wf : wf four_on_one_edge.
Proof. apply small_hypergraph_wf; [simpl; lia | reflexivity]. Qed.

Lemma two_unit_vertices_wf : wf two_unit_vertices.
Proof. apply small_hypergraph_wf; [simpl; lia | reflexivity]. Qed.

Lemma with_single_pin_edge_wf : wf with_single_pin_edge.
Proof. apply small_hypergraph_wf; [simpl; lia | reflexivity]. Qed.

Lemma two_equal_neighbours_wf : wf two_equal_neighbours.
Proof. apply small_hypergraph_wf; [simpl; lia | reflexivity]. Qed.

(** The weights of [make_hypergraph], when they are small. *)
Lemma small_weights (hn_weights : list HypernodeWeight)
  (part : HypernodeID -> PartitionID)
  (edges : list (HyperedgeWeight * list HypernodeID)) (v : HypernodeID) :
  forallb (fun w => (0 <=? w)%Z && (w <=? 1000)%Z) hn_weights = true ->
  (0 <= nodeWeight (make_hypergraph hn_weights part edges) v <= 1000)%Z.
Proof.
  intros Hall. cbn [make_hypergraph nodeWeight].
  destruct (nth_in_or_default (N.to_nat v) hn_weights 0%Z) as [Hin|Hd];
    [|rewrite Hd; lia].
  rewrite forallb_forall in Hall. apply Hall in Hin.
  apply andb_prop in Hin. destruct Hin as [H0 H1].
  apply Z.leb_le in H0, H1. lia.
Qed.

Lemma small_weights_sum_fits (hn_weights : list HypernodeWeight)
  (part : HypernodeID -> PartitionID)
  (edges : list (HyperedgeWeight * list HypernodeID)) (u v : HypernodeID) :
  forallb (fun w => (0 <=? w)%Z && (w <=? 1000)%Z) hn_weights = true ->
  sum_fits (nodeWeight (make_hypergraph hn_weights part edges) u)
           (nodeWeight (make_hypergraph hn_weights part edges) v).
Proof.
  intros Hall.
  pose proof (@small_weights hn_weights part edges u Hall).
  pose proof (@small_weights hn_weights part edges v Hall).
  assert (E : weight_max = 2147483647%Z) by reflexivity.
  apply sum_fits_nonneg; lia.
Qed.

Lemma four_on_one_edge_fits : weights_fit four_on_one_edge.
Proof.
  split.
  - intros v _. now apply small_weights.
  - vm_compute. discriminate.
Qed.

(** The policy that leaves ties to the first candidate does not read the
    random source. *)
Lemma first_rating_wins_deterministic :
  deterministic_policy (R:=float) (Rng:=N)
    (AP:=BestRatingWithRandomTieBreaking FirstRatingWins).
Proof.
  intros tmp max_rating old_target new_target matched g g'. simpl.
  destruct (PrimFloat.ltb max_rating tmp); [reflexivity|].
  destruct (PrimFloat.eqb max_rating tmp); reflexivity.
Qed.

Lemma wf_incident_edges (h : Hypergraph) (u : HypernodeID) :
  wf h -> nodeIsEnabled h u = true ->
  forall e, In e (incidentEdges h u) -> In u (pins h e) /\ NoDup (pins h e).
Proof.
  intros Hwf Hu e He. split.
  - apply (wf_incident_pins Hwf _ _ Hu He).
  - apply (wf_pins_nodup Hwf).
Qed.


(** C9 on the same call. *)
Lemma rate_frame_witness :
  exists r st',
    default_rate 10%Z one_community true 0 (start four_on_one_edge 7) = Ok (r, st') /\
    hg st' = four_on_one_edge /\
    already_matched st' = (fun _ => false) /\
    tmp_ratings st' = [] /\
    (forall v, sm_get (tmp_ratings st') v = None) /\
    history st' = [] /\ events st' = [].
Proof.
  assert (E : default_rate 10%Z one_community true 0 (start four_on_one_edge 7)
              = Ok (fst (rated 10%Z true 0 (start four_on_one_edge 7)),
                    snd (rated 10%Z true 0 (start four_on_one_edge 7)))).
  { apply rated_eq. vm_compute. reflexivity. }
  eexists. eexists. split; [exact E|].
  exact (rate_frame 10%Z one_community true 0 (start four_on_one_edge 7) E).
Defined.

(** C10 on an invalid rating. *)
Lemma rating_sentinels_witness :
  exists r st',
    default_rate 1%Z one_community true 0 (start two_unit_vertices 7) = Ok (r, st') /\
    valid r = false /\
    ((valid r = true <-> target r <> uint_max) /\
     (valid r = true <-> value r <> r_min) /\
     (valid r = true <-> r_neb (value r) r_min = true) /\
     negb (target r =? kInvalidTarget) = valid r /\
     (valid r = false -> target r = uint_max /\ value r = r_min)).
Proof.
  assert (E : default_rate 1%Z one_community true 0 (start two_unit_vertices 7)
              = Ok (fst (rated 1%Z true 0 (start two_unit_vertices 7)),
                    snd (rated 1%Z true 0 (start two_unit_vertices 7)))).
  { apply rated_eq. vm_compute. reflexivity. }
  assert (V : valid (fst (rated 1%Z true 0 (start two_unit_vertices 7))) = false).
  { vm_compute. reflexivity. }
  eexists. eexists. split; [exact E|]. split; [exact V|].
  exact (rating_sentinels 1%Z one_community true 0 (start two_unit_vertices 7)
           (wf_ids_representable two_unit_vertices_wf) eq_refl E).
Defined.

(** C3 on the hyperedge of four vertices: vertex 0 is given vertex 3 with
    the rating 2, the score 6 / 3 of the hyperedge over the penalty 1. *)
Lemma rate_scores_witness :
  exists tmp r st',
    rate_edges 10%Z true four_on_one_edge 0 (incidentEdges four_on_one_edge 0) []
    = Ok tmp /\
    default_rate 10%Z one_community true 0 (start four_on_one_edge 7)
    = Ok (r, st') /\
    valid r = true /\ target r = 3 /\ value r = 2%float /\
    sm_get tmp 3 = Some 2%float /\
    spec_raw_score (R:=float) four_on_one_edge 0 3 = 2%float /\
    (sm_get tmp 3 =
     if admissible 10%Z four_on_one_edge 0 3
        && existsb (fun e => mem 3 (pins four_on_one_edge e))
                   (incidentEdges four_on_one_edge 0)
     then Some (spec_raw_score four_on_one_edge 0 3)
     else None) /\
    value r =
    r_div (spec_raw_score four_on_one_edge 0 (target r))
          (penalty (NodeWeightPenalty:=MultiplicativePenalty)
                   (nodeWeight four_on_one_edge 0)
                   (nodeWeight four_on_one_edge (target r))).
Proof.
  assert (A : rate_edges (R:=float) 10%Z true four_on_one_edge 0
                (incidentEdges four_on_one_edge 0) []
              = Ok (res_get (rate_edges (R:=float) 10%Z true four_on_one_edge 0
                               (incidentEdges four_on_one_edge 0) []) [])).
  { apply res_get_eq. vm_compute. reflexivity. }
  assert (E : default_rate 10%Z one_community true 0 (start four_on_one_edge 7)
              = Ok (fst (rated 10%Z true 0 (start four_on_one_edge 7)),
                    snd (rated 10%Z true 0 (start four_on_one_edge 7)))).
  { apply rated_eq. vm_compute. reflexivity. }
  assert (V : valid (fst (rated 10%Z true 0 (start four_on_one_edge 7))) = true).
  { vm_compute. reflexivity. }
  eexists. eexists. eexists.
  split; [exact A|]. split; [exact E|]. split; [exact V|].
  split; [vm_compute; reflexivity|]. split; [vm_compute; reflexivity|].
  split; [vm_compute; reflexivity|]. split; [vm_compute; reflexivity|].
  split.
  - exact (proj1 (rate_scores (R:=float) (Rng:=N)
             (NP:=MultiplicativePenalty)
             (AP:=BestRatingWithRandomTieBreaking RandomRatingWins)
             10%Z one_community true 0
             (start four_on_one_edge 7) eq_refl four_on_one_edge_wf eq_refl)
           _ 3 A).
  - exact (proj1 (proj2 (rate_scores (R:=float) (Rng:=N)
             (NP:=MultiplicativePenalty)
             (AP:=BestRatingWithRandomTieBreaking RandomRatingWins)
             10%Z one_community true 0
             (start four_on_one_edge 7) eq_refl four_on_one_edge_wf eq_refl))
           _ _ E V).
Defined.

(** C6: vertex 0 has a hyperedge of its own. *)
Lemma rate_degenerate_edges_witness :
  default_rate 10%Z one_community true 0 (start with_single_pin_edge 7) = AssertionFailed /\
  exists r st',
    default_rate 10%Z one_community false 0 (start with_single_pin_edge 7) = Ok (r, st') /\
    default_rate 10%Z one_community false 0
      (set_hg (start with_single_pin_edge 7)
              (skip_degenerate with_single_pin_edge 0))
    = Ok (r, set_hg st' (skip_degenerate with_single_pin_edge 0)).
Proof.
  assert (Hinc : forall e, In e (incidentEdges with_single_pin_edge 0) ->
                           In 0 (pins with_single_pin_edge e)).
  { intros e He.
    now apply (@wf_incident_edges with_single_pin_edge 0
                 with_single_pin_edge_wf eq_refl). }
  split.
  - refine (proj1 (rate_degenerate_edges (R:=float) (Rng:=N)
             (NP:=MultiplicativePenalty)
             (AP:=BestRatingWithRandomTieBreaking RandomRatingWins)
             10%Z one_community true 0
             (start with_single_pin_edge 7) Hinc) eq_refl _).
    exists 0. split; [now left | vm_compute; discriminate].
  - destruct (proj2 (rate_degenerate_edges (R:=float) (Rng:=N)
               (NP:=MultiplicativePenalty)
             (AP:=BestRatingWithRandomTieBreaking RandomRatingWins)
               10%Z one_community false 0
               (start with_single_pin_edge 7) Hinc) eq_refl)
      as ((r & st' & E) & _ & Hskip).
    exists r, st'. split; [exact E | exact (Hskip r st' E)].
Defined.

(** C6 as stated fails there: with assertions checked the call fails on the
    hyperedge of size 1, whose score is a division by zero. *)
Lemma rate_fails_on_single_pin_edge :
  In 0 (incidentEdges with_single_pin_edge 0) /\
  edgeSize with_single_pin_edge 0 = 1 /\
  edge_score (R:=float) with_single_pin_edge 0 = PrimFloat.infinity /\
  default_rate 10%Z one_community true 0 (start with_single_pin_edge 7) = AssertionFailed.
Proof.
  repeat split; try reflexivity. now left.
Qed.

(** C7 on vertex 0 tied to two equal neighbours, ties left to the first
    candidate: the second call returns the rating of the first. *)
Lemma rate_twice_witness :
  exists r1 st1,
    first_rate 10%Z one_community true 0 (start two_equal_neighbours 2)
    = Ok (r1, st1) /\
    valid r1 = true /\ target r1 = 2 /\
    first_rate 10%Z one_community true 0 (set_rng st1 2) = Ok (r1, st1) /\
    exists st2, first_rate 10%Z one_community true 0 st1 = Ok (r1, st2).
Proof.
  assert (E : first_rate 10%Z one_community true 0 (start two_equal_neighbours 2)
              = Ok (fst (res_get (first_rate 10%Z one_community true 0
                                    (start two_equal_neighbours 2))
                           (default_rating, start two_equal_neighbours 2)),
                    snd (res_get (first_rate 10%Z one_community true 0
                                    (start two_equal_neighbours 2))
                           (default_rating, start two_equal_neighbours 2)))).
  { apply rated_eq. vm_compute. reflexivity. }
  eexists. eexists. split; [exact E|].
  split; [vm_compute; reflexivity|]. split; [vm_compute; reflexivity|].
  split.
  - exact (proj1 (rate_twice 10%Z one_community true 0
                    (start two_equal_neighbours 2) eq_refl E)).
  - exact (proj2 (rate_twice 10%Z one_community true 0
                    (start two_equal_neighbours 2) eq_refl E)
             first_rating_wins_deterministic).
Defined.

(** C7 as stated fails there: the coin gives vertex 2 to the first call and
    vertex 1 to the second, on the same hypergraph and matched markers. *)
Lemma rate_twice_differs :
  match default_rate 10%Z one_community true 0 (start two_equal_neighbours 2) with
  | Ok (r1, st1) =>
      nodes (hg st1) = nodes two_equal_neighbours /\
      map (already_matched st1) [0; 1; 2] = [false; false; false] /\
      tmp_ratings st1 = [] /\
      match default_rate 10%Z one_community true 0 st1 with
      | Ok (r2, _) =>
          valid r1 = true /\ valid r2 = true /\
          value r1 = value r2 /\ target r1 = 2 /\ target r2 = 1
      | AssertionFailed => False
      end
  | AssertionFailed => False
  end.
Proof.
  vm_compute. repeat split; reflexivity.
Qed.


(** C8 on two vertices of weight 1 that share a hyperedge. *)
Lemma two_unit_vertices_stall_witness :
  (forall u (st : State float N),
     In u [0; 1] -> hg st = two_unit_vertices -> tmp_ratings st = [] ->
     exists st', default_rate 1%Z one_community true u st = Ok (default_rating, st')) /\
  exists st',
    default_coarsen 1%Z one_community true 1 (start two_unit_vertices 7) = Some (Ok st') /\
    coarsen_pass (NP:=NoWeightPenalty)
      (AP:=BestRatingPreferringUnmatched RandomRatingWins)
      1%Z one_community true 1 (start two_unit_vertices 7) = Ok st' /\
    hg st' = two_unit_vertices /\ currentNumNodes (hg st') = 2 /\
    history st' = [] /\ passes (events st') = 1.
Proof.
  assert (Hsize : rate_cannot_fail true two_unit_vertices).
  { right. intros u e He. apply filter_In in He. destruct He as [He _].
    apply all_ids_In in He. simpl in He.
    assert (e = 0) by lia. subst e. reflexivity. }
  split.
  - exact (proj1 (two_unit_vertices_stall (R:=float) (Rng:=N)
             (NP:=MultiplicativePenalty)
             (AP:=BestRatingWithRandomTieBreaking RandomRatingWins)
             one_community 7 (limit:=1)
             two_unit_vertices_wf eq_refl eq_refl eq_refl Hsize eq_refl)).
  - exact (proj2 (two_unit_vertices_stall (R:=float) (Rng:=N)
             (NP:=NoWeightPenalty)
             (AP:=BestRatingPreferringUnmatched RandomRatingWins)
             one_community 7 (limit:=1)
             two_unit_vertices_wf eq_refl eq_refl eq_refl Hsize eq_refl)).
Defined.


(** Without assertions a record on a disabled vertex goes through as well. *)
Example simulateContractions_unchecked_disabled_vertex :
  match default_simulate false
          [{| m_u := 0; m_v := 1 |}; {| m_u := 0; m_v := 1 |}]
          (start four_on_one_edge 7) with
  | Ok st' => nodes (hg st') = [0; 2; 3]
  | AssertionFailed => False
  end.
Proof.
  vm_compute. repeat split; reflexivity.
Qed.

(** A record on a disabled vertex fails the replay when assertions are
    checked. *)
Example simulateContractions_disabled_vertex :
  default_simulate true [{| m_u := 0; m_v := 1 |}; {| m_u := 0; m_v := 1 |}]
    (start four_on_one_edge 7) = AssertionFailed.
Proof. vm_compute. reflexivity. Qed.

(** The hyperedge of four vertices: one pass brings four vertices to two. *)
Example four_on_one_edge_one_pass :
  match default_coarsen 10%Z one_community true 2 (start four_on_one_edge 7) with
  | Some (Ok st') => nodes (hg st') = [0; 3] /\ passes (events st') = 1
  | _ => False
  end.
Proof.
  vm_compute. repeat split; reflexivity.
Qed.

(** The sum of two weights wraps when it overflows: the greatest weight and
    the weight 1 pass the test against the threshold 10, and vertex 0 is
    given vertex 1. *)
Example rate_overflowing_weights :
  weight_add 2147483647 1 = (-2147483648)%Z /\
  match default_rate 10%Z one_community true 0 (start with_greatest_weight 7) with
  | Ok (r, _) => valid r = true /\ target r = 1
  | AssertionFailed => False
  end.
Proof.
  vm_compute. repeat split; reflexivity.
Qed.

(** ** The further properties on the example inputs *)

(** X1 on the vertex with a hyperedge of its own. *)
Lemma rate_fails_iff_witness :
  default_rate 10%Z one_community true 0 (start with_single_pin_edge 7)
  = AssertionFailed <->
  true = true /\
  exists e, In e (incidentEdges with_single_pin_edge 0) /\
            edgeSize with_single_pin_edge e <= 1.
Proof.
  exact (rate_fails_iff (R:=float) (Rng:=N) (NP:=MultiplicativePenalty)
           (AP:=BestRatingWithRandomTieBreaking RandomRatingWins)
           10%Z one_community true 0 (start with_single_pin_edge 7)
           (wf_ids_representable with_single_pin_edge_wf) eq_refl).
Defined.

(** X2 on the hyperedge of four vertices. *)
Lemma rate_target_is_neighbour_witness :
  exists r st',
    default_rate 10%Z one_community true 0 (start four_on_one_edge 7)
    = Ok (r, st') /\
    valid r = true /\
    ((exists e, In e (incidentEdges four_on_one_edge 0) /\
                In (target r) (pins four_on_one_edge e)) /\
     (wf four_on_one_edge ->
      nodeIsEnabled four_on_one_edge (target r) = true /\
      target r < initialNumNodes four_on_one_edge /\
      In (target r) (nodes four_on_one_edge))).
Proof.
  assert (E : default_rate 10%Z one_community true 0 (start four_on_one_edge 7)
              = Ok (fst (rated 10%Z true 0 (start four_on_one_edge 7)),
                    snd (rated 10%Z true 0 (start four_on_one_edge 7)))).
  { apply rated_eq. vm_compute. reflexivity. }
  assert (V : valid (fst (rated 10%Z true 0 (start four_on_one_edge 7))) = true).
  { vm_compute. reflexivity. }
  eexists. eexists. split; [exact E|]. split; [exact V|].
  exact (rate_target_is_neighbour 10%Z one_community true 0
           (start four_on_one_edge 7) eq_refl E V).
Defined.

(** X3 on vertex 0 tied to two neighbours, both admissible and both of
    another community. *)
Lemma rate_without_candidate_witness :
  In 1 (pins two_equal_neighbours 0) /\
  In 2 (pins two_equal_neighbours 1) /\
  admissible 10%Z two_equal_neighbours 0 1 = true /\
  admissible 10%Z two_equal_neighbours 0 2 = true /\
  default_rate 10%Z vertex_0_apart true 0 (start two_equal_neighbours 7)
  = Ok (default_rating, start two_equal_neighbours 7).
Proof.
  split; [vm_compute; tauto|]. split; [vm_compute; tauto|].
  split; [vm_compute; reflexivity|]. split; [vm_compute; reflexivity|].
  refine (rate_without_candidate (R:=float) (Rng:=N)
            (NP:=MultiplicativePenalty)
            (AP:=BestRatingWithRandomTieBreaking RandomRatingWins)
            10%Z vertex_0_apart (assertions:=true) 0
            (start two_equal_neighbours 7) eq_refl _ (or_intror _)).
  - intros e v _ _ Ha. apply admissible_spec in Ha. destruct Ha as (Hne & _).
    unfold vertex_0_apart. apply N.eqb_neq in Hne. rewrite Hne. discriminate.
  - intros e He. simpl in He. destruct He as [<-|[<-|[]]]; reflexivity.
Defined.

(** X4 on the hyperedge of four vertices: vertices 0 and 3 are candidates of
    each other. *)
Lemma rate_candidates_mutual_witness :
  exists tmp_u tmp_v,
    rate_edges (R:=float) 10%Z true four_on_one_edge 0
      (incidentEdges four_on_one_edge 0) [] = Ok tmp_u /\
    rate_edges (R:=float) 10%Z true four_on_one_edge 3
      (incidentEdges four_on_one_edge 3) [] = Ok tmp_v /\
    (In 3 (sm_keys tmp_u) <-> In 0 (sm_keys tmp_v)).
Proof.
  eexists. eexists.
  split; [apply res_get_eq with (d := []); vm_compute; reflexivity|].
  split; [apply res_get_eq with (d := []); vm_compute; reflexivity|].
  refine (rate_candidates_mutual (R:=float) 10%Z true 0 3
            four_on_one_edge_wf eq_refl eq_refl _ _).
  - apply res_get_eq with (d := []). vm_compute. reflexivity.
  - apply res_get_eq with (d := []). vm_compute. reflexivity.
Defined.

(** X5 on the hyperedge of four vertices: the candidate 3 of vertex 0, with
    its score of 2, under the thresholds 2 and 10. *)
Lemma rate_edges_threshold_witness :
  exists tmp tmp',
    rate_edges (R:=float) 2%Z true four_on_one_edge 0
      (incidentEdges four_on_one_edge 0) [] = Ok tmp /\
    rate_edges (R:=float) 10%Z true four_on_one_edge 0
      (incidentEdges four_on_one_edge 0) [] = Ok tmp' /\
    sm_get tmp 3 = Some 2%float /\
    sm_get tmp' 3 = Some 2%float.
Proof.
  eexists. eexists.
  split; [apply res_get_eq with (d := []); vm_compute; reflexivity|].
  split; [apply res_get_eq with (d := []); vm_compute; reflexivity|].
  split; [vm_compute; reflexivity|].
  refine (rate_edges_threshold (R:=float) true (t:=2%Z) (t':=10%Z)
            four_on_one_edge 0 3 _ _ _ _ _).
  - apply Z.leb_le. reflexivity.
  - intros e He.
    apply (@wf_incident_edges four_on_one_edge 0 four_on_one_edge_wf eq_refl e He).
  - apply res_get_eq with (d := []). vm_compute. reflexivity.
  - apply res_get_eq with (d := []). vm_compute. reflexivity.
  - vm_compute. reflexivity.
Defined.

(** X6 on the hyperedge of four vertices, against the labelling that puts
    every vertex in community 7. *)
Lemma rate_without_community_detection_witness :
  default_rate 10%Z
    (HeavyEdgeRater_comm false (fun _ v => Z.of_N v) four_on_one_edge)
    true 0 (start four_on_one_edge 7)
  = default_rate 10%Z (fun _ => 7%Z) true 0 (start four_on_one_edge 7).
Proof.
  exact (rate_without_community_detection (R:=float) (Rng:=N)
           (NP:=MultiplicativePenalty)
           (AP:=BestRatingWithRandomTieBreaking RandomRatingWins)
           true 10%Z (fun _ v => Z.of_N v) (fun _ => 7%Z) 0
           (start four_on_one_edge 7) (fun _ => eq_refl)).
Defined.

(** X7 on the hyperedge of four vertices, coarsened down to two. *)
Lemma coarsen_callbacks_witness :
  exists st',
    default_coarsen 10%Z one_community true 2 (start four_on_one_edge 7)
    = Some (Ok st') /\
    exists new newh,
      events st' = events (start four_on_one_edge 7) ++ new /\
      history st' = history (start four_on_one_edge 7) ++ newh /\
      callbacks_follow new /\
      contractions new = newh /\
      contraction_calls new = newh.
Proof.
  assert (E : default_coarsen 10%Z one_community true 2 (start four_on_one_edge 7)
              = Some (Ok (coarsened 10%Z true 2 (start four_on_one_edge 7)))).
  { apply run_get_eq. vm_compute. reflexivity. }
  eexists. split; [exact E|].
  exact (coarsen_callbacks 10%Z one_community true 2 _ E).
Defined.

(** X8 on the same run. *)
Lemma coarsen_then_replay_witness :
  exists st',
    default_coarsen 10%Z one_community true 2 (start four_on_one_edge 7)
    = Some (Ok st') /\
    exists newh,
      history st' = history (start four_on_one_edge 7) ++ newh /\
      hg st' = replay four_on_one_edge newh /\
      replay_enabled four_on_one_edge newh = true /\
      forall (checked : bool) (s : State float N),
        hg s = four_on_one_edge ->
        exists s',
          simulateContractions checked newh s = Ok s' /\
          hg s' = hg st' /\
          history s' = history s ++ newh /\
          contraction_calls (events s')
          = contraction_calls (events s) ++ newh.
Proof.
  assert (E : default_coarsen 10%Z one_community true 2 (start four_on_one_edge 7)
              = Some (Ok (coarsened 10%Z true 2 (start four_on_one_edge 7)))).
  { apply run_get_eq. vm_compute. reflexivity. }
  eexists. split; [exact E|].
  exact (coarsen_then_replay true 2
           (inv_initial 10%Z one_community 7 four_on_one_edge_wf) E).
Defined.

(** X10 on a pass over the hyperedge of four vertices. *)
Lemma coarsen_pass_rates_in_order_witness :
  exists st',
    default_pass 10%Z one_community true 2 (start four_on_one_edge 7) = Ok st' /\
    exists new,
      events st' = events (start four_on_one_edge 7) ++ new ++ [EvEndOfPass] /\
      passes new = 0 /\
      subsequence (rated_vertices new)
        (fst (shuffleVector (nodes four_on_one_edge) 7)) /\
      (NoDup (fst (shuffleVector (nodes four_on_one_edge) 7)) ->
       NoDup (rated_vertices new)).
Proof.
  eexists.
  split; [apply res_get_eq with (d := start four_on_one_edge 7);
          vm_compute; reflexivity|].
  refine (coarsen_pass_rates_in_order (R:=float) (Rng:=N) (NP:=NoWeightPenalty)
            (AP:=BestRatingPreferringUnmatched RandomRatingWins)
            10%Z one_community true 2 (start four_on_one_edge 7) _).
  apply res_get_eq with (d := start four_on_one_edge 7). vm_compute. reflexivity.
Defined.

(** X11 on the same pass. *)
Lemma coarsen_pass_matched_witness :
  exists st',
    default_pass 10%Z one_community true 2 (start four_on_one_edge 7) = Ok st' /\
    exists newh,
      history st' = history (start four_on_one_edge 7) ++ newh /\
      forall x, already_matched st' x = true <-> in_records newh x.
Proof.
  eexists.
  split; [apply res_get_eq with (d := start four_on_one_edge 7);
          vm_compute; reflexivity|].
  refine (coarsen_pass_matched (R:=float) (Rng:=N) (NP:=NoWeightPenalty)
            (AP:=BestRatingPreferringUnmatched RandomRatingWins)
            10%Z one_community true 2 (start four_on_one_edge 7) _).
  apply res_get_eq with (d := start four_on_one_edge 7). vm_compute. reflexivity.
Defined.

(** X14 on the hyperedge of four vertices, coarsened down to two. *)
Lemma coarsen_contracts_rated_vertex_witness :
  exists st',
    default_coarsen 10%Z one_community true 2 (start four_on_one_edge 7)
    = Some (Ok st') /\
    exists new,
      events st' = events (start four_on_one_edge 7) ++ new /\
      rated_before None new.
Proof.
  assert (E : default_coarsen 10%Z one_community true 2 (start four_on_one_edge 7)
              = Some (Ok (coarsened 10%Z true 2 (start four_on_one_edge 7)))).
  { apply run_get_eq. vm_compute. reflexivity. }
  eexists. split; [exact E|].
  exact (coarsen_contracts_rated_vertex 10%Z one_community true 2 _ E).
Defined.
